(** * RadialAutomata: ring topology and cell-state generation

    A shallow embedding of the generation engine of the radial cellular
    automaton (src/radial.js, the constant-interval sketch, and its
    successor with one expansion interval per ring transition), together
    with the properties of the engine stated in the specification.

    Conventions of the embedding.
    - A JavaScript number that the engine manipulates is either an integer
      (array lengths, counters, parsed controls) or one of the three
      non-finite doubles that integer arithmetic can produce (a division by
      zero).  Integers are unbounded [Z]: doubles are exact on integers
      below 2^53.  The two zeros of IEEE arithmetic are identified.
    - [new Array(n)] throws a RangeError unless [n] is an integer between
      0 and 2^32-1; running out of memory below that limit is not
      modelled.
    - An array is a list; a read outside the list yields [Undefined], as
      in JavaScript; holes left by [new Array(n)] are [Undefined] entries.
    - A string is a sequence of code units below 256.
    - A statement that can throw returns a [result]. *)

From Stdlib Require Import ZArith Znumtheory Lia Ascii.
From stdpp Require Import base numbers list strings pretty sorting.

Local Open Scope Z_scope.

(** ** JavaScript values and the operations the sketch uses *)

Module JS.

Inductive number : Type :=
| Int (z : Z)
| PosInf
| NegInf
| NaN.

Inductive value : Type :=
| Num (n : number)
| Undefined.

Inductive error : Type :=
| RangeError
| TypeError.

Inductive result (A : Type) : Type :=
| Ok (a : A)
| Throw (e : error).
Global Arguments Ok {A} a.
Global Arguments Throw {A} e.

Global Instance result_ret : MRet result := @Ok.
Global Instance result_bind : MBind result := λ A B f m,
  match m with
  | Ok a => f a
  | Throw e => Throw e
  end.

Global Instance number_eq_dec : EqDecision number.
Proof. solve_decision. Defined.
Global Instance value_eq_dec : EqDecision value.
Proof. solve_decision. Defined.

Definition bit (b : Z) : value := Num (Int b).

(** [a + b] *)
Definition add (a b : number) : number :=
  match a, b with
  | NaN, _ | _, NaN => NaN
  | PosInf, NegInf | NegInf, PosInf => NaN
  | PosInf, _ | _, PosInf => PosInf
  | NegInf, _ | _, NegInf => NegInf
  | Int x, Int y => Int (x + y)
  end.

(** [a - b] *)
Definition sub (a b : number) : number :=
  match a, b with
  | NaN, _ | _, NaN => NaN
  | PosInf, PosInf | NegInf, NegInf => NaN
  | PosInf, _ | _, NegInf => PosInf
  | NegInf, _ | _, PosInf => NegInf
  | Int x, Int y => Int (x - y)
  end.

(** The number a value stands for in arithmetic: [undefined] is NaN. *)
Definition to_number (v : value) : number :=
  match v with
  | Num n => n
  | Undefined => NaN
  end.

(** [Math.floor(a / b)] (p5's [floor] is [Math.floor]).  On integers with a
    non-zero divisor this is the floor quotient [Z.div]; a zero divisor
    gives an infinity, or NaN for 0/0. *)
Definition floor_div (a b : number) : number :=
  match a, b with
  | NaN, _ | _, NaN => NaN
  | Int x, Int y =>
      if y =? 0 then
        (if 0 <? x then PosInf else if x <? 0 then NegInf else NaN)
      else Int (x / y)
  | Int _, (PosInf | NegInf) => Int 0
  | PosInf, Int y => if 0 <=? y then PosInf else NegInf
  | NegInf, Int y => if 0 <=? y then NegInf else PosInf
  | (PosInf | NegInf), (PosInf | NegInf) => NaN
  end.

(** [a % b]: the remainder has the sign of the dividend ([Z.rem]). *)
Definition rem (a b : number) : number :=
  match a, b with
  | Int x, Int y => if y =? 0 then NaN else Int (Z.rem x y)
  | Int x, (PosInf | NegInf) => Int x
  | _, _ => NaN
  end.

(** [a < b] *)
Definition lt (a b : number) : bool :=
  match a, b with
  | NaN, _ | _, NaN => false
  | Int x, Int y => x <? y
  | NegInf, (Int _ | PosInf) => true
  | Int _, PosInf => true
  | _, _ => false
  end.

(** [a > b] *)
Definition gt (a b : number) : bool := lt b a.

(** [a === b] on numbers: NaN is different from everything. *)
Definition strict_eq (a b : number) : bool :=
  match a, b with
  | Int x, Int y => x =? y
  | PosInf, PosInf | NegInf, NegInf => true
  | _, _ => false
  end.

(** Truthiness: 0, NaN and undefined are falsy. *)
Definition truthy (v : value) : bool :=
  match v with
  | Num (Int z) => negb (z =? 0)
  | Num NaN => false
  | Num _ => true
  | Undefined => false
  end.

(** [a || b] *)
Definition or_else (a b : value) : value := if truthy a then a else b.

(** [arr[i]]: an index that is not an integer inside the array reads
    [undefined]. *)
Definition get (arr : list value) (i : number) : value :=
  match i with
  | Int z => if 0 <=? z then default Undefined (arr !! Z.to_nat z) else Undefined
  | _ => Undefined
  end.

(** [arr[i] = x]: a write past the end extends the array with holes. *)
Definition set_index (arr : list value) (i : nat) (x : value) : list value :=
  if decide (i < length arr)%nat then <[i := x]> arr
  else arr ++ replicate (i - length arr) Undefined ++ [x].

(** [arr.length] *)
Definition len {A} (arr : list A) : number := Int (Z.of_nat (length arr)).

(** The largest length of an array, 2^32 - 1. *)
Definition max_array_length : Z := 4294967295.

(** The lengths that [new Array(n)] accepts: the integers from 0 to
    2^32 - 1. *)
Definition allocatable (n : number) : bool :=
  match n with
  | Int z => (0 <=? z) && (z <=? max_array_length)
  | _ => false
  end.

(** [new Array(n).fill(x)]: [new Array(n)] throws a RangeError unless [n]
    is an integer between 0 and 2^32 - 1. *)
Definition new_Array_fill {A} (n : number) (x : A) : result (list A) :=
  match n with
  | Int z => if allocatable n then Ok (replicate (Z.to_nat z) x) else Throw RangeError
  | _ => Throw RangeError
  end.

(** [new Array(n)]: every entry is a hole, which reads [undefined]. *)
Definition new_Array (n : number) : result (list value) :=
  new_Array_fill n Undefined.

(** A [for] loop whose body may throw, run over the values [range] of
    its counter. *)
Fixpoint for_each {S} (body : S → Z → result S) (s : S) (range : list Z) : result S :=
  match range with
  | [] => Ok s
  | r :: range' => s' ← body s r; for_each body s' range'
  end.

(** [arr.slice(0, n)] for an integer [n]; a negative [n] counts from the
    end of the array. *)
Definition slice0 {A} (arr : list A) (n : Z) : list A :=
  if n <? 0 then take (Z.to_nat (Z.max (Z.of_nat (length arr) + n) 0)) arr
  else take (Z.to_nat n) arr.

(** *** Strings *)

(** [String(v)], as used by string concatenation. *)
Definition to_string (v : value) : string :=
  match v with
  | Num (Int z) => pretty z
  | Num PosInf => "Infinity"
  | Num NegInf => "-Infinity"
  | Num NaN => "NaN"
  | Undefined => "undefined"
  end.

Definition code (c : ascii) : Z := Z.of_nat (nat_of_ascii c).

(** White space among the code units below 256: TAB, LF, VT, FF, CR,
    SPACE and the no-break space. *)
Definition is_space (c : ascii) : bool :=
  let n := code c in ((9 <=? n) && (n <=? 13)) || (n =? 32) || (n =? 160).

Fixpoint skip_space (s : string) : string :=
  match s with
  | String c s' => if is_space c then skip_space s' else s
  | EmptyString => EmptyString
  end.

(** [s.trim()] *)
Definition trim (s : string) : string :=
  String.rev (skip_space (String.rev (skip_space s))).

(** The value of a digit in radixes up to 36. *)
Definition digit_of (c : ascii) : option Z :=
  let n := code c in
  if (48 <=? n) && (n <=? 57) then Some (n - 48)
  else if (97 <=? n) && (n <=? 122) then Some (n - 87)
  else if (65 <=? n) && (n <=? 90) then Some (n - 55)
  else None.

(** The longest prefix of radix-[R] digits, read as an integer; [acc] is
    [None] as long as no digit has been read. *)
Fixpoint parse_digits (R : Z) (s : string) (acc : option Z) : option Z :=
  match s with
  | String c s' =>
      match digit_of c with
      | Some d => if d <? R then parse_digits R s' (Some (default 0 acc * R + d)) else acc
      | None => acc
      end
  | EmptyString => acc
  end.

Definition strip_sign (s : string) : bool * string :=
  match s with
  | String "-" s' => (true, s')
  | String "+" s' => (false, s')
  | _ => (false, s)
  end.

Definition strip_hex (s : string) : option string :=
  match s with
  | String "0" (String "x" s') | String "0" (String "X" s') => Some s'
  | _ => None
  end.

(** [parseInt(s, radix)]; [radix = 0] stands for an omitted radix. *)
Definition parseInt (s : string) (radix : Z) : number :=
  let '(neg, s2) := strip_sign (skip_space s) in
  if negb (radix =? 0) && ((radix <? 2) || (36 <? radix)) then NaN
  else
    let R := if radix =? 0 then 10 else radix in
    let '(R, s3) :=
      match strip_hex s2 with
      | Some s' => if (radix =? 0) || (radix =? 16) then (16, s') else (R, s2)
      | None => (R, s2)
      end in
    match parse_digits R s3 None with
    | Some m => Int (if neg : bool then - m else m)
    | None => NaN
    end.

(** [s.split(sep)] for a one-character separator. *)
Fixpoint split (sep : ascii) (s : string) : list string :=
  match s with
  | EmptyString => [EmptyString]
  | String c s' =>
      if decide (c = sep) then EmptyString :: split sep s'
      else
        match split sep s' with
        | t :: ts => String c t :: ts
        | [] => [String c EmptyString]
        end
  end.

(** [s.split('')]: the characters of [s]. *)
Fixpoint chars (s : string) : list string :=
  match s with
  | EmptyString => []
  | String c s' => String c EmptyString :: chars s'
  end.

End JS.

Import JS.

(** ** The rule engine and the cell-state generator

    [rules] and [generateNextRing] are the same in both sketches. *)

(** [rules(a, b, c)]: the neighbourhood is appended, value after value, to
    the empty string and the string is read back in base 2. *)
Definition rules (ruleset : list value) (a b c : value) : value :=
  let s := EmptyString +:+ to_string a +:+ to_string b +:+ to_string c in
  let index := parseInt s 2 in
  get ruleset (sub (Int 7) index).

Section generateNextRing.
Variables (ruleset currentCells : list value) (nextExpansions : list bool).

(** One iteration of the loop of [generateNextRing], at position [i]; the
    loop state is the cursor [prevIndex] and the ring being filled. *)
Definition next_cell (st : Z * list value) (i : nat) : Z * list value :=
  let '(prevIndex, nextCells) := st in
  if default false (nextExpansions !! i) then
    if 0 <? prevIndex
    then (prevIndex, <[i := get currentCells (Int (prevIndex - 1))]> nextCells)
    else (prevIndex, <[i := get currentCells (sub (len currentCells) (Int 1))]> nextCells)
  else
    let left := get currentCells
      (rem (add (Int (prevIndex - 1)) (len currentCells)) (len currentCells)) in
    let center := get currentCells (Int prevIndex) in
    let right := get currentCells (rem (Int (prevIndex + 1)) (len currentCells)) in
    (prevIndex + 1, <[i := rules ruleset left center right]> nextCells).

(** The loop state after the first [k] iterations. *)
Definition next_cells_upto (nextCells : list value) (k : nat) : Z * list value :=
  foldl next_cell (0, nextCells) (seq 0 k).

(** The ring [nextCells] once the loop has run over all its positions. *)
Definition fill_next_ring (nextCells : list value) : list value :=
  (next_cells_upto nextCells (length nextCells)).2.
End generateNextRing.

(** [generateNextRing(ringIndex)] on the ring collection: fills
    [rings[ringIndex + 1]] in place.  Reading a property of a missing ring
    is a TypeError. *)
Definition generateNextRing (ruleset : list value)
    (rings : list (list value)) (expansionMap : list (list bool))
    (ringIndex : Z) : result (list (list value)) :=
  let next := Z.to_nat (ringIndex + 1) in
  match rings !! next with
  | None => Throw TypeError
  | Some nextCells =>
      if decide (length nextCells = 0%nat) then Ok rings
      else
        match expansionMap !! next, rings !! Z.to_nat ringIndex with
        | Some nextExpansions, Some currentCells =>
            Ok (<[next := fill_next_ring ruleset currentCells nextExpansions nextCells]> rings)
        | _, _ => Throw TypeError
        end
  end.

(** ** Ring topology *)

(** The loop that marks the expansion cells of a new ring. *)
Definition mark_expansions (expansionInterval : number) (mask : list bool) : list bool :=
  foldl (λ mask i,
           if strict_eq (rem (Int (Z.of_nat i)) (add expansionInterval (Int 1))) expansionInterval
           then <[i := true]> mask else mask)
        mask (seq 0 (length mask)).

(** The body of the loop over [r] in [initializeSimulation]: the cells
    (still holes) and the expansion mask of the ring that follows a ring of
    [prevCount] cells. *)
Definition buildRing (prevCount expansionInterval : number) : result (list value * list bool) :=
  let expansionCount := floor_div prevCount expansionInterval in
  let newCount := add prevCount expansionCount in
  cells ← new_Array newCount;
  mask ← new_Array_fill newCount false;
  mret (cells, mark_expansions expansionInterval mask).

(** ** Divisors and the default interval (variable-interval sketch) *)

(** [getDivisors(n)].  The loop runs while [i <= Math.sqrt(n)], that is for
    [i] from 1 to the integer square root of [n]; [n / i] is only computed
    when [i] divides [n]. *)
Definition getDivisors (n : Z) : list Z :=
  let divisors :=
    foldl (λ divisors i,
             if Z.rem n i =? 0 then
               if negb (i =? n / i) then divisors ++ [i; n / i] else divisors ++ [i]
             else divisors)
          [] (seqZ 1 (Z.sqrt n)) in
  merge_sort Z.le divisors.

(** [getDefaultExpansionInterval(cellCount)]; [None] stands for
    [undefined].  [Math.floor(length * 0.6)] is computed on integers as
    [length * 6 / 10]. *)
Definition getDefaultExpansionInterval (cellCount : Z) : option Z :=
  let divisors := getDivisors cellCount in
  let validDivisors := filter (λ d, 1 < d) divisors in
  if decide (length validDivisors = 0%nat) then Some cellCount
  else
    let targetIndex := Z.of_nat (length validDivisors) * 6 / 10 in
    let targetIndex := Z.max 0 (Z.min (Z.of_nat (length validDivisors) - 1) targetIndex) in
    validDivisors !! Z.to_nat targetIndex.

(** ** Topology of a whole run

    The loop of [initializeSimulation] that pre-calculates every ring is the
    same in both sketches except for the interval it uses at ring [r]:
    [interval_for r prevCount]. *)

(** Ring 0: [initialPattern.slice(0, initialCellCount)], then zeros are
    pushed while the ring is shorter than [initialCellCount]. *)
Definition first_ring (initialPattern : list value) (initialCellCount : Z) : list value :=
  let ring0 := slice0 initialPattern initialCellCount in
  ring0 ++ replicate (Z.to_nat (initialCellCount - Z.of_nat (length ring0))) (bit 0).

Section topology.
Variable interval_for : Z → number → number.

(** One iteration of the loop over [r]; [rings[r]] and [expansionMap[r]]
    are the next free entries of the two arrays. *)
Definition ring_step (st : list (list value) * list (list bool)) (r : Z)
    : result (list (list value) * list (list bool)) :=
  let '(rings, expansionMap) := st in
  match rings !! Z.to_nat (r - 1) with
  | None => Throw TypeError
  | Some prev =>
      let prevCount := len prev in
      let expansionInterval := interval_for r prevCount in
      '(cells, mask) ← buildRing prevCount expansionInterval;
      mret (rings ++ [cells], expansionMap ++ [mask])
  end.

Definition precalculate (initialPattern : list value) (initialCellCount numRings : Z)
    : result (list (list value) * list (list bool)) :=
  let ring0 := first_ring initialPattern initialCellCount in
  mask0 ← new_Array_fill (Int initialCellCount) false;
  for_each ring_step ([ring0], [mask0]) (seqZ 1 (numRings - 1)).
End topology.

(** The reads of [draw] that can fail: the current ring, and, past ring 0,
    the previous ring and the mask of the current one. *)
Definition render_reads (rings : list (list value)) (expansionMap : list (list bool))
    (currentRing : Z) : result unit :=
  match rings !! Z.to_nat currentRing with
  | None => Throw TypeError
  | Some cells =>
      if 0 <? currentRing then
        match rings !! Z.to_nat (currentRing - 1) with
        | None => Throw TypeError
        | Some _ =>
            if decide (length cells = 0%nat) then Ok ()
            else if expansionMap !! Z.to_nat currentRing is Some _ then Ok ()
            else Throw TypeError
        end
      else Ok ()
  end.

(** One call of [draw], which is the same in both sketches as far as the
    ring collection is concerned: past the last ring the frame only stops
    the loop; otherwise ring [currentRing] is rendered, the next ring is
    generated unless [currentRing] is the last one, and [currentRing]
    advances. *)
Definition draw_frame (numRings : Z) (ruleset : list value)
    (expansionMap : list (list bool)) (rings : list (list value)) (currentRing : Z)
    : result (list (list value) * Z) :=
  if numRings <=? currentRing then Ok (rings, currentRing)
  else
    _ ← render_reads rings expansionMap currentRing;
    rings' ← (if currentRing <? numRings - 1
              then generateNextRing ruleset rings expansionMap currentRing
              else Ok rings);
    mret (rings', currentRing + 1).

(** The radial lines of a frame ([draw], both sketches): the loop over the
    cells of the current ring draws a line to every cell that is not an
    expansion cell, from cell [prevIndex] of the previous ring.  The angles
    and coordinates are left out: a line is the pair of the two cell
    indices that it joins. *)
Definition radial_lines (nextExpansions : list bool) (cellCount : nat) : list (Z * nat) :=
  (foldl (λ '(prevIndex, lines) i,
            if negb (default false (nextExpansions !! i))
            then (prevIndex + 1, lines ++ [(prevIndex, i)])
            else (prevIndex, lines))
         (0, []) (seq 0 cellCount)).2.

(** The circles of a ring ([draw] and [updateColors]): a cell is painted
    in [color1] (black in the constant-interval sketch) when
    [rings[r][i] === 1] and in [color0] otherwise. *)
Definition painted_black (ring : list value) : list bool :=
  (λ cell, match cell with
           | Num n => strict_eq n (Int 1)
           | Undefined => false
           end) <$> ring.

(** [updateColors()] (variable-interval sketch) paints every ring of
    [rings] again, whatever [currentRing] is. *)
Definition updateColors (rings : list (list value)) : list (list bool) :=
  painted_black <$> rings.

(** ** Parsing the controls ([restartSimulation], both sketches) *)

(** The ruleset control: taken only when it has 8 characters. *)
Definition read_ruleset (ruleset : list value) (rulesetStr : string) : list value :=
  if decide (String.length rulesetStr = 8%nat)
  then (λ bit, Num (parseInt bit 0)) <$> chars rulesetStr
  else ruleset.

Definition is_bit (val : number) : bool := strict_eq val (Int 0) || strict_eq val (Int 1).

(** The pattern control: comma-separated tokens, parsed, of which only the
    values 0 and 1 are kept. *)
Definition read_pattern (patternStr : string) : list value :=
  Num <$> filter (λ val, is_bit val) ((λ val, parseInt (trim val) 0) <$> split "," patternStr).

(** The pattern is rebuilt when its length is not [initialCellCount]. *)
Definition fit_pattern (initialPattern : list value) (initialCellCount : Z) : list value :=
  if negb (strict_eq (len initialPattern) (Int initialCellCount)) then
    foldl (λ newPattern i,
             newPattern ++
               [or_else (get initialPattern (rem (Int i) (len initialPattern))) (bit 0)])
          [] (seqZ 0 initialCellCount)
  else initialPattern.

(** ** The pattern control after a restart ([restartSimulation], both sketches) *)

(** An element of [arr.join(sep)]: [undefined] gives the empty string. *)
Definition join_item (v : value) : string :=
  match v with
  | Undefined => EmptyString
  | _ => to_string v
  end.

(** [arr.join(sep)] *)
Fixpoint join (sep : string) (arr : list value) : string :=
  match arr with
  | [] => EmptyString
  | v :: rest =>
      match rest with
      | [] => join_item v
      | _ :: _ => join_item v +:+ sep +:+ join sep rest
      end
  end.

(** The text of the pattern control once [restartSimulation] has run: the
    rebuilt pattern is written back when the pattern that was read did not
    have [initialCellCount] entries. *)
Definition pattern_control (patternStr : string) (initialCellCount : Z) : string :=
  let initialPattern := read_pattern patternStr in
  if negb (strict_eq (len initialPattern) (Int initialCellCount))
  then join "," (fit_pattern initialPattern initialCellCount)
  else patternStr.

(** ** The constant-interval sketch (src/radial.js) *)

Module Constant.

Record state : Type := {
  initialCellCount : Z;
  numRings : Z;
  expansionInterval : number;
  ruleset : list value;
  initialPattern : list value;
  rings : list (list value);
  expansionMap : list (list bool);
  currentRing : Z
}.

Definition initializeSimulation (s : state) : result state :=
  '(rings, expansionMap) ←
    precalculate (λ _ _, expansionInterval s)
      (initialPattern s) (initialCellCount s) (numRings s);
  mret {| initialCellCount := initialCellCount s; numRings := numRings s;
          expansionInterval := expansionInterval s; ruleset := ruleset s;
          initialPattern := initialPattern s;
          rings := rings; expansionMap := expansionMap; currentRing := 0 |}.

(** [draw()] *)
Definition draw (s : state) : result state :=
  '(rings', currentRing') ←
    draw_frame (numRings s) (ruleset s) (expansionMap s) (rings s) (currentRing s);
  mret {| initialCellCount := initialCellCount s; numRings := numRings s;
          expansionInterval := expansionInterval s; ruleset := ruleset s;
          initialPattern := initialPattern s;
          rings := rings'; expansionMap := expansionMap s;
          currentRing := currentRing' |}.

(** [restartSimulation()].  The numeric controls are given parsed; the two
    counts are integers. *)
Definition restartSimulation (count rings_wanted : Z) (interval : number)
    (rulesetStr patternStr : string) (s : state) : result state :=
  let ruleset' := read_ruleset (ruleset s) rulesetStr in
  let pattern' := fit_pattern (read_pattern patternStr) count in
  initializeSimulation
    {| initialCellCount := count; numRings := rings_wanted;
       expansionInterval := interval; ruleset := ruleset';
       initialPattern := pattern';
       rings := rings s; expansionMap := expansionMap s; currentRing := currentRing s |}.

(** [k] frames in a row. *)
Fixpoint frames (k : nat) (s : state) : result state :=
  match k with
  | O => Ok s
  | S k' => s' ← draw s; frames k' s'
  end.

(** A complete run: initialisation, one frame per ring, and the frame that
    stops the loop. *)
Definition run (s : state) : result state :=
  s0 ← initializeSimulation s; frames (Z.to_nat (numRings s0) + 1) s0.

(** Two states hold the same parameters. *)
Definition same_parameters (s1 s2 : state) : Prop :=
  initialCellCount s1 = initialCellCount s2 ∧ numRings s1 = numRings s2
  ∧ expansionInterval s1 = expansionInterval s2 ∧ ruleset s1 = ruleset s2
  ∧ initialPattern s1 = initialPattern s2.

(** The arrays of a state are parallel and hold the [numRings] rings that
    [draw] will visit; [currentRing] is not negative. *)
Definition ready (s : state) : Prop :=
  length (rings s) = length (expansionMap s)
  ∧ numRings s ≤ Z.of_nat (length (rings s)) ∧ 0 ≤ currentRing s.

End Constant.

(** ** The variable-interval sketch *)

Module Scheduled.

Record state : Type := {
  initialCellCount : Z;
  numRings : Z;
  expansionIntervals : list value;
  ruleset : list value;
  initialPattern : list value;
  rings : list (list value);
  expansionMap : list (list bool);
  currentRing : Z
}.

(** [getDivisors] is only called on a count that is smaller than a finite
    interval; such a count is an integer or minus infinity, whose square
    root is NaN and stops the loop at once. *)
Definition divisors_of (n : number) : list Z :=
  match n with
  | Int z => getDivisors z
  | _ => []
  end.

(** One iteration of the loop of [initializeExpansionIntervals]; the loop
    state is [currentCellCount] and the intervals chosen so far
    ([expansionIntervals[r]] is the next free entry). *)
Definition plan_interval (st : number * list value) (r : Z) : number * list value :=
  let '(currentCellCount, expansionIntervals) := st in
  let interval := Num (Int (2 + r)) in
  let interval :=
    if gt (to_number interval) currentCellCount then
      let divisors := divisors_of currentCellCount in
      let validDivisors := filter (λ d, 1 < d) divisors in
      if decide (0 < length validDivisors)%nat
      then from_option (λ d, Num (Int d)) Undefined (last validDivisors)
      else Num currentCellCount
    else interval in
  let expansionCount := floor_div currentCellCount (to_number interval) in
  (add currentCellCount expansionCount, expansionIntervals ++ [interval]).

(** The loop state after the first [k] transitions. *)
Definition plan_upto (initialCellCount : Z) (k : Z) : number * list value :=
  foldl plan_interval (Int initialCellCount, []) (seqZ 0 k).

Definition initializeExpansionIntervals (initialCellCount numRings : Z) : list value :=
  (plan_upto initialCellCount (numRings - 1)).2.

(** [expansionIntervals[r - 1] || prevCount] *)
Definition interval_for (expansionIntervals : list value) (r : Z) (prevCount : number) : number :=
  to_number (or_else (get expansionIntervals (Int (r - 1))) (Num prevCount)).

Definition initializeSimulation (s : state) : result state :=
  let expansionIntervals :=
    if decide (length (expansionIntervals s) = 0%nat)
    then initializeExpansionIntervals (initialCellCount s) (numRings s)
    else expansionIntervals s in
  '(rings, expansionMap) ←
    precalculate (interval_for expansionIntervals)
      (initialPattern s) (initialCellCount s) (numRings s);
  mret {| initialCellCount := initialCellCount s; numRings := numRings s;
          expansionIntervals := expansionIntervals; ruleset := ruleset s;
          initialPattern := initialPattern s;
          rings := rings; expansionMap := expansionMap; currentRing := 0 |}.

(** [draw()] *)
Definition draw (s : state) : result state :=
  '(rings', currentRing') ←
    draw_frame (numRings s) (ruleset s) (expansionMap s) (rings s) (currentRing s);
  mret {| initialCellCount := initialCellCount s; numRings := numRings s;
          expansionIntervals := expansionIntervals s; ruleset := ruleset s;
          initialPattern := initialPattern s;
          rings := rings'; expansionMap := expansionMap s;
          currentRing := currentRing' |}.

(** The loop of [restartSimulation] over the dropdowns: [dropdown r] is
    the value of the control of transition [r], if the page has it. *)
Definition read_intervals (dropdown : Z → option string) (numRings : Z) : list value :=
  foldl (λ expansionIntervals r,
           match dropdown r with
           | Some chosen => set_index expansionIntervals (Z.to_nat r) (Num (parseInt chosen 0))
           | None => expansionIntervals
           end)
        [] (seqZ 0 (numRings - 1)).

(** [restartSimulation()]; the two counts are given parsed, as integers. *)
Definition restartSimulation (count rings_wanted : Z) (dropdown : Z → option string)
    (rulesetStr patternStr : string) (s : state) : result state :=
  let ruleset' := read_ruleset (ruleset s) rulesetStr in
  let pattern' := fit_pattern (read_pattern patternStr) count in
  initializeSimulation
    {| initialCellCount := count; numRings := rings_wanted;
       expansionIntervals := read_intervals dropdown rings_wanted; ruleset := ruleset';
       initialPattern := pattern';
       rings := rings s; expansionMap := expansionMap s; currentRing := currentRing s |}.

Fixpoint frames (k : nat) (s : state) : result state :=
  match k with
  | O => Ok s
  | S k' => s' ← draw s; frames k' s'
  end.

Definition run (s : state) : result state :=
  s0 ← initializeSimulation s; frames (Z.to_nat (numRings s0) + 1) s0.

Definition same_parameters (s1 s2 : state) : Prop :=
  initialCellCount s1 = initialCellCount s2 ∧ numRings s1 = numRings s2
  ∧ expansionIntervals s1 = expansionIntervals s2 ∧ ruleset s1 = ruleset s2
  ∧ initialPattern s1 = initialPattern s2.

Definition ready (s : state) : Prop :=
  length (rings s) = length (expansionMap s)
  ∧ numRings s ≤ Z.of_nat (length (rings s)) ∧ 0 ≤ currentRing s.

End Scheduled.

(** ** The interval controls of the variable-interval sketch

    [updateExpansionIntervalControls] writes one dropdown per transition.
    The HTML text is left out: a dropdown is modelled by the count of the
    ring it starts from and by its options, each with its value, whether it
    is marked as selected, and the count of the next ring that its label
    announces.  A function that may call [getDivisors] on plus infinity,
    where the loop over [i <= Math.sqrt(n)] does not end, returns an
    [option]: [None] stands for such a call. *)

Module Controls.

(** [getDivisors(n)] on any number.  The square root of NaN, of a negative
    number and of minus infinity is NaN, so that the loop does not run. *)
Definition divisors_of (n : number) : option (list Z) :=
  match n with
  | Int z => Some (getDivisors z)
  | PosInf => None
  | NaN | NegInf => Some []
  end.

(** [getDefaultExpansionInterval(cellCount)] on any number: without
    divisors the count itself is returned. *)
Definition default_interval (cellCount : number) : option value :=
  match cellCount with
  | Int z => Some (from_option (λ d, Num (Int d)) Undefined (getDefaultExpansionInterval z))
  | PosInf => None
  | NaN | NegInf => Some (Num cellCount)
  end.

(** [expansionIntervals[r] || getDefaultExpansionInterval(prevCount)]: the
    default is only computed for an entry that is falsy. *)
Definition current_value (expansionIntervals : list value) (r : Z) (prevCount : number)
    : option value :=
  let chosen := get expansionIntervals (Int r) in
  if truthy chosen then Some chosen else default_interval prevCount.

(** One iteration of the loop that fills [cellCounts]; [cellCounts[r]] has
    been pushed by the iteration before. *)
Definition count_step (expansionIntervals : list value) (cellCounts : option (list number))
    (r : Z) : option (list number) :=
  counts ← cellCounts;
  let prevCount := default NaN (counts !! Z.to_nat r) in
  interval ← current_value expansionIntervals r prevCount;
  let expansionCount := floor_div prevCount (to_number interval) in
  Some (counts ++ [add prevCount expansionCount]).

Definition cell_counts (initialCellCount numRings : Z) (expansionIntervals : list value)
    : option (list number) :=
  foldl (count_step expansionIntervals) (Some [Int initialCellCount])
    (seqZ 0 (numRings - 1)).

(** An option of a dropdown. *)
Record item : Type := {
  interval : Z;
  selected : bool;
  nextCount : number
}.

(** [d === currentValue] *)
Definition is_current (d : Z) (currentValue : value) : bool :=
  match currentValue with
  | Num n => strict_eq (Int d) n
  | Undefined => false
  end.

Definition item_for (prevCount : number) (currentValue : value) (d : Z) : item :=
  {| interval := d; selected := is_current d currentValue;
     nextCount := add prevCount (floor_div prevCount (Int d)) |}.

(** The options of one dropdown: the option 1, then the loop over the
    divisors, which takes [d] when [d > 1 || divisors.length === 1]. *)
Definition interval_options (divisors : list Z) (prevCount : number) (currentValue : value)
    : list item :=
  item_for prevCount currentValue 1
  :: (item_for prevCount currentValue
        <$> filter (λ d, 1 < d ∨ length divisors = 1%nat) divisors).

(** The dropdown of transition [r]. *)
Definition dropdown_for (expansionIntervals : list value) (cellCounts : list number)
    (r : Z) : option (number * list item) :=
  let prevCount := default NaN (cellCounts !! Z.to_nat r) in
  divisors ← divisors_of prevCount;
  currentValue ← current_value expansionIntervals r prevCount;
  Some (prevCount, interval_options divisors prevCount currentValue).

(** [updateExpansionIntervalControls()], for a page that has the
    container of the dropdowns. *)
Definition updateExpansionIntervalControls (initialCellCount numRings : Z)
    (expansionIntervals : list value) : option (list (number * list item)) :=
  cellCounts ← cell_counts initialCellCount numRings expansionIntervals;
  mapM (dropdown_for expansionIntervals cellCounts) (seqZ 0 (numRings - 1)).

(** [onInitialParametersChange()], the two controls given parsed: the
    schedule is planned again, and the dropdowns are written for it. *)
Definition onInitialParametersChange (count rings_wanted : Z)
    : list value * option (list (number * list item)) :=
  let expansionIntervals := Scheduled.initializeExpansionIntervals count rings_wanted in
  (expansionIntervals,
   updateExpansionIntervalControls count rings_wanted expansionIntervals).

(** [divisors.includes(currentValue)] *)
Definition includes (divisors : list Z) (currentValue : number) : bool :=
  match currentValue with
  | Int z => bool_decide (z ∈ divisors)
  | _ => false
  end.

(** The value that [onExpansionIntervalChange] gives to a later dropdown:
    its own when that is 1 or a divisor of the count, the default
    otherwise. *)
Definition new_value (divisors : list Z) (prevCount currentValue : number)
    : option value :=
  if negb (strict_eq currentValue (Int 1)) && negb (includes divisors currentValue)
  then default_interval prevCount
  else Some (Num currentValue).

(** One iteration of the loop of [onExpansionIntervalChange] over the
    later transitions; [dropdown r] is the value of the dropdown of
    transition [r] when the function is called, if the page has it. *)
Definition revalidate (dropdown : Z → option string) (cellCounts : list number)
    (expansionIntervals : option (list value)) (r : Z) : option (list value) :=
  intervals ← expansionIntervals;
  let prevCount := default NaN (cellCounts !! Z.to_nat r) in
  divisors ← divisors_of prevCount;
  match dropdown r with
  | Some chosen =>
      newValue ← new_value divisors prevCount (parseInt chosen 0);
      Some (set_index intervals (Z.to_nat r) newValue)
  | None => Some intervals
  end.

(** [onExpansionIntervalChange(ringIndex)], for an index that is not
    negative: the schedule that it leaves. *)
Definition onExpansionIntervalChange (dropdown : Z → option string)
    (initialCellCount numRings : Z) (expansionIntervals : list value) (ringIndex : Z)
    : option (list value) :=
  match dropdown ringIndex with
  | Some chosen =>
      let expansionIntervals :=
        set_index expansionIntervals (Z.to_nat ringIndex) (Num (parseInt chosen 0)) in
      cellCounts ← cell_counts initialCellCount numRings expansionIntervals;
      foldl (revalidate dropdown cellCounts) (Some expansionIntervals)
        (seqZ (ringIndex + 1) (numRings - 1 - (ringIndex + 1)))
  | None => Some expansionIntervals
  end.

End Controls.

(** ** Vocabulary of the statements *)

(** The test of the marking loop at position [i]. *)
Definition is_expansion (expansionInterval : number) (i : nat) : bool :=
  strict_eq (rem (Int (Z.of_nat i)) (add expansionInterval (Int 1))) expansionInterval.

(** The number of expansion cells of a mask. *)
Definition count_true (mask : list bool) : nat := length (filter (λ b, b = true) mask).

(** The number of rule-driven cells of a mask. *)
Definition count_false (mask : list bool) : nat := length (filter (λ b, b = false) mask).

(** The positions before [k] that [generateNextRing] treats as rule-driven
    cells (a position outside the mask reads [undefined], which is falsy). *)
Definition rule_cells (mask : list bool) (k : nat) : nat :=
  length (filter (λ i, default false (mask !! i) = false) (seq 0 k)).

(** A mask is well formed for a transition when it is parallel to the new
    ring and leaves one rule-driven cell per cell of the previous ring. *)
Definition well_formed_mask (currentCells nextCells : list value) (mask : list bool) : Prop :=
  length mask = length nextCells ∧ count_false mask = length currentCells.

(** What one iteration of the loop of [getDivisors] pushes. *)
Definition pushed (n i : Z) : list Z :=
  if Z.rem n i =? 0 then
    if negb (i =? n / i) then [i; n / i] else [i]
  else [].

Global Instance Z_divide_dec : RelDecision Z.divide.
Proof.
  intros a b.
  destruct ((b =? 0) || negb (a =? 0) && (b `mod` a =? 0)) eqn:E; [left | right];
    destruct (Z.BoolSpec_divide a b); congruence.
Defined.

(** The divisors of [n], in ascending order. *)
Definition divisors_spec (n : Z) : list Z := filter (λ d, (d | n)) (seqZ 1 n).

(** [d] is the largest divisor of [n] that is greater than 1. *)
Definition largest_divisor_above_1 (n d : Z) : Prop :=
  1 < d ∧ (d | n) ∧ ∀ d', 1 < d' → (d' | n) → d' ≤ d.

(** The default interval in the words of the specification: [n] when no
    divisor exceeds 1, otherwise the divisors greater than 1 are sorted in
    ascending order and the one at position [floor(0.6 * count)], clamped
    to the list, is picked. *)
Definition default_interval_spec (n : Z) : option Z :=
  let candidates := merge_sort Z.le (filter (λ d, 1 < d) (divisors_spec n)) in
  if decide (candidates = []) then Some n
  else
    let count := Z.of_nat (length candidates) in
    candidates !! Z.to_nat (Z.max 0 (Z.min (count - 1) (count * 6 / 10))).

(** Twice the median of an ascending list: the sum of the two middle
    entries, which coincide when the length is odd. *)
Definition twice_median (l : list Z) : option Z :=
  lo ← l !! ((length l - 1) / 2)%nat; hi ← l !! (length l / 2)%nat; Some (lo + hi).

(** The rings and masks are those of a topology built with
    [interval_for]: the two arrays are parallel, and every ring after the
    first comes, with its mask, from [buildRing] on the count of the ring
    before it. *)
Definition topology (interval_for : Z → number → number)
    (rings : list (list value)) (expansionMap : list (list bool)) : Prop :=
  length rings = length expansionMap
  ∧ ∀ (r : nat) prev, rings !! r = Some prev → (S r < length rings)%nat →
      ∃ cells mask,
        rings !! S r = Some cells ∧ expansionMap !! S r = Some mask
        ∧ buildRing (len prev) (interval_for (Z.of_nat (S r)) (len prev)) = Ok (cells, mask).

(** A schedule as the specification wants it: integers, each at least 1. *)
Definition valid_schedule (expansionIntervals : list value) : Prop :=
  Forall (λ v, ∃ z, v = Num (Int z) ∧ 1 ≤ z) expansionIntervals.

(** The schedule that [initializeSimulation] uses. *)
Definition schedule_in_use (s : Scheduled.state) : list value :=
  if decide (length (Scheduled.expansionIntervals s) = 0%nat)
  then Scheduled.initializeExpansionIntervals
         (Scheduled.initialCellCount s) (Scheduled.numRings s)
  else Scheduled.expansionIntervals s.

(** The pattern in the words of the specification: token after token,
    the tokens whose value is 0 or 1 are kept, in their order, and the others
    are dropped; the value of a token is what [parseInt] reads in the trimmed
    token. *)
Definition kept_bits (tokens : list string) : list value :=
  tokens ≫= λ token,
    match parseInt (trim token) 0 with
    | Int 0 => [bit 0]
    | Int 1 => [bit 1]
    | _ => []
    end.

(** ** Vocabulary of the further properties *)

(** The count of cells of ring [r] as the loop of [initializeSimulation]
    computes it: [prevCount + floor(prevCount / expansionInterval)] from
    ring to ring, whether or not an array of that length can be made. *)
Fixpoint ring_count (interval_for : Z → number → number) (initialCellCount : Z)
    (r : nat) : number :=
  match r with
  | O => Int initialCellCount
  | S r' =>
      let prevCount := ring_count interval_for initialCellCount r' in
      add prevCount (floor_div prevCount (interval_for (Z.of_nat r) prevCount))
  end.

(** The rings have the counts of the recurrence. *)
Definition counted (interval_for : Z → number → number) (initialCellCount : Z)
    (rings : list (list value)) : Prop :=
  ∀ (r : nat) ring, rings !! r = Some ring → len ring = ring_count interval_for initialCellCount r.

(** Every ring of a topology of [numRings] rings (of one ring when
    [numRings] is smaller) has a count that [new Array] accepts. *)
Definition fits (interval_for : Z → number → number) (initialCellCount numRings : Z)
    : bool :=
  forallb (λ r, allocatable (ring_count interval_for initialCellCount r))
    (seq 0 (S (Z.to_nat (numRings - 1)))).

(** A cell holds a bit. *)
Definition is_bit_value (v : value) : Prop := v = bit 0 ∨ v = bit 1.

(** The cell of the previous ring that position [i] of the next ring is
    aligned with, when an expansion cell closes every block of
    [interval + 1] positions: [i] less the expansion cells before it. *)
Definition parent (interval i : Z) : Z := i - i / (interval + 1).

(** The cell that [generateNextRing] computes from the neighbourhood of
    cell [c] of a ring. *)
Definition rule_at (ruleset currentCells : list value) (c : Z) : value :=
  let n := Z.of_nat (length currentCells) in
  rules ruleset (get currentCells (Int ((c - 1 + n) `mod` n)))
                (get currentCells (Int c))
                (get currentCells (Int ((c + 1) `mod` n))).

(** The number that a ruleset spells in base 2, first entry first: 90 for
    the ruleset 0,1,0,1,1,0,1,0. *)
Definition rule_number (ruleset : list value) : Z :=
  foldl (λ n v, 2 * n + match v with Num (Int b) => b | _ => 0 end) 0 ruleset.

(** A schedule on which the variable-interval sketch cannot fail: every
    entry is missing, NaN or an integer that is not negative. *)
Definition safe_schedule (expansionIntervals : list value) : Prop :=
  Forall (λ v, v = Undefined ∨ v = Num NaN ∨ ∃ z, v = Num (Int z) ∧ 0 ≤ z)
         expansionIntervals.

(** A run in progress, against the rings [rings0] that the pre-calculation
    left (holes past ring 0): the rings have kept their lengths, the rings
    up to [currentRing] come one from the other by [generateNextRing], and
    the rings past [currentRing], or past the last ring of the run, are as
    they were. *)
Definition generated_upto (numRings : Z) (ruleset : list value)
    (expansionMap : list (list bool)) (rings0 rings : list (list value))
    (currentRing : Z) : Prop :=
  length <$> rings = length <$> rings0
  ∧ rings !! 0%nat = rings0 !! 0%nat
  ∧ (∀ r : nat, currentRing < Z.of_nat r ∨ numRings ≤ Z.of_nat r →
       rings !! r = rings0 !! r)
  ∧ ∀ (r : nat) prev,
      Z.of_nat (S r) ≤ currentRing → Z.of_nat (S r) < numRings →
      rings !! r = Some prev →
      ∃ mask hole,
        expansionMap !! S r = Some mask ∧ rings0 !! S r = Some hole
        ∧ rings !! S r = Some (fill_next_ring ruleset prev mask hole).

(** * Properties *)

(** ** The embedding on concrete inputs *)

Example getDivisors_examples :
  getDivisors 16 = [1; 2; 4; 8; 16] ∧ getDivisors 12 = [1; 2; 3; 4; 6; 12]
  ∧ getDivisors 1 = [1] ∧ getDivisors 0 = [] ∧ getDivisors 7 = [1; 7].
Proof. vm_compute. repeat split. Qed.

Example getDefaultExpansionInterval_examples :
  getDefaultExpansionInterval 16 = Some 8 ∧ getDefaultExpansionInterval 12 = Some 6
  ∧ getDefaultExpansionInterval 1 = Some 1 ∧ getDefaultExpansionInterval 7 = Some 7.
Proof. vm_compute. repeat split. Qed.

Example parseInt_examples :
  parseInt " 01" 0 = Int 1 ∧ parseInt "1abc" 0 = Int 1 ∧ parseInt "x" 0 = NaN
  ∧ parseInt "-7" 0 = Int (-7) ∧ parseInt "0x1f" 0 = Int 31 ∧ parseInt "101" 2 = Int 5
  ∧ parseInt EmptyString 0 = NaN ∧ parseInt "12" 2 = Int 1.
Proof. vm_compute. repeat split. Qed.

Example to_string_examples :
  to_string (bit 0) = "0" ∧ to_string (bit 1) = "1" ∧ to_string (Num (Int (-12))) = "-12".
Proof. vm_compute. repeat split. Qed.

Example split_examples :
  split "," "1,0, 1" = ["1"; "0"; " 1"] ∧ split "," EmptyString = [EmptyString]
  ∧ chars "010" = ["0"; "1"; "0"].
Proof. vm_compute. repeat split. Qed.

(** ** The rule engine *)

Lemma rule_index (l c r : bool) :
  parseInt (EmptyString +:+ to_string (bit (Z.b2z l)) +:+ to_string (bit (Z.b2z c))
               +:+ to_string (bit (Z.b2z r))) 2
  = Int (Z.b2z l * 4 + Z.b2z c * 2 + Z.b2z r).
Proof. destruct l, c, r; vm_compute; reflexivity. Qed.

Lemma is_bit_b2z (b : Z) : b = 0 ∨ b = 1 → ∃ x : bool, b = Z.b2z x.
Proof. intros [-> | ->]; [by exists false | by exists true]. Qed.

(** C3.  On bits [left], [center], [right] and a ruleset of 8 entries,
    [rules] returns the entry of the ruleset at the complemented index
    [7 - idx], where [idx = left*4 + center*2 + right]; that entry
    exists. *)
Theorem rules_complement_index (ruleset : list value) (left center right : Z) :
  length ruleset = 8%nat →
  left = 0 ∨ left = 1 → center = 0 ∨ center = 1 → right = 0 ∨ right = 1 →
  let idx := left * 4 + center * 2 + right in
  0 ≤ idx ≤ 7
  ∧ ruleset !! Z.to_nat (7 - idx) = Some (rules ruleset (bit left) (bit center) (bit right))
  ∧ rules ruleset (bit left) (bit center) (bit right) = get ruleset (Int (7 - idx)).
Proof.
  intros Hlen [l ->]%is_bit_b2z [c ->]%is_bit_b2z [r ->]%is_bit_b2z idx.
  assert (Hidx : 0 ≤ idx ≤ 7) by (subst idx; destruct l, c, r; simpl; lia).
  assert (Hrule : rules ruleset (bit (Z.b2z l)) (bit (Z.b2z c)) (bit (Z.b2z r))
                  = get ruleset (Int (7 - idx))).
  { unfold rules. rewrite rule_index. reflexivity. }
  split; [exact Hidx|]. split; [|exact Hrule].
  rewrite Hrule. unfold get.
  destruct (0 <=? 7 - idx) eqn:Hpos; [|lia].
  destruct (lookup_lt_is_Some_2 ruleset (Z.to_nat (7 - idx))) as [v Hv]; [lia|].
  by rewrite Hv.
Qed.

Lemma rules_complement_index_witness :
  let ruleset := [bit 0; bit 1; bit 1; bit 0; bit 1; bit 1; bit 1; bit 0] in
  length ruleset = 8%nat ∧ (0 = 0 ∨ 0 = 1) ∧ (1 = 0 ∨ 1 = 1) ∧ (1 = 0 ∨ 1 = 1)
  ∧ 0 ≤ 0 * 4 + 1 * 2 + 1 ≤ 7
  ∧ ruleset !! Z.to_nat (7 - (0 * 4 + 1 * 2 + 1)) = Some (rules ruleset (bit 0) (bit 1) (bit 1))
  ∧ rules ruleset (bit 0) (bit 1) (bit 1) = get ruleset (Int (7 - (0 * 4 + 1 * 2 + 1))).
Proof.
  intros ruleset.
  split; [reflexivity|]. split; [left; reflexivity|]. split; [right; reflexivity|].
  split; [right; reflexivity|].
  apply (rules_complement_index ruleset 0 1 1);
    [reflexivity | left; reflexivity | right; reflexivity | right; reflexivity].
Defined.

(** The direct index would give another bit: with Rule 110 and the
    neighbourhood 011, entry 4 is returned, not entry 3. *)
Example rules_not_direct_index :
  let ruleset := [bit 0; bit 1; bit 1; bit 0; bit 1; bit 1; bit 1; bit 0] in
  rules ruleset (bit 0) (bit 1) (bit 1) = bit 1 ∧ get ruleset (Int 3) = bit 0.
Proof. vm_compute. split; reflexivity. Qed.

(** ** Ring topology *)

Section mark_expansions.
Variable expansionInterval : number.

Let mark (mask : list bool) (i : nat) : list bool :=
  if is_expansion expansionInterval i then <[i := true]> mask else mask.

Lemma mark_upto_length (mask : list bool) (k : nat) :
  length (foldl mark mask (seq 0 k)) = length mask.
Proof.
  induction k as [|k IH]; [done|].
  rewrite seq_S, foldl_app. simpl. unfold mark at 1.
  destruct (is_expansion expansionInterval k); [rewrite length_insert|]; exact IH.
Qed.

Lemma mark_upto_lookup (mask : list bool) (k j : nat) :
  foldl mark mask (seq 0 k) !! j
  = if decide (j < k)%nat
    then (λ b, is_expansion expansionInterval j || b) <$> mask !! j
    else mask !! j.
Proof.
  induction k as [|k IH]; [done|].
  rewrite seq_S, foldl_app. simpl. unfold mark at 1.
  destruct (decide (j = k)) as [->|Hne].
  - rewrite decide_False in IH by lia. rewrite decide_True by lia.
    destruct (is_expansion expansionInterval k) eqn:Hk.
    + destruct (decide (k < length mask)%nat) as [Hlt|Hge].
      * rewrite list_lookup_insert_eq by (rewrite mark_upto_length; lia).
        destruct (lookup_lt_is_Some_2 mask k Hlt) as [b ->]. reflexivity.
      * rewrite list_insert_ge by (rewrite mark_upto_length; lia).
        rewrite IH. rewrite (lookup_ge_None_2 mask k) by lia. done.
    + rewrite IH. by destruct (mask !! k).
  - assert (foldl mark mask (seq 0 k) !! j
            = (if is_expansion expansionInterval k
               then <[k:=true]> (foldl mark mask (seq 0 k))
               else foldl mark mask (seq 0 k)) !! j) as <-.
    { destruct (is_expansion expansionInterval k); [|done].
      by rewrite list_lookup_insert_ne. }
    rewrite IH. repeat case_decide; try lia; done.
Qed.

Lemma mark_expansions_fresh (n : nat) :
  mark_expansions expansionInterval (replicate n false)
  = is_expansion expansionInterval <$> seq 0 n.
Proof.
  apply list_eq. intros j. unfold mark_expansions.
  change (foldl mark (replicate n false) (seq 0 (length (replicate n false))) !! j
          = (is_expansion expansionInterval <$> seq 0 n) !! j).
  rewrite mark_upto_lookup, length_replicate, list_lookup_fmap.
  destruct (decide (j < n)%nat) as [Hlt|Hge].
  - rewrite lookup_replicate_2 by done. rewrite lookup_seq_lt by done. simpl.
    by rewrite orb_false_r.
  - rewrite (proj1 (lookup_replicate_None n false j)) by lia.
    by rewrite lookup_seq_ge by lia.
Qed.
End mark_expansions.

Lemma is_expansion_mod (interval : Z) (i : nat) :
  1 ≤ interval →
  is_expansion (Int interval) i = (Z.of_nat i `mod` (interval + 1) =? interval).
Proof.
  intros Hk. unfold is_expansion. simpl.
  destruct (interval + 1 =? 0) eqn:E; [lia|]. simpl.
  rewrite Z.rem_mod_nonneg by lia. done.
Qed.

Lemma div_succ_block (n m : Z) :
  0 ≤ n → 1 ≤ m →
  (n + 1) / m = n / m + (if n `mod` m =? m - 1 then 1 else 0).
Proof.
  intros Hn Hm.
  pose proof (Z.div_mod n m ltac:(lia)) as Hdm.
  pose proof (Z.mod_pos_bound n m ltac:(lia)) as Hb.
  destruct (n `mod` m =? m - 1) eqn:E.
  - symmetry. apply (Z.div_unique_pos _ _ _ 0); lia.
  - symmetry. apply (Z.div_unique_pos _ _ _ (n `mod` m + 1)); lia.
Qed.

Lemma count_true_blocks (interval : Z) (n : nat) :
  1 ≤ interval →
  Z.of_nat (count_true (is_expansion (Int interval) <$> seq 0 n))
  = Z.of_nat n / (interval + 1).
Proof.
  intros Hk. unfold count_true. induction n as [|n IH].
  - simpl. by rewrite Z.div_0_l by lia.
  - rewrite seq_S, fmap_app, filter_app, length_app. simpl.
    rewrite Nat2Z.inj_add, IH, Nat2Z.inj_succ, <- Z.add_1_r.
    rewrite div_succ_block by lia. f_equal.
    rewrite is_expansion_mod by done.
    replace (interval + 1 - 1) with interval by lia.
    destruct (Z.of_nat n `mod` (interval + 1) =? interval).
    + by rewrite filter_cons_True.
    + by rewrite filter_cons_False.
Qed.

Lemma grown_count_blocks (prevCount interval : Z) :
  0 ≤ prevCount → 1 ≤ interval →
  (prevCount + prevCount / interval) / (interval + 1) = prevCount / interval.
Proof.
  intros Hp Hk.
  pose proof (Z.div_mod prevCount interval ltac:(lia)) as Hdm.
  pose proof (Z.mod_pos_bound prevCount interval ltac:(lia)) as Hb.
  pose proof (Z.div_pos prevCount interval ltac:(lia) ltac:(lia)) as Hq.
  symmetry. apply (Z.div_unique_pos _ _ _ (prevCount `mod` interval)); lia.
Qed.

Lemma allocatable_Int (z : Z) :
  allocatable (Int z) = true ↔ 0 ≤ z ≤ max_array_length.
Proof. unfold allocatable. rewrite andb_true_iff, !Z.leb_le. done. Qed.

Lemma allocatable_inv (n : number) :
  allocatable n = true → ∃ z, n = Int z ∧ 0 ≤ z ≤ max_array_length.
Proof.
  destruct n as [z| | |]; try done. intros Hz%allocatable_Int. by exists z.
Qed.

(** What [buildRing] returns: the holes and the mask of the new count when
    [new Array] accepts that count, a RangeError otherwise. *)
Lemma buildRing_cases (prevCount expansionInterval : number) :
  buildRing prevCount expansionInterval
  = match add prevCount (floor_div prevCount expansionInterval) with
    | Int z =>
        if allocatable (Int z)
        then Ok (replicate (Z.to_nat z) Undefined,
                 is_expansion expansionInterval <$> seq 0 (Z.to_nat z))
        else Throw RangeError
    | _ => Throw RangeError
    end.
Proof.
  unfold buildRing, new_Array, new_Array_fill. cbv zeta.
  destruct (add _ _) as [z| | |]; try done.
  destruct (allocatable (Int z)); [|done]. simpl.
  by rewrite mark_expansions_fresh.
Qed.

Lemma buildRing_count (prevCount interval : Z) :
  interval ≠ 0 →
  add (Int prevCount) (floor_div (Int prevCount) (Int interval))
  = Int (prevCount + prevCount / interval).
Proof. intros Hk. simpl. by destruct (Z.eqb_spec interval 0). Qed.

(** What [buildRing] returns on integers with a non-zero interval, for a
    new count within the limit of arrays. *)
Lemma buildRing_Int (prevCount interval : Z) :
  0 ≤ prevCount → interval ≠ 0 →
  0 ≤ prevCount + prevCount / interval ≤ max_array_length →
  let newCount := Z.to_nat (prevCount + prevCount / interval) in
  buildRing (Int prevCount) (Int interval)
  = Ok (replicate newCount Undefined, is_expansion (Int interval) <$> seq 0 newCount).
Proof.
  intros Hp Hk Hn newCount. rewrite buildRing_cases, buildRing_count by done.
  by rewrite (proj2 (allocatable_Int _) Hn).
Qed.

(** Beyond that limit the allocation throws. *)
Lemma buildRing_Int_Throw (prevCount interval : Z) :
  interval ≠ 0 → max_array_length < prevCount + prevCount / interval →
  buildRing (Int prevCount) (Int interval) = Throw RangeError.
Proof.
  intros Hk Hn. rewrite buildRing_cases, buildRing_count by done.
  destruct (allocatable _) eqn:E; [|done]. apply allocatable_Int in E. lia.
Qed.

(** A ring that has been built has a count within the limit. *)
Lemma buildRing_Int_Ok (prevCount interval : Z) (cells : list value) (mask : list bool) :
  buildRing (Int prevCount) (Int interval) = Ok (cells, mask) →
  interval ≠ 0 →
  0 ≤ prevCount + prevCount / interval ≤ max_array_length
  ∧ Ok (replicate (Z.to_nat (prevCount + prevCount / interval)) Undefined,
        is_expansion (Int interval) <$> seq 0 (Z.to_nat (prevCount + prevCount / interval)))
    = Ok (A := list value * list bool) (cells, mask).
Proof.
  intros Hbuild Hk. rewrite buildRing_cases, buildRing_count in Hbuild by done.
  destruct (allocatable _) eqn:E; [|done]. apply allocatable_Int in E. done.
Qed.

Ltac buildRing_Ok H :=
  apply buildRing_Int_Ok in H; [destruct H as [? H] | lia].

(** C1.  For [prevCount ≥ 1] and [interval ≥ 1] the new count is
    [newCount = prevCount + floor(prevCount / interval)].  When an array of
    that length can be made ([newCount ≤ 2^32 - 1]) the construction of the
    next ring succeeds with [newCount] cells and a mask of the same length,
    position [i] of the mask is an expansion cell iff
    [i mod (interval + 1) = interval], and the mask has exactly
    [floor(prevCount / interval)] true entries; beyond that length
    [new Array] throws a RangeError. *)
Theorem buildRing_topology (prevCount interval : Z) :
  1 ≤ prevCount → 1 ≤ interval →
  let newCount := prevCount + prevCount / interval in
  (newCount ≤ max_array_length →
   ∃ cells mask,
     buildRing (Int prevCount) (Int interval) = Ok (cells, mask)
     ∧ Z.of_nat (length cells) = newCount
     ∧ Z.of_nat (length mask) = newCount
     ∧ (∀ i, 0 ≤ i < newCount →
          ∃ b, mask !! Z.to_nat i = Some b
               ∧ (b = true ↔ i `mod` (interval + 1) = interval))
     ∧ Z.of_nat (count_true mask) = prevCount / interval)
  ∧ (max_array_length < newCount →
     buildRing (Int prevCount) (Int interval) = Throw RangeError).
Proof.
  intros Hp Hk newCount. subst newCount.
  pose proof (Z.div_pos prevCount interval ltac:(lia) ltac:(lia)) as Hq.
  split; [|intros Hbig; apply buildRing_Int_Throw; lia].
  intros Hfit.
  eexists _, _. split; [apply buildRing_Int; lia|].
  split; [rewrite length_replicate; lia|].
  split; [rewrite length_fmap, length_seq; lia|].
  split.
  - intros i Hi. exists (is_expansion (Int interval) (Z.to_nat i)). split.
    + rewrite list_lookup_fmap, lookup_seq_lt by lia. done.
    + rewrite is_expansion_mod, Z2Nat.id by lia.
      destruct (Z.eqb_spec (i `mod` (interval + 1)) interval); split; done.
  - rewrite count_true_blocks, Z2Nat.id by lia. by apply grown_count_blocks; lia.
Qed.

Lemma buildRing_topology_witness :
  1 ≤ 8 ∧ 1 ≤ 4 ∧ 8 + 8 / 4 ≤ max_array_length
  ∧ ∃ cells mask,
      let newCount := 8 + 8 / 4 in
      buildRing (Int 8) (Int 4) = Ok (cells, mask)
      ∧ Z.of_nat (length cells) = newCount
      ∧ Z.of_nat (length mask) = newCount
      ∧ (∀ i, 0 ≤ i < newCount →
           ∃ b, mask !! Z.to_nat i = Some b ∧ (b = true ↔ i `mod` (4 + 1) = 4))
      ∧ Z.of_nat (count_true mask) = 8 / 4.
Proof.
  assert (Hfit : 8 + 8 / 4 ≤ max_array_length) by (vm_compute; discriminate).
  split; [lia|]. split; [lia|]. split; [exact Hfit|].
  exact (proj1 (buildRing_topology 8 4 ltac:(lia) ltac:(lia)) Hfit).
Defined.

(** A ring of 2^32 - 1 cells cannot be doubled. *)
Example buildRing_beyond_limit :
  buildRing (Int 4294967295) (Int 1) = Throw RangeError
  ∧ buildRing (Int 2147483648) (Int 1) = Throw RangeError.
Proof. split; apply buildRing_Int_Throw; (lia || (vm_compute; reflexivity)). Qed.

Example buildRing_8_4 :
  buildRing (Int 8) (Int 4)
  = Ok (replicate 10 Undefined,
        [false; false; false; false; true; false; false; false; false; true]).
Proof. vm_compute. reflexivity. Qed.

(** ** The cell-state generator *)

Section generateNextRing_facts.
Variables (ruleset currentCells : list value) (nextExpansions : list bool).

Local Abbreviation upto := (next_cells_upto ruleset currentCells nextExpansions).
Local Abbreviation step := (next_cell ruleset currentCells nextExpansions).

Lemma next_cells_upto_S (nextCells : list value) (k : nat) :
  upto nextCells (S k) = step (upto nextCells k) k.
Proof. unfold next_cells_upto. by rewrite seq_S, foldl_app. Qed.

(** The cursor moves exactly on the rule-driven cells. *)
Lemma next_cell_cursor (st : Z * list value) (i : nat) :
  (step st i).1 = if default false (nextExpansions !! i) then st.1 else st.1 + 1.
Proof.
  destruct st as [p cells]. unfold next_cell.
  destruct (default false (nextExpansions !! i)); [|done].
  by destruct (0 <? p).
Qed.

Lemma next_cell_length (st : Z * list value) (i : nat) :
  length (step st i).2 = length st.2.
Proof.
  destruct st as [p cells]. unfold next_cell.
  destruct (default false (nextExpansions !! i)); [destruct (0 <? p)|];
    simpl; by rewrite length_insert.
Qed.

Lemma next_cell_other (st : Z * list value) (i j : nat) :
  i ≠ j → (step st i).2 !! j = st.2 !! j.
Proof.
  intros Hne. destruct st as [p cells]. unfold next_cell.
  destruct (default false (nextExpansions !! i)); [destruct (0 <? p)|];
    simpl; by rewrite list_lookup_insert_ne.
Qed.

Lemma cursor_rule_cells (nextCells : list value) (k : nat) :
  (upto nextCells k).1 = Z.of_nat (rule_cells nextExpansions k).
Proof.
  induction k as [|k IH]; [done|].
  rewrite next_cells_upto_S, next_cell_cursor, IH.
  unfold rule_cells. rewrite seq_S, filter_app, length_app. simpl.
  destruct (default false (nextExpansions !! k)) eqn:E.
  - rewrite filter_cons_False by (rewrite E; done). simpl. lia.
  - rewrite filter_cons_True by done. simpl. lia.
Qed.

Lemma next_cells_upto_length (nextCells : list value) (k : nat) :
  length (upto nextCells k).2 = length nextCells.
Proof.
  induction k as [|k IH]; [done|].
  by rewrite next_cells_upto_S, next_cell_length.
Qed.

(** Once written, a position is not written again. *)
Lemma next_cells_upto_written (nextCells : list value) (k j : nat) :
  (j < k)%nat →
  (upto nextCells k).2 !! j = (step (upto nextCells j) j).2 !! j.
Proof.
  induction k as [|k IH]; [lia|]. intros Hj.
  rewrite next_cells_upto_S.
  destruct (decide (j = k)) as [->|Hne]; [done|].
  rewrite next_cell_other by done. apply IH. lia.
Qed.

Lemma fill_next_ring_lookup (nextCells : list value) (i : nat) :
  (i < length nextCells)%nat →
  fill_next_ring ruleset currentCells nextExpansions nextCells !! i
  = (step (upto nextCells i) i).2 !! i.
Proof. intros Hi. unfold fill_next_ring. by apply next_cells_upto_written. Qed.

Lemma fill_next_ring_length (nextCells : list value) :
  length (fill_next_ring ruleset currentCells nextExpansions nextCells) = length nextCells.
Proof. apply next_cells_upto_length. Qed.

(** What is written at an expansion cell. *)
Lemma next_cell_expansion (st : Z * list value) (i : nat) :
  nextExpansions !! i = Some true → (i < length st.2)%nat →
  (step st i).2 !! i
  = Some (if 0 <? st.1 then get currentCells (Int (st.1 - 1))
          else get currentCells (sub (len currentCells) (Int 1))).
Proof.
  intros Hm Hi. destruct st as [p cells]. unfold next_cell. rewrite Hm. simpl.
  destruct (0 <? p); simpl; by rewrite list_lookup_insert_eq.
Qed.

(** What is written at a rule-driven cell. *)
Lemma next_cell_rule (st : Z * list value) (i : nat) :
  nextExpansions !! i = Some false → (i < length st.2)%nat →
  (step st i).2 !! i
  = Some (rules ruleset
            (get currentCells (rem (add (Int (st.1 - 1)) (len currentCells)) (len currentCells)))
            (get currentCells (Int st.1))
            (get currentCells (rem (Int (st.1 + 1)) (len currentCells)))).
Proof.
  intros Hm Hi. destruct st as [p cells]. unfold next_cell. rewrite Hm. simpl.
  by rewrite list_lookup_insert_eq.
Qed.
End generateNextRing_facts.

Lemma rule_cells_S (mask : list bool) (k : nat) :
  rule_cells mask (S k)
  = (rule_cells mask k + if default false (mask !! k) then 0 else 1)%nat.
Proof.
  unfold rule_cells. rewrite seq_S, filter_app, length_app. simpl.
  destruct (default false (mask !! k)) eqn:E.
  - rewrite filter_cons_False by (rewrite E; done). done.
  - rewrite filter_cons_True by done. done.
Qed.

Lemma rule_cells_app_l (mask1 mask2 : list bool) (k : nat) :
  (k ≤ length mask1)%nat → rule_cells (mask1 ++ mask2) k = rule_cells mask1 k.
Proof.
  induction k as [|k IH]; [done|]. intros Hk.
  rewrite !rule_cells_S, IH by lia. by rewrite lookup_app_l by lia.
Qed.

Lemma rule_cells_mono (mask : list bool) (j k : nat) :
  (j ≤ k)%nat → (rule_cells mask j ≤ rule_cells mask k)%nat.
Proof.
  induction 1 as [|k Hle IH]; [done|]. rewrite rule_cells_S. lia.
Qed.

Lemma rule_cells_all (mask : list bool) :
  rule_cells mask (length mask) = count_false mask.
Proof.
  induction mask as [|b mask IH] using rev_ind; [done|].
  rewrite length_app. simpl. rewrite Nat.add_1_r, rule_cells_S.
  rewrite rule_cells_app_l by done. rewrite IH.
  rewrite lookup_app_r, Nat.sub_diag by done. simpl.
  unfold count_false. rewrite filter_app, length_app.
  destruct b.
  - rewrite filter_cons_False by done. done.
  - rewrite filter_cons_True by done. done.
Qed.

Lemma get_Some (arr : list value) (z : Z) (v : value) :
  0 ≤ z → arr !! Z.to_nat z = Some v → get arr (Int z) = v.
Proof.
  intros Hz Hv. unfold get. destruct (0 <=? z) eqn:E; [|lia]. by rewrite Hv.
Qed.

Lemma get_last (arr : list value) (v : value) :
  last arr = Some v → get arr (sub (len arr) (Int 1)) = v.
Proof.
  intros Hv. rewrite last_lookup in Hv.
  assert (length arr ≠ 0%nat) by (destruct arr; [done | simpl; lia]).
  unfold len, sub. apply get_Some; [lia|].
  by replace (Z.to_nat (Z.of_nat (length arr) - 1)) with (pred (length arr)) by lia.
Qed.

(** The value of an expansion cell, for a cursor that has not run past the
    previous ring. *)
Lemma expansion_cell_value (ruleset currentCells nextCells : list value)
    (nextExpansions : list bool) (i : nat) :
  currentCells ≠ [] →
  (i < length nextCells)%nat →
  nextExpansions !! i = Some true →
  (rule_cells nextExpansions i ≤ length currentCells)%nat →
  ∃ v, fill_next_ring ruleset currentCells nextExpansions nextCells !! i = Some v
       ∧ (if decide (0 < rule_cells nextExpansions i)%nat
          then currentCells !! pred (rule_cells nextExpansions i) = Some v
          else last currentCells = Some v).
Proof.
  intros Hne Hi Hm Hle.
  rewrite fill_next_ring_lookup by done.
  rewrite next_cell_expansion by (rewrite ?next_cells_upto_length; done).
  rewrite cursor_rule_cells.
  set (p := rule_cells nextExpansions i) in *.
  destruct (decide (0 < p)%nat) as [Hp|Hp].
  - destruct (lookup_lt_is_Some_2 currentCells (pred p)) as [v Hv]; [lia|].
    exists v. split; [|done].
    destruct (0 <? Z.of_nat p) eqn:E; [|lia]. f_equal.
    apply get_Some; [lia|]. by replace (Z.to_nat (Z.of_nat p - 1)) with (pred p) by lia.
  - destruct (last currentCells) as [v|] eqn:Hv.
    + exists v. split; [|done].
      destruct (0 <? Z.of_nat p) eqn:E; [lia|]. f_equal. by apply get_last.
    + by apply last_None in Hv.
Qed.

(** C2.  For a non-empty previous ring and a well-formed mask, at every
    position [i] of the new ring: the cursor [prevIndex] is not negative;
    if [i] is an expansion cell, the cursor does not move and the cell
    receives [currentRing[prevIndex - 1]] when [prevIndex > 0] and the last
    cell of the previous ring when [prevIndex = 0], so its value is a value
    of the previous ring, whatever the ruleset; if [i] is a rule-driven
    cell, the cursor advances by one. *)
Theorem expansion_cells_copy_previous_ring (ruleset currentCells nextCells : list value)
    (nextExpansions : list bool) (i : nat) :
  currentCells ≠ [] →
  well_formed_mask currentCells nextCells nextExpansions →
  (i < length nextCells)%nat →
  let prevIndex := (next_cells_upto ruleset currentCells nextExpansions nextCells i).1 in
  let prevIndex' := (next_cells_upto ruleset currentCells nextExpansions nextCells (S i)).1 in
  0 ≤ prevIndex
  ∧ (nextExpansions !! i = Some true →
       prevIndex' = prevIndex
       ∧ ∃ v,
           fill_next_ring ruleset currentCells nextExpansions nextCells !! i = Some v
           ∧ (0 < prevIndex → currentCells !! Z.to_nat (prevIndex - 1) = Some v)
           ∧ (prevIndex = 0 → last currentCells = Some v)
           ∧ v ∈ currentCells
           ∧ ∀ ruleset',
               fill_next_ring ruleset' currentCells nextExpansions nextCells !! i = Some v)
  ∧ (nextExpansions !! i = Some false → prevIndex' = prevIndex + 1).
Proof.
  intros Hne [Hlen Hcount] Hi prevIndex prevIndex'.
  subst prevIndex prevIndex'.
  rewrite next_cells_upto_S, next_cell_cursor, !cursor_rule_cells.
  split; [lia|]. split; [|by intros ->].
  intros Hm. rewrite Hm. split; [done|].
  assert (Hle : (rule_cells nextExpansions i ≤ length currentCells)%nat).
  { rewrite <- Hcount, <- rule_cells_all. apply rule_cells_mono. lia. }
  destruct (expansion_cell_value ruleset currentCells nextCells nextExpansions i)
    as (v & Hv & Hsrc); [done..|].
  exists v. split; [done|].
  set (p := rule_cells nextExpansions i) in *.
  destruct (decide (0 < p)%nat) as [Hp|Hp].
  - split; [|split; [lia|split]].
    + intros _. by replace (Z.to_nat (Z.of_nat p - 1)) with (pred p) by lia.
    + by eapply list_elem_of_lookup_2.
    + intros ruleset'.
      destruct (expansion_cell_value ruleset' currentCells nextCells nextExpansions i)
        as (v' & Hv' & Hsrc'); [done..|].
      fold p in Hsrc'. rewrite decide_True in Hsrc' by done. congruence.
  - split; [lia|split; [done|split]].
    + rewrite last_lookup in Hsrc. by eapply list_elem_of_lookup_2.
    + intros ruleset'.
      destruct (expansion_cell_value ruleset' currentCells nextCells nextExpansions i)
        as (v' & Hv' & Hsrc'); [done..|].
      fold p in Hsrc'. rewrite decide_False in Hsrc' by done. congruence.
Qed.

Lemma expansion_cells_copy_previous_ring_witness :
  let ruleset := [bit 0; bit 1; bit 0; bit 1; bit 1; bit 0; bit 1; bit 0] in
  let currentCells := [bit 1; bit 0] in
  let nextCells := replicate 3 Undefined in
  let nextExpansions := [true; false; false] in
  currentCells ≠ [] ∧ well_formed_mask currentCells nextCells nextExpansions
  ∧ (0 < length nextCells)%nat
  ∧ fill_next_ring ruleset currentCells nextExpansions nextCells !! 0%nat = Some (bit 0)
  ∧ ∃ v, fill_next_ring ruleset currentCells nextExpansions nextCells !! 0%nat = Some v
         ∧ last currentCells = Some v.
Proof.
  intros ruleset currentCells nextCells nextExpansions.
  assert (Hne : currentCells ≠ []) by done.
  assert (Hwf : well_formed_mask currentCells nextCells nextExpansions)
    by (split; reflexivity).
  assert (Hlt : (0 < length nextCells)%nat) by (simpl; lia).
  split; [exact Hne|]. split; [exact Hwf|]. split; [exact Hlt|].
  split; [reflexivity|].
  destruct (expansion_cells_copy_previous_ring ruleset currentCells nextCells
              nextExpansions 0 Hne Hwf Hlt) as (_ & Hexp & _).
  destruct (Hexp eq_refl) as (_ & v & Hv & _ & Hlast & _).
  exists v. split; [exact Hv|]. apply Hlast. reflexivity.
Defined.

(** ** The cursor on the masks the topology produces *)

Lemma rule_cells_blocks (interval : Z) (n j : nat) :
  1 ≤ interval → (j ≤ n)%nat →
  Z.of_nat (rule_cells (is_expansion (Int interval) <$> seq 0 n) j)
  = Z.of_nat j - Z.of_nat j / (interval + 1).
Proof.
  intros Hk. induction j as [|j IH]; intros Hj.
  - simpl. by rewrite Z.div_0_l by lia.
  - rewrite rule_cells_S, Nat2Z.inj_add, IH by lia.
    rewrite list_lookup_fmap, lookup_seq_lt by lia. simpl.
    rewrite is_expansion_mod by done.
    rewrite Nat2Z.inj_succ, <- Z.add_1_r, div_succ_block by lia.
    replace (interval + 1 - 1) with interval by lia.
    destruct (Z.of_nat j `mod` (interval + 1) =? interval); simpl; lia.
Qed.

(** C10.  On the mask that the topology builds for a non-empty previous
    ring and an interval of at least 1: position 0 is not an expansion
    cell; at every expansion cell the cursor [prevIndex] is strictly
    positive, so that the branch copying the last cell of the previous ring
    is not taken, and [prevIndex - 1] is inside the previous ring; at every
    rule-driven cell [prevIndex] is inside the previous ring; and the
    cursor ends at [prevCount]. *)
Theorem topology_cursor_in_bounds (ruleset currentCells cells : list value)
    (mask : list bool) (interval : Z) :
  1 ≤ interval → currentCells ≠ [] →
  buildRing (len currentCells) (Int interval) = Ok (cells, mask) →
  let prevCount := Z.of_nat (length currentCells) in
  let prevIndex := λ i : nat, (next_cells_upto ruleset currentCells mask cells i).1 in
  mask !! 0%nat = Some false
  ∧ (∀ i, (i < length cells)%nat →
       ∃ b : bool, mask !! i = Some b
            ∧ if b then (0 <? prevIndex i) = true ∧ 0 ≤ prevIndex i - 1 < prevCount
              else 0 ≤ prevIndex i < prevCount)
  ∧ prevIndex (length cells) = prevCount.
Proof.
  intros Hk Hne Hbuild prevCount prevIndex.
  assert (Hp : 1 ≤ prevCount).
  { subst prevCount. destruct currentCells; [done | simpl; lia]. }
  pose proof (Z.div_pos prevCount interval ltac:(lia) ltac:(lia)) as Hq.
  unfold len in Hbuild. fold prevCount in Hbuild.
  buildRing_Ok Hbuild.
  set (n := Z.to_nat (prevCount + prevCount / interval)) in *.
  injection Hbuild as <- <-.
  assert (Hcur : ∀ j, (j ≤ n)%nat →
            prevIndex j = Z.of_nat j - Z.of_nat j / (interval + 1)).
  { intros j Hj. subst prevIndex. cbv beta.
    rewrite cursor_rule_cells. by apply rule_cells_blocks. }
  assert (Hend : prevIndex n = prevCount).
  { rewrite Hcur by done. subst n. rewrite Z2Nat.id by lia.
    rewrite grown_count_blocks by lia. lia. }
  assert (Hmono : ∀ j, (j ≤ n)%nat → prevIndex j ≤ prevCount).
  { intros j Hj. rewrite <- Hend. subst prevIndex. cbv beta.
    rewrite !cursor_rule_cells. apply inj_le. by apply rule_cells_mono. }
  rewrite length_replicate.
  split; [|split; [|exact Hend]].
  - rewrite list_lookup_fmap, lookup_seq_lt by lia. simpl.
    rewrite is_expansion_mod by done. f_equal.
    rewrite Z.mod_0_l by lia. apply Z.eqb_neq. lia.
  - intros i Hi. exists (is_expansion (Int interval) i).
    split; [by rewrite list_lookup_fmap, lookup_seq_lt by lia|].
    pose proof (Hmono (S i) ltac:(lia)) as HS.
    pose proof (Hmono i ltac:(lia)) as Hi'.
    rewrite (Hcur (S i)) in HS by lia. rewrite (Hcur i) in Hi' |- * by lia.
    rewrite Nat2Z.inj_succ, <- Z.add_1_r, div_succ_block in HS by lia.
    replace (interval + 1 - 1) with interval in HS by lia.
    pose proof (Z.div_pos (Z.of_nat i) (interval + 1) ltac:(lia) ltac:(lia)) as Hq'.
    pose proof (Z.mod_le (Z.of_nat i) (interval + 1) ltac:(lia) ltac:(lia)) as Hml.
    rewrite is_expansion_mod by done.
    destruct (Z.eqb_spec (Z.of_nat i `mod` (interval + 1)) interval) as [He|He].
    + pose proof (Z.div_lt (Z.of_nat i) (interval + 1) ltac:(lia) ltac:(lia)) as Hlt.
      split; [apply Z.ltb_lt|]; lia.
    + pose proof (Z.div_le_upper_bound (Z.of_nat i) (interval + 1) (Z.of_nat i)
                    ltac:(lia) ltac:(nia)) as Hub.
      lia.
Qed.

(** ** Divisors *)

Lemma getDivisors_pushed (n : Z) :
  getDivisors n = merge_sort Z.le (seqZ 1 (Z.sqrt n) ≫= pushed n).
Proof.
  unfold getDivisors. f_equal.
  assert (Hgen : ∀ l acc,
    foldl (λ divisors i,
             if Z.rem n i =? 0 then
               if negb (i =? n / i) then divisors ++ [i; n / i] else divisors ++ [i]
             else divisors) acc l
    = acc ++ (l ≫= pushed n)).
  { induction l as [|i l IH]; intros acc; csimpl; [by rewrite app_nil_r|].
    rewrite IH. unfold pushed.
    destruct (Z.rem n i =? 0); [destruct (negb (i =? n / i))|];
      by rewrite <- ?app_assoc. }
  by rewrite Hgen.
Qed.

Lemma rem_zero_divide (n i : Z) :
  1 ≤ n → 1 ≤ i → (Z.rem n i =? 0) = true ↔ (i | n).
Proof.
  intros Hn Hi. rewrite Z.eqb_eq, Z.rem_mod_nonneg by lia.
  apply Z.mod_divide. lia.
Qed.

Lemma divide_quotient (n i : Z) :
  1 ≤ n → 1 ≤ i → (i | n) → n = i * (n / i) ∧ 1 ≤ n / i ∧ (n / i | n).
Proof.
  intros Hn Hi [q Hq].
  assert (Hdiv : n / i = q) by (subst n; apply Z.div_mul; lia).
  rewrite Hdiv. split; [lia|]. split; [nia|]. exists i. lia.
Qed.

Lemma elem_of_pushed (n i x : Z) :
  1 ≤ n → 1 ≤ i →
  x ∈ pushed n i ↔ (i | n) ∧ (x = i ∨ x = n / i).
Proof.
  intros Hn Hi. unfold pushed.
  destruct (Z.rem n i =? 0) eqn:E.
  - apply rem_zero_divide in E; [|done..].
    destruct (Z.eqb_spec i (n / i)) as [Heq|Hneq]; simpl.
    + rewrite list_elem_of_singleton. split; [by auto|]. intros [_ [?|?]]; congruence.
    + rewrite elem_of_cons, list_elem_of_singleton. split; [by auto|]. by intros [_ ?].
  - split; [by intros ?%elem_of_nil|]. intros [Hd _].
    apply rem_zero_divide in Hd; [congruence|done..].
Qed.

(** The unsorted list holds exactly the positive divisors of [n]. *)
Lemma elem_of_pushed_all (n x : Z) :
  1 ≤ n →
  x ∈ seqZ 1 (Z.sqrt n) ≫= pushed n ↔ 1 ≤ x ∧ (x | n).
Proof.
  intros Hn.
  pose proof (Z.sqrt_spec n ltac:(lia)) as Hs. cbv zeta in Hs.
  pose proof (Z.sqrt_nonneg n) as Hs0.
  rewrite list_elem_of_bind. split.
  - intros (i & Hx & Hi). apply elem_of_seqZ in Hi.
    apply elem_of_pushed in Hx as [Hd Hx]; [|lia..].
    destruct (divide_quotient n i) as (Hn' & Hq & Hqd); [lia..|done|].
    destruct Hx as [->| ->]; split; try done; lia.
  - intros [Hx Hd].
    destruct (divide_quotient n x) as (Hn' & Hq & Hqd); [lia..|done|].
    destruct (decide (x ≤ Z.sqrt n)) as [Hle|Hgt].
    + exists x. split; [|apply elem_of_seqZ; lia].
      apply elem_of_pushed; [lia..|]. by auto.
    + exists (n / x). split.
      * apply elem_of_pushed; [lia..|]. split; [done|]. right.
        apply Z.div_unique_exact; lia.
      * apply elem_of_seqZ. split; [lia|].
        destruct (decide (n / x ≤ Z.sqrt n)); [lia|].
        pose proof (Z.mul_le_mono_nonneg (Z.succ (Z.sqrt n)) x
                      (Z.succ (Z.sqrt n)) (n / x)). lia.
Qed.

Lemma NoDup_pushed_all (n : Z) :
  1 ≤ n → NoDup (seqZ 1 (Z.sqrt n) ≫= pushed n).
Proof.
  intros Hn.
  pose proof (Z.sqrt_spec n ltac:(lia)) as Hs. cbv zeta in Hs.
  apply NoDup_bind; [| |apply NoDup_seqZ].
  - intros i j x Hi Hj Hxi Hxj.
    apply elem_of_seqZ in Hi, Hj.
    apply elem_of_pushed in Hxi as [Hdi Hxi]; [|lia..].
    apply elem_of_pushed in Hxj as [Hdj Hxj]; [|lia..].
    destruct (divide_quotient n i) as (Hni & Hqi & _); [lia..|done|].
    destruct (divide_quotient n j) as (Hnj & Hqj & _); [lia..|done|].
    assert (i ≤ n / i) by nia. assert (j ≤ n / j) by nia.
    destruct Hxi as [->| ->], Hxj as [Hx|Hx]; try lia; nia.
  - intros i Hi. apply elem_of_seqZ in Hi. unfold pushed.
    destruct (Z.rem n i =? 0); [|constructor].
    destruct (Z.eqb_spec i (n / i)); simpl.
    + apply NoDup_singleton.
    + apply NoDup_cons. split; [|apply NoDup_singleton].
      by rewrite list_elem_of_singleton.
Qed.

(** [getDivisors n] is the list of the positive divisors of [n], without
    repetition and in ascending order. *)
Lemma elem_of_getDivisors (n x : Z) :
  1 ≤ n → x ∈ getDivisors n ↔ 1 ≤ x ∧ (x | n).
Proof.
  intros Hn. rewrite getDivisors_pushed, merge_sort_Permutation.
  by apply elem_of_pushed_all.
Qed.

Lemma NoDup_getDivisors (n : Z) : 1 ≤ n → NoDup (getDivisors n).
Proof.
  intros Hn. rewrite getDivisors_pushed, merge_sort_Permutation.
  by apply NoDup_pushed_all.
Qed.

Lemma Sorted_getDivisors (n : Z) : StronglySorted Z.le (getDivisors n).
Proof. rewrite getDivisors_pushed. apply StronglySorted_merge_sort; apply _. Qed.

Lemma StronglySorted_filter {A} (R : relation A) (P : A → Prop)
    `{!∀ x, Decision (P x)} (l : list A) :
  StronglySorted R l → StronglySorted R (filter P l).
Proof.
  induction 1 as [|x l Hl IH Hx]; [constructor|].
  rewrite filter_cons. destruct (decide (P x)); [|done].
  constructor; [done|]. rewrite Forall_forall in Hx |- *.
  intros y [_ Hy]%list_elem_of_filter. by apply Hx.
Qed.

Lemma StronglySorted_seqZ (m n : Z) : StronglySorted Z.le (seqZ m n).
Proof.
  destruct (decide (0 ≤ n)) as [Hn|Hn]; [|rewrite seqZ_nil by lia; constructor].
  rewrite <- (Z2Nat.id n) by done. generalize (Z.to_nat n) as k.
  intros k. revert m. induction k as [|k IH]; intros m; [constructor|].
  rewrite seqZ_cons by lia. constructor.
  - replace (Z.pred (Z.of_nat (S k))) with (Z.of_nat k) by lia. apply IH.
  - apply Forall_forall. intros x Hx%elem_of_seqZ. lia.
Qed.

Lemma divisors_spec_elem (n x : Z) :
  1 ≤ n → x ∈ divisors_spec n ↔ 1 ≤ x ∧ (x | n).
Proof.
  intros Hn. unfold divisors_spec. rewrite list_elem_of_filter, elem_of_seqZ.
  split; [intros [? ?]; split; [lia|done]|].
  intros [Hx Hd]. split; [done|].
  pose proof (Z.divide_pos_le x n ltac:(lia) Hd). lia.
Qed.

(** The list computed by the code is the ascending list of divisors. *)
Lemma getDivisors_spec (n : Z) : 1 ≤ n → getDivisors n = divisors_spec n.
Proof.
  intros Hn. apply (StronglySorted_unique Z.le).
  - apply Sorted_getDivisors.
  - apply StronglySorted_filter, StronglySorted_seqZ.
  - apply NoDup_Permutation.
    + by apply NoDup_getDivisors.
    + apply NoDup_filter, NoDup_seqZ.
    + intros x. by rewrite elem_of_getDivisors, divisors_spec_elem.
Qed.

Lemma StronglySorted_lookup_le (l : list Z) (i j : nat) (a b : Z) :
  StronglySorted Z.le l → (i ≤ j)%nat → l !! i = Some a → l !! j = Some b → a ≤ b.
Proof.
  intros Hl. revert i j. induction Hl as [|x l Hl IH Hx]; intros i j Hij Ha Hb; [done|].
  destruct i as [|i], j as [|j]; simplify_eq/=; [lia| |lia|].
  - rewrite Forall_forall in Hx. by eapply Hx, list_elem_of_lookup_2.
  - eapply (IH i j); [lia|done..].
Qed.

Lemma StronglySorted_last_max (l : list Z) (d x : Z) :
  StronglySorted Z.le l → last l = Some d → x ∈ l → x ≤ d.
Proof.
  intros Hl Hd [i Hi]%list_elem_of_lookup_1. rewrite last_lookup in Hd.
  apply (StronglySorted_lookup_le l i (pred (length l))); [done| |done..].
  apply lookup_lt_Some in Hi. lia.
Qed.

(** The candidates of the default interval: the divisors above 1. *)
Lemma elem_of_validDivisors (n x : Z) :
  1 ≤ n → x ∈ filter (λ d, 1 < d) (getDivisors n) ↔ 1 < x ∧ (x | n).
Proof.
  intros Hn. rewrite list_elem_of_filter, elem_of_getDivisors by done.
  split; [intros (? & ? & ?) | intros [? ?]]; repeat split; (done || lia).
Qed.

Lemma Sorted_validDivisors (n : Z) :
  StronglySorted Z.le (filter (λ d, 1 < d) (getDivisors n)).
Proof. apply StronglySorted_filter, Sorted_getDivisors. Qed.

Lemma validDivisors_nonempty (n : Z) :
  2 ≤ n → filter (λ d, 1 < d) (getDivisors n) ≠ [].
Proof.
  intros Hn Hnil.
  assert (Hin : n ∈ filter (λ d, 1 < d) (getDivisors n)).
  { apply elem_of_validDivisors; [lia|]. split; [lia|]. reflexivity. }
  rewrite Hnil in Hin. by apply elem_of_nil in Hin.
Qed.

Lemma getDefaultExpansionInterval_refines (n : Z) :
  1 ≤ n → getDefaultExpansionInterval n = default_interval_spec n.
Proof.
  intros Hn. unfold getDefaultExpansionInterval, default_interval_spec.
  rewrite <- getDivisors_spec by done.
  assert (Hsort : merge_sort Z.le (filter (λ d, 1 < d) (getDivisors n))
                  = filter (λ d, 1 < d) (getDivisors n)).
  { apply (StronglySorted_unique Z.le).
    - apply StronglySorted_merge_sort; apply _.
    - apply Sorted_validDivisors.
    - apply merge_sort_Permutation. }
  rewrite Hsort.
  destruct (filter (λ d, 1 < d) (getDivisors n)) as [|x l] eqn:E; [done|].
  rewrite decide_False by done. rewrite decide_False by done. done.
Qed.

(** C5.  For every positive [n], [getDefaultExpansionInterval n] is
    defined and is a divisor of [n]; it is [n] itself when [n] is 1 or
    prime; it is the value that the specification describes (the divisors
    above 1 in ascending order, entry [floor(0.6 * count)] clamped to the
    list); and, from [n = 2] on, it is at least the median of the divisors
    above 1. *)
Theorem getDefaultExpansionInterval_divisor (n : Z) :
  1 ≤ n →
  ∃ d,
    getDefaultExpansionInterval n = Some d
    ∧ 1 ≤ d ∧ (d | n)
    ∧ (n = 1 ∨ Z.prime n → d = n)
    ∧ default_interval_spec n = Some d
    ∧ (2 ≤ n →
       ∃ m, twice_median (filter (λ d, 1 < d) (divisors_spec n)) = Some m ∧ m ≤ 2 * d).
Proof.
  intros Hn. rewrite <- getDefaultExpansionInterval_refines by done.
  rewrite <- getDivisors_spec by done.
  unfold getDefaultExpansionInterval.
  pose proof (elem_of_validDivisors n) as Hmem.
  pose proof (Sorted_validDivisors n) as Hsort.
  pose proof (validDivisors_nonempty n) as Hnonempty.
  set (validDivisors := filter (λ d, 1 < d) (getDivisors n)) in *.
  destruct (decide (length validDivisors = 0%nat)) as [Hz|Hnz].
  - exists n. split; [done|]. split; [lia|]. split; [reflexivity|]. split; [done|].
    split; [done|]. intros Hn2. destruct (Hnonempty Hn2).
    by apply length_zero_iff_nil.
  - set (count := Z.of_nat (length validDivisors)) in *.
    set (t := Z.to_nat (Z.max 0 (Z.min (count - 1) (count * 6 / 10)))).
    pose proof (Z.div_pos (count * 6) 10 ltac:(lia) ltac:(lia)) as Hq0.
    assert (Hhalf : (length validDivisors / 2 ≤ t)%nat).
    { apply Nat2Z.inj_le. rewrite Nat2Z.inj_div. subst t. fold count. simpl.
      pose proof (Z.div_le_upper_bound count 2 (count * 6 / 10) ltac:(lia)).
      pose proof (Z.div_le_lower_bound (count * 6) 10 (count / 2) ltac:(lia)).
      pose proof (Z.mul_div_le count 2 ltac:(lia)).
      pose proof (Z.div_lt_upper_bound count 2 count ltac:(lia)).
      lia. }
    destruct (lookup_lt_is_Some_2 validDivisors t) as [d Hd]; [subst t; lia|].
    assert (Hin : d ∈ validDivisors) by (by eapply list_elem_of_lookup_2).
    apply Hmem in Hin as [Hd1 Hdn]; [|done].
    exists d. split; [done|]. split; [lia|]. split; [done|]. split; [|split; [done|]].
    + intros [-> | Hprime].
      * pose proof (Z.divide_pos_le d 1 ltac:(lia) Hdn). lia.
      * destruct (Z.divide_prime_r d n Hprime Hdn) as [?|[?|[?|?]]]; lia.
    + intros _. unfold twice_median.
      destruct (lookup_lt_is_Some_2 validDivisors ((length validDivisors - 1) / 2))
        as [lo Hlo].
      { pose proof (Nat.Div0.div_le_upper_bound (length validDivisors - 1) 2
                      (length validDivisors - 1)). lia. }
      destruct (lookup_lt_is_Some_2 validDivisors (length validDivisors / 2))
        as [hi Hhi]; [subst t; lia|].
      exists (lo + hi). rewrite Hlo, Hhi. split; [done|].
      assert (lo ≤ hi).
      { apply (StronglySorted_lookup_le validDivisors
                 ((length validDivisors - 1) / 2) (length validDivisors / 2) lo hi Hsort);
          [|done..].
        apply Nat.Div0.div_le_mono. lia. }
      assert (hi ≤ d).
      { by apply (StronglySorted_lookup_le validDivisors
                    (length validDivisors / 2) t hi d Hsort Hhalf). }
      lia.
Qed.

Lemma getDefaultExpansionInterval_divisor_witness :
  1 ≤ 12
  ∧ ∃ d,
      getDefaultExpansionInterval 12 = Some d
      ∧ 1 ≤ d ∧ (d | 12)
      ∧ (12 = 1 ∨ Z.prime 12 → d = 12)
      ∧ default_interval_spec 12 = Some d
      ∧ (2 ≤ 12 →
         ∃ m, twice_median (filter (λ d, 1 < d) (divisors_spec 12)) = Some m ∧ m ≤ 2 * d).
Proof. split; [lia|]. apply (getDefaultExpansionInterval_divisor 12). lia. Defined.

(** ** The variable-schedule planner *)

Lemma plan_upto_S (n : Z) (k : nat) :
  Scheduled.plan_upto n (Z.of_nat (S k))
  = Scheduled.plan_interval (Scheduled.plan_upto n (Z.of_nat k)) (Z.of_nat k).
Proof. unfold Scheduled.plan_upto. by rewrite seqZ_S, foldl_app. Qed.

(** One transition of the planner on a ring of [c ≥ 1] cells. *)
Lemma plan_interval_Int (c r : Z) (chosen : list value) :
  1 ≤ c → 0 ≤ r →
  ∃ interval,
    Scheduled.plan_interval (Int c, chosen) r
    = (Int (c + c / interval), chosen ++ [Num (Int interval)])
    ∧ (r + 2 ≤ c → interval = r + 2)
    ∧ (r + 2 > c →
       largest_divisor_above_1 c interval
       ∨ (¬ (∃ d, 1 < d ∧ (d | c)) ∧ interval = c))
    ∧ 1 ≤ interval ≤ c.
Proof.
  intros Hc Hr. unfold Scheduled.plan_interval, gt, to_number. simpl lt.
  destruct (Z.ltb_spec c (2 + r)) as [Hlt|Hge].
  - simpl Scheduled.divisors_of.
    pose proof (elem_of_validDivisors c) as Hmem.
    pose proof (Sorted_validDivisors c) as Hsort.
    set (validDivisors := filter (λ d, 1 < d) (getDivisors c)) in *.
    destruct (decide (0 < length validDivisors)%nat) as [Hpos|Hzero].
    + destruct (last validDivisors) as [d|] eqn:Hlast.
      2: { apply last_None in Hlast. rewrite Hlast in Hpos. simpl in Hpos. lia. }
      assert (Hd : 1 < d ∧ (d | c)).
      { apply Hmem; [done|]. by eapply last_Some_elem_of. }
      destruct Hd as [Hd1 Hdc].
      pose proof (Z.divide_pos_le d c ltac:(lia) Hdc) as Hle.
      exists d. simpl. destruct (d =? 0) eqn:E; [lia|].
      split; [done|]. split; [lia|]. split; [|lia].
      intros _. left. split; [done|]. split; [done|].
      intros d' Hd' Hd'c. apply (StronglySorted_last_max validDivisors); [done..|].
      by apply Hmem.
    + exists c. simpl. destruct (c =? 0) eqn:E; [lia|].
      split; [done|]. split; [lia|]. split; [|lia].
      intros _. right. split; [|done]. intros (d & Hd1 & Hdc).
      assert (Hin : d ∈ validDivisors) by (by apply Hmem).
      destruct validDivisors; [by apply elem_of_nil in Hin | simpl in Hzero; lia].
  - exists (2 + r). simpl. destruct (2 + r =? 0) eqn:E; [lia|].
    split; [done|]. split; [lia|]. split; lia.
Qed.

(** The planner keeps an integer count of at least 1 and has chosen one
    interval per transition so far. *)
Lemma plan_upto_count (n : Z) (k : nat) :
  1 ≤ n →
  ∃ c, (Scheduled.plan_upto n (Z.of_nat k)).1 = Int c ∧ 1 ≤ c
       ∧ length (Scheduled.plan_upto n (Z.of_nat k)).2 = k.
Proof.
  intros Hn. induction k as [|k (c & Hc & Hc1 & Hlen)].
  - exists n. by repeat split.
  - rewrite plan_upto_S.
    destruct (Scheduled.plan_upto n (Z.of_nat k)) as [count chosen] eqn:E.
    simpl in Hc, Hlen. subst count.
    destruct (plan_interval_Int c (Z.of_nat k) chosen) as (iv & -> & _ & _ & Hiv);
      [lia..|].
    pose proof (Z.div_pos c iv ltac:(lia) ltac:(lia)).
    exists (c + c / iv). simpl. split; [done|]. split; [lia|].
    rewrite length_app. simpl. lia.
Qed.

Lemma plan_interval_keeps (st : number * list value) (r : Z) (i : nat) (v : value) :
  st.2 !! i = Some v → (Scheduled.plan_interval st r).2 !! i = Some v.
Proof.
  intros Hv. destruct st as [count chosen]. unfold Scheduled.plan_interval.
  simpl. by apply lookup_app_l_Some.
Qed.

Lemma plan_upto_keeps (n : Z) (j k i : nat) (v : value) :
  (j ≤ k)%nat →
  (Scheduled.plan_upto n (Z.of_nat j)).2 !! i = Some v →
  (Scheduled.plan_upto n (Z.of_nat k)).2 !! i = Some v.
Proof.
  intros Hjk Hv. induction Hjk as [|k Hjk IH]; [done|].
  rewrite plan_upto_S. by apply plan_interval_keeps.
Qed.

(** A transition of the schedule: the count the planner holds, the
    interval it selects, and the count it moves to. *)
Lemma planner_transition (initialCellCount numRings r : Z) :
  1 ≤ initialCellCount → 0 ≤ r < numRings - 1 →
  ∃ count interval,
    (Scheduled.plan_upto initialCellCount r).1 = Int count
    ∧ Scheduled.initializeExpansionIntervals initialCellCount numRings !! Z.to_nat r
      = Some (Num (Int interval))
    ∧ (Scheduled.plan_upto initialCellCount (r + 1)).1 = Int (count + count / interval)
    ∧ (r + 2 ≤ count → interval = r + 2)
    ∧ (r + 2 > count →
       largest_divisor_above_1 count interval
       ∨ (¬ (∃ d, 1 < d ∧ (d | count)) ∧ interval = count))
    ∧ 1 ≤ interval ≤ count.
Proof.
  intros Hn Hr.
  destruct (plan_upto_count initialCellCount (Z.to_nat r) Hn) as (c & Hc & Hc1 & Hlen).
  rewrite Z2Nat.id in Hc, Hlen by lia.
  destruct (Scheduled.plan_upto initialCellCount r) as [count chosen] eqn:E.
  simpl in Hc, Hlen. subst count.
  destruct (plan_interval_Int c r chosen) as (iv & Hstep & Hreg & Hfall & Hiv); [lia..|].
  assert (HS : Scheduled.plan_upto initialCellCount (r + 1)
               = (Int (c + c / iv), chosen ++ [Num (Int iv)])).
  { replace (r + 1) with (Z.of_nat (S (Z.to_nat r))) by lia.
    rewrite plan_upto_S, Z2Nat.id, E by lia. done. }
  exists c, iv. simpl. split; [done|]. split; [|by rewrite HS].
  unfold Scheduled.initializeExpansionIntervals.
  replace (numRings - 1) with (Z.of_nat (Z.to_nat (numRings - 1))) by lia.
  apply (plan_upto_keeps _ (S (Z.to_nat r))); [lia|].
  replace (Z.of_nat (S (Z.to_nat r))) with (r + 1) by lia.
  rewrite HS. simpl. rewrite lookup_app_r by lia.
  by replace (Z.to_nat r - length chosen)%nat with 0%nat by lia.
Qed.

Example planner_examples :
  Scheduled.initializeExpansionIntervals 16 5 = [Num (Int 2); Num (Int 3); Num (Int 4); Num (Int 5)]
  ∧ Scheduled.initializeExpansionIntervals 1 4 = [Num (Int 1); Num (Int 2); Num (Int 3)]
  ∧ Scheduled.plan_upto 16 4 = (Int 48, [Num (Int 2); Num (Int 3); Num (Int 4); Num (Int 5)]).
Proof. vm_compute. repeat split. Qed.

Lemma topology_cursor_in_bounds_witness :
  let ruleset := [bit 0; bit 1; bit 0; bit 1; bit 1; bit 0; bit 1; bit 0] in
  let currentCells := [bit 1; bit 0; bit 1; bit 0; bit 1; bit 0; bit 1; bit 0] in
  let cells := replicate 10 Undefined in
  let mask := [false; false; false; false; true; false; false; false; false; true] in
  1 ≤ 4 ∧ currentCells ≠ []
  ∧ buildRing (len currentCells) (Int 4) = Ok (cells, mask)
  ∧ mask !! 0%nat = Some false
  ∧ (∀ i, (i < length cells)%nat →
       ∃ b : bool, mask !! i = Some b
         ∧ if b
           then (0 <? (next_cells_upto ruleset currentCells mask cells i).1) = true
                ∧ 0 ≤ (next_cells_upto ruleset currentCells mask cells i).1 - 1 < 8
           else 0 ≤ (next_cells_upto ruleset currentCells mask cells i).1 < 8)
  ∧ (next_cells_upto ruleset currentCells mask cells (length cells)).1 = 8.
Proof.
  intros ruleset currentCells cells mask.
  split; [lia|]. split; [done|]. split; [reflexivity|].
  apply (topology_cursor_in_bounds ruleset currentCells cells mask 4);
    [lia | done | reflexivity].
Defined.

(** ** The ruleset control *)

Lemma chars_length (s : string) : length (chars s) = String.length s.
Proof. induction s as [|c s IH]; simpl; [done|by rewrite IH]. Qed.

Lemma restartSimulation_ruleset (count rings_wanted : Z) (interval : number)
    (rulesetStr patternStr : string) (s s' : Constant.state) :
  Constant.restartSimulation count rings_wanted interval rulesetStr patternStr s = Ok s' →
  Constant.ruleset s' = read_ruleset (Constant.ruleset s) rulesetStr.
Proof.
  unfold Constant.restartSimulation, Constant.initializeSimulation. simpl.
  destruct (precalculate _ _ _ _) as [[rings masks]|e]; simpl; [|done].
  by intros [= <-].
Qed.

Lemma Scheduled_restartSimulation_ruleset (count rings_wanted : Z)
    (dropdown : Z → option string) (rulesetStr patternStr : string)
    (s s' : Scheduled.state) :
  Scheduled.restartSimulation count rings_wanted dropdown rulesetStr patternStr s = Ok s' →
  Scheduled.ruleset s' = read_ruleset (Scheduled.ruleset s) rulesetStr.
Proof.
  unfold Scheduled.restartSimulation, Scheduled.initializeSimulation. simpl.
  destruct (precalculate _ _ _ _) as [[rings masks]|e]; simpl; [|done].
  by intros [= <-].
Qed.

(** C8.  A ruleset string whose length is not 8 leaves the ruleset as it
    was; a string of length 8 replaces it, entry by entry, by the parsed
    characters.  [read_ruleset] is a total function: nothing is thrown and
    the result is one of the two rulesets, never a mixture; it is the
    ruleset of the simulation that [restartSimulation] starts, in both
    sketches. *)
Theorem ruleset_replaced_only_at_length_8 (ruleset : list value) (rulesetStr : string) :
  ((String.length rulesetStr ≠ 8%nat ∧ read_ruleset ruleset rulesetStr = ruleset)
   ∨ (String.length rulesetStr = 8%nat
      ∧ read_ruleset ruleset rulesetStr = (λ bit, Num (parseInt bit 0)) <$> chars rulesetStr
      ∧ length (read_ruleset ruleset rulesetStr) = 8%nat))
  ∧ (∀ count rings_wanted interval patternStr (s s' : Constant.state),
       Constant.ruleset s = ruleset →
       Constant.restartSimulation count rings_wanted interval rulesetStr patternStr s = Ok s' →
       Constant.ruleset s' = read_ruleset ruleset rulesetStr)
  ∧ (∀ count rings_wanted dropdown patternStr (s s' : Scheduled.state),
       Scheduled.ruleset s = ruleset →
       Scheduled.restartSimulation count rings_wanted dropdown rulesetStr patternStr s = Ok s' →
       Scheduled.ruleset s' = read_ruleset ruleset rulesetStr).
Proof.
  split; [|split].
  - unfold read_ruleset.
    destruct (decide (String.length rulesetStr = 8%nat)) as [Heq|Hne].
    + right. split; [done|]. split; [done|]. by rewrite length_fmap, chars_length.
    + left. done.
  - intros count rings_wanted interval patternStr s s' <- Hrestart.
    by eapply restartSimulation_ruleset.
  - intros count rings_wanted dropdown patternStr s s' <- Hrestart.
    by eapply Scheduled_restartSimulation_ruleset.
Qed.

Example read_ruleset_examples :
  let rule90 := [bit 0; bit 1; bit 0; bit 1; bit 1; bit 0; bit 1; bit 0] in
  read_ruleset rule90 "0110111" = rule90
  ∧ read_ruleset rule90 "011011100" = rule90
  ∧ read_ruleset rule90 EmptyString = rule90
  ∧ read_ruleset rule90 "01101110"
    = [bit 0; bit 1; bit 1; bit 0; bit 1; bit 1; bit 1; bit 0].
Proof. vm_compute. repeat split. Qed.

(** ** The initial pattern *)

Lemma is_bit_spec (val : number) : is_bit val = true ↔ val = Int 0 ∨ val = Int 1.
Proof.
  unfold is_bit. destruct val as [z| | |]; simpl;
    [|split; [done | intros [?|?]; done]..].
  rewrite orb_true_iff, !Z.eqb_eq.
  split; (intros [?|?]; [left | right]; congruence).
Qed.

Lemma read_pattern_bits (patternStr : string) :
  Forall (λ v, v = bit 0 ∨ v = bit 1) (read_pattern patternStr).
Proof.
  unfold read_pattern. apply Forall_fmap, Forall_forall.
  intros val [Hbit _]%list_elem_of_filter. simpl.
  apply Is_true_true, is_bit_spec in Hbit as [-> | ->]; by auto.
Qed.

Lemma fit_pattern_same (initialPattern : list value) (count : Z) :
  Z.of_nat (length initialPattern) = count → fit_pattern initialPattern count = initialPattern.
Proof.
  intros Hlen. unfold fit_pattern, len. simpl. by rewrite (proj2 (Z.eqb_eq _ _) Hlen).
Qed.

Lemma foldl_push {A B} (f : B → A) (range : list B) (acc : list A) :
  foldl (λ collected i, collected ++ [f i]) acc range = acc ++ (f <$> range).
Proof.
  revert acc. induction range as [|i range IH]; intros acc; simpl.
  - by rewrite app_nil_r.
  - by rewrite IH, <- app_assoc.
Qed.

Lemma fit_pattern_rebuilt (initialPattern : list value) (count : Z) :
  Z.of_nat (length initialPattern) ≠ count →
  fit_pattern initialPattern count
  = (λ i, or_else (get initialPattern (rem (Int i) (len initialPattern))) (bit 0))
      <$> seqZ 0 count.
Proof.
  intros Hlen. unfold fit_pattern, len. simpl strict_eq.
  rewrite (proj2 (Z.eqb_neq _ _) Hlen). simpl negb. cbv iota.
  by rewrite foldl_push.
Qed.

(** An entry of the rebuilt pattern: the cyclic repetition of a pattern of
    bits, and 0 when there is nothing to repeat. *)
Lemma fit_pattern_cyclic (initialPattern : list value) (i : Z) :
  Forall (λ v, v = bit 0 ∨ v = bit 1) initialPattern → 0 ≤ i →
  ∃ cell,
    or_else (get initialPattern (rem (Int i) (len initialPattern))) (bit 0) = cell
    ∧ (initialPattern = [] → cell = bit 0)
    ∧ (initialPattern ≠ [] →
       initialPattern !! Z.to_nat (i `mod` Z.of_nat (length initialPattern)) = Some cell).
Proof.
  intros Hbits Hi. eexists. split; [done|]. split.
  - intros ->. done.
  - intros Hne.
    assert (Hlen : 0 < Z.of_nat (length initialPattern)).
    { destruct initialPattern; [done | simpl; lia]. }
    unfold len, rem. destruct (Z.of_nat (length initialPattern) =? 0) eqn:E; [lia|].
    rewrite Z.rem_mod_nonneg by lia.
    pose proof (Z.mod_pos_bound i (Z.of_nat (length initialPattern)) Hlen) as Hb.
    destruct (lookup_lt_is_Some_2 initialPattern
                (Z.to_nat (i `mod` Z.of_nat (length initialPattern)))) as [v Hv]; [lia|].
    rewrite (get_Some _ _ v) by (done || lia). rewrite Hv. f_equal.
    rewrite Forall_forall in Hbits.
    destruct (Hbits v) as [-> | ->]; [by eapply list_elem_of_lookup_2|done..].
Qed.

Lemma first_ring_eq (initialPattern : list value) (count : Z) :
  0 ≤ count →
  first_ring initialPattern count
  = take (Z.to_nat count) initialPattern
    ++ replicate (Z.to_nat count - length initialPattern) (bit 0)
  ∧ Z.of_nat (length (first_ring initialPattern count)) = count.
Proof.
  intros Hc. unfold first_ring, slice0.
  destruct (count <? 0) eqn:E; [lia|].
  assert (Hrep : Z.to_nat (count - Z.of_nat (length (take (Z.to_nat count) initialPattern)))
                 = (Z.to_nat count - length initialPattern)%nat).
  { rewrite length_take. lia. }
  rewrite Hrep. split; [done|].
  rewrite length_app, length_take, length_replicate. lia.
Qed.

Lemma first_ring_fitted (initialPattern : list value) (count : Z) :
  Z.of_nat (length initialPattern) = count → first_ring initialPattern count = initialPattern.
Proof.
  intros Hlen. destruct (first_ring_eq initialPattern count) as [-> _]; [lia|].
  rewrite take_ge by lia.
  replace (Z.to_nat count - length initialPattern)%nat with 0%nat by lia.
  by rewrite app_nil_r.
Qed.

Lemma fit_pattern_length (initialPattern : list value) (count : Z) :
  0 ≤ count → Z.of_nat (length (fit_pattern initialPattern count)) = count.
Proof.
  intros Hc. destruct (decide (Z.of_nat (length initialPattern) = count)) as [Heq|Hne].
  - by rewrite fit_pattern_same.
  - rewrite fit_pattern_rebuilt by done. rewrite length_fmap, length_seqZ. lia.
Qed.

(** ** The topology of a run *)

Lemma floor_quotient_bound (p k : Z) : 0 ≤ p → k ≠ 0 → 0 ≤ p + p / k.
Proof.
  intros Hp Hk. destruct (decide (0 < k)) as [Hpos|Hneg].
  - pose proof (Z.div_pos p k ltac:(lia) ltac:(lia)). lia.
  - rewrite <- (Z.div_opp_opp p k) by done.
    pose proof (Z.div_le_lower_bound (- p) (- k) (- p) ltac:(lia) ltac:(nia)). lia.
Qed.

Lemma for_each_cons {S} (body : S → Z → result S) (s : S) (r : Z) (range : list Z) :
  for_each body s (r :: range) = body s r ≫= λ s', for_each body s' range.
Proof. done. Qed.

Lemma for_each_app {S} (body : S → Z → result S) (s : S) (range1 range2 : list Z) :
  for_each body s (range1 ++ range2)
  = for_each body s range1 ≫= λ s', for_each body s' range2.
Proof.
  revert s. induction range1 as [|r range1 IH]; intros s; [done|].
  simpl. destruct (body s r) as [s'|e]; simpl; [apply IH|done].
Qed.

Section topology_facts.
Variable interval_for : Z → number → number.
Variable initialCellCount : Z.

Local Abbreviation count := (ring_count interval_for initialCellCount).
Local Abbreviation counted := (counted interval_for initialCellCount).

Lemma fits_spec (numRings : Z) :
  fits interval_for initialCellCount numRings = true
  ↔ ∀ r : nat, (r ≤ Z.to_nat (numRings - 1))%nat → allocatable (count r) = true.
Proof.
  unfold fits. rewrite forallb_forall. split.
  - intros Hall r Hr. apply Hall, in_seq. lia.
  - intros Hall r Hr%in_seq. apply Hall. lia.
Qed.

Lemma fits_false (numRings : Z) :
  fits interval_for initialCellCount numRings = false →
  ∃ r : nat, (r ≤ Z.to_nat (numRings - 1))%nat ∧ allocatable (count r) = false.
Proof.
  unfold fits. intros Hbad.
  assert (Hupto : ∀ n, forallb (λ r, allocatable (count r)) (seq 0 n) = false →
                       ∃ r : nat, (r < n)%nat ∧ allocatable (count r) = false).
  { induction n as [|n IH]; [done|].
    rewrite seq_S, forallb_app. simpl. rewrite andb_true_r.
    intros [Hn|Hn]%andb_false_iff.
    - destruct (IH Hn) as (r & Hr & Hr'). exists r. split; [lia|done].
    - exists n. split; [lia|done]. }
  destruct (Hupto _ Hbad) as (r & Hr & Hr'). exists r. split; [lia|done].
Qed.

(** One iteration of the loop over [r], on rings that have the counts of
    the recurrence: it makes the next ring when its count is within the
    limit of arrays, and throws a RangeError otherwise. *)
Lemma ring_step_cases (rings : list (list value)) (masks : list (list bool))
    (prev : list value) :
  rings !! pred (length rings) = Some prev → counted rings →
  ring_step interval_for (rings, masks) (Z.of_nat (length rings))
  = match count (length rings) with
    | Int z =>
        if allocatable (Int z)
        then Ok (rings ++ [replicate (Z.to_nat z) Undefined],
                 masks ++ [is_expansion (interval_for (Z.of_nat (length rings)) (len prev))
                             <$> seq 0 (Z.to_nat z)])
        else Throw RangeError
    | _ => Throw RangeError
    end
  ∧ buildRing (len prev) (interval_for (Z.of_nat (length rings)) (len prev))
    = match count (length rings) with
      | Int z =>
          if allocatable (Int z)
          then Ok (replicate (Z.to_nat z) Undefined,
                   is_expansion (interval_for (Z.of_nat (length rings)) (len prev))
                     <$> seq 0 (Z.to_nat z))
          else Throw RangeError
      | _ => Throw RangeError
      end.
Proof.
  intros Hprev Hcounted.
  assert (Hpos : (0 < length rings)%nat) by (by apply lookup_lt_Some in Hprev; lia).
  assert (Hcount : count (length rings)
                   = add (len prev)
                       (floor_div (len prev)
                          (interval_for (Z.of_nat (length rings)) (len prev)))).
  { rewrite (Hcounted _ _ Hprev).
    destruct (length rings) as [|n] eqn:E; [lia|]. done. }
  rewrite Hcount. split; [|apply buildRing_cases].
  unfold ring_step.
  replace (Z.to_nat (Z.of_nat (length rings) - 1)) with (pred (length rings)) by lia.
  rewrite Hprev. cbv zeta. rewrite buildRing_cases.
  destruct (add _ _) as [z| | |]; try done.
  by destruct (allocatable (Int z)).
Qed.

(** The loop over [r] extends a topology as long as the counts fit. *)
Lemma ring_steps (m : nat) (rings : list (list value)) (masks : list (list bool)) :
  rings ≠ [] →
  topology interval_for rings masks → counted rings →
  (∀ r : nat, (length rings ≤ r < length rings + m)%nat → allocatable (count r) = true) →
  ∃ rings' masks',
    for_each (ring_step interval_for) (rings, masks)
      (seqZ (Z.of_nat (length rings)) (Z.of_nat m)) = Ok (rings', masks')
    ∧ topology interval_for rings' masks'
    ∧ counted rings'
    ∧ length rings' = (length rings + m)%nat
    ∧ rings' !! 0%nat = rings !! 0%nat
    ∧ masks' !! 0%nat = masks !! 0%nat.
Proof.
  revert rings masks. induction m as [|m IH]; intros rings masks Hne Htop Hcounted Hfit.
  { exists rings, masks. simpl. rewrite Nat.add_0_r. by repeat (split; [done|]). }
  rewrite seqZ_cons, for_each_cons by lia.
  destruct Htop as [Hlen Hsteps].
  assert (Hpos : (0 < length rings)%nat) by (destruct rings; [done | simpl; lia]).
  destruct (lookup_lt_is_Some_2 rings (pred (length rings))) as [prev Hprev]; [lia|].
  destruct (ring_step_cases rings masks prev Hprev Hcounted) as [Hstep Hbuild].
  pose proof (Hfit (length rings) ltac:(lia)) as Hz.
  destruct (allocatable_inv _ Hz) as (z & Hcz & Hzb).
  rewrite Hcz in Hstep, Hbuild, Hz. rewrite Hz in Hstep, Hbuild.
  rewrite Hstep. simpl.
  set (cells := replicate _ Undefined) in *.
  set (mask := is_expansion _ <$> _) in *.
  destruct (IH (rings ++ [cells]) (masks ++ [mask])) as
    (rings' & masks' & Hloop & Htop' & Hcounted' & Hlen' & Hfirst & Hfirstm).
  - by destruct rings.
  - split; [rewrite !length_app; simpl; lia|].
    intros r ring Hr HS. rewrite length_app in HS. simpl in HS.
    destruct (decide (S r < length rings)%nat) as [Hin|Hlast].
    + rewrite lookup_app_l in Hr by lia.
      destruct (Hsteps r ring Hr Hin) as (c & mk & Hc & Hmk & Hb).
      exists c, mk. rewrite !lookup_app_l by lia. done.
    + assert (r = pred (length rings)) as -> by lia.
      rewrite lookup_app_l in Hr by lia. assert (ring = prev) as -> by congruence.
      exists cells, mask.
      replace (S (pred (length rings))) with (length rings) by lia.
      rewrite lookup_app_r by lia. rewrite (lookup_app_r masks) by lia.
      rewrite <- Hlen, !Nat.sub_diag. done.
  - intros r ring Hr. destruct (decide (r < length rings)%nat) as [Hin|Hlast].
    + rewrite lookup_app_l in Hr by done. by apply Hcounted.
    + apply lookup_lt_Some in Hr as Hr'. rewrite length_app in Hr'. simpl in Hr'.
      assert (r = length rings) as -> by lia.
      rewrite lookup_app_r, Nat.sub_diag in Hr by lia. injection Hr as <-.
      rewrite Hcz. unfold len, cells. rewrite length_replicate. f_equal. lia.
  - intros r Hr. rewrite length_app in Hr. simpl in Hr. apply Hfit. lia.
  - exists rings', masks'.
    rewrite length_app in Hloop, Hlen'. simpl in Hloop, Hlen'.
    replace (Z.succ (Z.of_nat (length rings))) with (Z.of_nat (length rings + 1)) by lia.
    replace (Z.pred (Z.of_nat (S m))) with (Z.of_nat m) by lia.
    split; [done|]. split; [done|]. split; [done|]. split; [lia|].
    rewrite Hfirst, Hfirstm. rewrite !lookup_app_l by lia. done.
Qed.

(** The loop throws a RangeError at the first count that does not fit. *)
Lemma ring_steps_unfit (m : nat) (rings : list (list value)) (masks : list (list bool)) :
  rings ≠ [] → counted rings →
  (∃ r : nat, (length rings ≤ r < length rings + m)%nat ∧ allocatable (count r) = false) →
  for_each (ring_step interval_for) (rings, masks)
    (seqZ (Z.of_nat (length rings)) (Z.of_nat m)) = Throw RangeError.
Proof.
  revert rings masks. induction m as [|m IH]; intros rings masks Hne Hcounted Hbad.
  { destruct Hbad as (r & Hr & _). lia. }
  rewrite seqZ_cons, for_each_cons by lia.
  assert (Hpos : (0 < length rings)%nat) by (destruct rings; [done | simpl; lia]).
  destruct (lookup_lt_is_Some_2 rings (pred (length rings))) as [prev Hprev]; [lia|].
  destruct (ring_step_cases rings masks prev Hprev Hcounted) as [Hstep _].
  rewrite Hstep.
  destruct (count (length rings)) as [z| | |] eqn:Hcz; try done.
  destruct (allocatable (Int z)) eqn:Hz; [|done]. simpl.
  replace (Z.succ (Z.of_nat (length rings)))
    with (Z.of_nat (length (rings ++ [replicate (Z.to_nat z) Undefined])))
    by (rewrite length_app; simpl; lia).
  replace (Z.pred (Z.of_nat (S m))) with (Z.of_nat m) by lia.
  apply IH.
  - by destruct rings.
  - intros r ring Hr. destruct (decide (r < length rings)%nat) as [Hin|Hlast].
    + rewrite lookup_app_l in Hr by done. by apply Hcounted.
    + apply lookup_lt_Some in Hr as Hr'. rewrite length_app in Hr'. simpl in Hr'.
      assert (r = length rings) as -> by lia.
      rewrite lookup_app_r, Nat.sub_diag in Hr by lia. injection Hr as <-.
      apply allocatable_Int in Hz.
      rewrite Hcz. unfold len. rewrite length_replicate. f_equal. lia.
  - destruct Hbad as (r & Hr & Hbad). exists r. split; [|done].
    rewrite length_app. simpl.
    destruct (decide (r = length rings)) as [->|Hne']; [congruence|lia].
Qed.

(** The pre-calculation of the rings succeeds when every count fits. *)
Lemma precalculate_ok (initialPattern : list value) (numRings : Z) :
  fits interval_for initialCellCount numRings = true →
  ∃ rings masks,
    precalculate interval_for initialPattern initialCellCount numRings = Ok (rings, masks)
    ∧ topology interval_for rings masks
    ∧ counted rings
    ∧ length rings = S (Z.to_nat (numRings - 1))
    ∧ rings !! 0%nat = Some (first_ring initialPattern initialCellCount)
    ∧ masks !! 0%nat = Some (replicate (Z.to_nat initialCellCount) false).
Proof.
  intros Hfits. rewrite fits_spec in Hfits.
  pose proof (Hfits 0%nat ltac:(lia)) as H0.
  change (allocatable (Int initialCellCount) = true) in H0.
  apply allocatable_Int in H0 as Hn.
  unfold precalculate, new_Array_fill. rewrite H0. simpl.
  set (ring0 := first_ring initialPattern initialCellCount).
  set (mask0 := replicate (Z.to_nat initialCellCount) false).
  destruct (ring_steps (Z.to_nat (numRings - 1)) [ring0] [mask0]) as
    (rings & masks & Hloop & Htop & Hcounted & Hlen & Hfirst & Hfirstm).
  - done.
  - split; [done|]. intros r prev _ HS. simpl in HS. lia.
  - intros r ring Hr. destruct r as [|r]; [|done]. injection Hr as <-.
    unfold len, ring0. simpl.
    by destruct (first_ring_eq initialPattern initialCellCount) as [_ ->]; [lia|].
  - intros r Hr. simpl in Hr. apply Hfits. lia.
  - exists rings, masks. split; [|by repeat (split; [done|])].
    destruct (decide (0 ≤ numRings - 1)) as [Hr|Hr].
    + by rewrite Z2Nat.id in Hloop by lia.
    + rewrite seqZ_nil in Hloop |- * by lia. done.
Qed.

(** Otherwise it throws a RangeError. *)
Lemma precalculate_unfit (initialPattern : list value) (numRings : Z) :
  fits interval_for initialCellCount numRings = false →
  precalculate interval_for initialPattern initialCellCount numRings = Throw RangeError.
Proof.
  intros (r & Hr & Hbad)%fits_false.
  unfold precalculate, new_Array_fill.
  destruct (allocatable (Int initialCellCount)) eqn:H0; [|done]. simpl.
  assert (r ≠ 0%nat).
  { intros ->. change (allocatable (Int initialCellCount) = false) in Hbad. congruence. }
  apply allocatable_Int in H0.
  rewrite <- (Z2Nat.id (numRings - 1)) by lia.
  apply (ring_steps_unfit (Z.to_nat (numRings - 1))
           [first_ring initialPattern initialCellCount]).
  - done.
  - intros r' ring Hr'. destruct r' as [|r']; [|done]. injection Hr' as <-.
    unfold len. simpl.
    by destruct (first_ring_eq initialPattern initialCellCount) as [_ ->]; [lia|].
  - exists r. simpl. split; [lia|done].
Qed.

Lemma precalculate_Ok_fits (initialPattern : list value) (numRings : Z)
    (rings : list (list value)) (masks : list (list bool)) :
  precalculate interval_for initialPattern initialCellCount numRings = Ok (rings, masks) →
  fits interval_for initialCellCount numRings = true.
Proof.
  intros Hok. destruct (fits _ _ _) eqn:E; [done|].
  by rewrite precalculate_unfit in Hok.
Qed.
End topology_facts.

(** ** Frames *)

Lemma generateNextRing_ok (ruleset : list value) (rings : list (list value))
    (masks : list (list bool)) (ringIndex : Z) :
  length rings = length masks → 0 ≤ ringIndex → ringIndex + 1 < Z.of_nat (length rings) →
  ∃ rings', generateNextRing ruleset rings masks ringIndex = Ok rings'
            ∧ length rings' = length rings.
Proof.
  intros Hlen H0 Hnext. unfold generateNextRing.
  destruct (lookup_lt_is_Some_2 rings (Z.to_nat (ringIndex + 1))) as [nextCells ->]; [lia|].
  destruct (decide (length nextCells = 0%nat)); [by exists rings|].
  destruct (lookup_lt_is_Some_2 masks (Z.to_nat (ringIndex + 1))) as [mask ->]; [lia|].
  destruct (lookup_lt_is_Some_2 rings (Z.to_nat ringIndex)) as [cells ->]; [lia|].
  eexists. split; [done|]. by rewrite length_insert.
Qed.

Lemma render_reads_ok (rings : list (list value)) (masks : list (list bool))
    (currentRing : Z) :
  length rings = length masks → 0 ≤ currentRing < Z.of_nat (length rings) →
  render_reads rings masks currentRing = Ok ().
Proof.
  intros Hlen Hcur. unfold render_reads.
  destruct (lookup_lt_is_Some_2 rings (Z.to_nat currentRing)) as [cells ->]; [lia|].
  destruct (0 <? currentRing) eqn:E; [|done].
  destruct (lookup_lt_is_Some_2 rings (Z.to_nat (currentRing - 1))) as [prev ->]; [lia|].
  destruct (decide (length cells = 0%nat)); [done|].
  destruct (lookup_lt_is_Some_2 masks (Z.to_nat currentRing)) as [mask ->]; [lia|].
  done.
Qed.

(** A frame does not throw on parallel arrays that hold [numRings] rings. *)
Lemma draw_frame_ok (numRings : Z) (ruleset : list value) (masks : list (list bool))
    (rings : list (list value)) (currentRing : Z) :
  length rings = length masks → numRings ≤ Z.of_nat (length rings) → 0 ≤ currentRing →
  ∃ rings',
    draw_frame numRings ruleset masks rings currentRing
    = Ok (rings', if numRings <=? currentRing then currentRing else currentRing + 1)
    ∧ length rings' = length rings.
Proof.
  intros Hlen Hnum Hcur. unfold draw_frame.
  destruct (numRings <=? currentRing) eqn:E; [by exists rings|].
  rewrite render_reads_ok by lia. simpl.
  destruct (currentRing <? numRings - 1) eqn:E'; [|by exists rings].
  destruct (generateNextRing_ok ruleset rings masks currentRing) as (rings' & -> & Hlen');
    [lia..|].
  by exists rings'.
Qed.

Lemma Constant_draw_ok (s : Constant.state) :
  Constant.ready s →
  ∃ s', Constant.draw s = Ok s' ∧ Constant.ready s' ∧ Constant.same_parameters s s'
        ∧ Constant.expansionMap s' = Constant.expansionMap s
        ∧ Constant.currentRing s'
          = if Constant.numRings s <=? Constant.currentRing s
            then Constant.currentRing s else Constant.currentRing s + 1.
Proof.
  intros (Hlen & Hnum & Hcur). unfold Constant.draw.
  destruct (draw_frame_ok (Constant.numRings s) (Constant.ruleset s)
              (Constant.expansionMap s) (Constant.rings s) (Constant.currentRing s))
    as (rings' & -> & Hlen'); [done..|].
  eexists. split; [done|]. unfold Constant.ready, Constant.same_parameters. simpl.
  rewrite Hlen'. repeat split; try done.
  destruct (Constant.numRings s <=? Constant.currentRing s); lia.
Qed.

(** Frames do not throw, keep the parameters, and reach the end of the
    run when there are enough of them. *)
Lemma Constant_frames_ok (k : nat) (s : Constant.state) :
  Constant.ready s →
  ∃ s', Constant.frames k s = Ok s' ∧ Constant.ready s' ∧ Constant.same_parameters s s'
        ∧ Constant.expansionMap s' = Constant.expansionMap s
        ∧ length (Constant.rings s') = length (Constant.rings s)
        ∧ (Constant.numRings s ≤ Constant.currentRing s + Z.of_nat k →
           Constant.numRings s ≤ Constant.currentRing s').
Proof.
  revert s. induction k as [|k IH]; intros s Hready.
  { exists s. simpl. split; [done|]. split; [done|].
    split; [by repeat split|]. split; [done|]. split; [done|]. lia. }
  destruct (Constant_draw_ok s Hready) as (s1 & Hdraw & Hready1 & Hsame1 & Hmap1 & Hcur1).
  destruct (IH s1 Hready1) as (s' & Hframes & Hready' & Hsame' & Hmap' & Hlen' & Hend).
  exists s'. simpl. rewrite Hdraw. simpl. split; [done|]. split; [done|].
  destruct Hsame1 as (? & Hnum & ? & ? & ?), Hsame' as (? & ? & ? & ? & ?).
  destruct Hready as (Hl & _ & _), Hready1 as (Hl1 & _ & _).
  split; [unfold Constant.same_parameters; repeat split; congruence|].
  split; [congruence|]. split; [by rewrite Hlen', Hl1, Hmap1, <- Hl|].
  intros Hk. rewrite Hnum. apply Hend. rewrite <- Hnum, Hcur1.
  destruct (Constant.numRings s <=? Constant.currentRing s) eqn:E; lia.
Qed.

(** ** The constant-interval sketch *)

(** Along a topology with a constant integer interval, the counts follow
    the growth rule. *)
Lemma topology_constant_growth (interval : Z) (rings : list (list value))
    (masks : list (list bool)) (r : nat) (prev cells : list value) :
  interval ≠ 0 →
  topology (λ _ _, Int interval) rings masks →
  rings !! r = Some prev → rings !! S r = Some cells →
  Z.of_nat (length cells)
  = Z.of_nat (length prev) + Z.of_nat (length prev) / interval.
Proof.
  intros Hk [_ Hsteps] Hprev Hcells.
  destruct (Hsteps r prev Hprev) as (cells' & mask & Hcells' & _ & Hbuild).
  { by apply lookup_lt_Some in Hcells. }
  assert (cells' = cells) as -> by congruence.
  pose proof (floor_quotient_bound (Z.of_nat (length prev)) interval ltac:(lia) Hk).
  unfold len in Hbuild. buildRing_Ok Hbuild.
  injection Hbuild as <- _. rewrite length_replicate. lia.
Qed.

(** The pre-calculation of the constant-interval sketch returns exactly
    when every ring count fits in an array; it throws a RangeError
    otherwise. *)
Lemma Constant_initializeSimulation_fits (s : Constant.state) :
  fits (λ _ _, Constant.expansionInterval s)
    (Constant.initialCellCount s) (Constant.numRings s) = true →
  ∃ s0,
    Constant.initializeSimulation s = Ok s0
    ∧ Constant.ready s0 ∧ Constant.same_parameters s s0
    ∧ Constant.currentRing s0 = 0
    ∧ topology (λ _ _, Constant.expansionInterval s)
        (Constant.rings s0) (Constant.expansionMap s0)
    ∧ counted (λ _ _, Constant.expansionInterval s) (Constant.initialCellCount s)
        (Constant.rings s0)
    ∧ length (Constant.rings s0) = S (Z.to_nat (Constant.numRings s - 1))
    ∧ Constant.rings s0 !! 0%nat
      = Some (first_ring (Constant.initialPattern s) (Constant.initialCellCount s)).
Proof.
  intros Hfits. unfold Constant.initializeSimulation.
  destruct (precalculate_ok _ _ (Constant.initialPattern s) _ Hfits)
    as (rings & masks & -> & Htop & Hcounted & Hlen & Hfirst & _).
  eexists. split; [done|]. unfold Constant.ready, Constant.same_parameters. simpl.
  destruct Htop as [Hpar Hsteps].
  split; [split; [done|split; lia]|]. split; [by repeat split|].
  split; [done|]. split; [by split|]. done.
Qed.

Lemma Constant_initializeSimulation_unfit (s : Constant.state) :
  fits (λ _ _, Constant.expansionInterval s)
    (Constant.initialCellCount s) (Constant.numRings s) = false →
  Constant.initializeSimulation s = Throw RangeError.
Proof.
  intros Hfits. unfold Constant.initializeSimulation.
  by rewrite precalculate_unfit.
Qed.

Lemma Constant_initializeSimulation_Ok_fits (s s0 : Constant.state) :
  Constant.initializeSimulation s = Ok s0 →
  fits (λ _ _, Constant.expansionInterval s)
    (Constant.initialCellCount s) (Constant.numRings s) = true.
Proof.
  intros Hok. destruct (fits _ _ _) eqn:E; [done|].
  by rewrite Constant_initializeSimulation_unfit in Hok.
Qed.

Lemma Constant_initializeSimulation_ok (s : Constant.state) (interval : Z) :
  0 ≤ Constant.initialCellCount s →
  Constant.expansionInterval s = Int interval → interval ≠ 0 →
  fits (λ _ _, Int interval) (Constant.initialCellCount s) (Constant.numRings s) = true →
  ∃ s0,
    Constant.initializeSimulation s = Ok s0
    ∧ Constant.ready s0 ∧ Constant.same_parameters s s0
    ∧ Constant.currentRing s0 = 0
    ∧ topology (λ _ _, Int interval) (Constant.rings s0) (Constant.expansionMap s0)
    ∧ Constant.rings s0 !! 0%nat
      = Some (first_ring (Constant.initialPattern s) (Constant.initialCellCount s)).
Proof.
  intros Hcount Hiv Hk Hfits. rewrite <- Hiv in Hfits |- *.
  destruct (Constant_initializeSimulation_fits s Hfits)
    as (s0 & Hinit & Hready & Hsame & Hcur & Htop & _ & _ & Hfirst).
  by exists s0.
Qed.

(** With a negative interval the rings shrink, so that every count fits
    as soon as the first one does. *)
Lemma ring_count_shrinks (interval c0 : Z) (r : nat) :
  interval < 0 → 0 ≤ c0 →
  ∃ z, ring_count (λ _ _, Int interval) c0 r = Int z ∧ 0 ≤ z ≤ c0.
Proof.
  intros Hk Hc0. induction r as [|r (z & IH & Hz)]; [exists c0; split; [done|lia]|].
  simpl. rewrite IH, buildRing_count by lia.
  exists (z + z / interval). split; [done|].
  pose proof (floor_quotient_bound z interval ltac:(lia) ltac:(lia)).
  assert (z / interval ≤ 0); [|lia].
  rewrite <- Z.div_opp_opp by lia. apply Z.div_le_upper_bound; [lia|]. nia.
Qed.

Lemma fits_negative_interval (interval c0 numRings : Z) :
  interval < 0 → 0 ≤ c0 ≤ max_array_length →
  fits (λ _ _, Int interval) c0 numRings = true.
Proof.
  intros Hk Hc0. apply fits_spec. intros r _.
  destruct (ring_count_shrinks interval c0 r) as (z & -> & Hz); [lia..|].
  apply allocatable_Int. lia.
Qed.

(** With a non-zero integer interval every count is an integer, the
    count before it plus the floor quotient. *)
Lemma ring_count_nonzero (interval c0 : Z) (r : nat) :
  interval ≠ 0 →
  ∃ z, ring_count (λ _ _, Int interval) c0 r = Int z
       ∧ ring_count (λ _ _, Int interval) c0 (S r) = Int (z + z / interval).
Proof.
  intros Hk. induction r as [|r (z & Hz & HS)].
  - exists c0. split; [done|].
    change (ring_count (λ _ _, Int interval) c0 1)
      with (add (Int c0) (floor_div (Int c0) (Int interval))).
    by apply buildRing_count.
  - exists (z + z / interval). split; [done|].
    change (ring_count (λ _ _, Int interval) c0 (S (S r)))
      with (add (ring_count (λ _ _, Int interval) c0 (S r))
              (floor_div (ring_count (λ _ _, Int interval) c0 (S r)) (Int interval))).
    rewrite HS. by apply buildRing_count.
Qed.

(** C7, as the code has it.  In the constant-interval sketch the supplied
    interval is taken as it is, without validation.  For a non-zero integer,
    be it negative or not a divisor of any ring, the floor division is
    defined: every ring count is an integer, the count before it plus
    [floor(prevCount / interval)].  The only error left is that of an
    array that cannot be made: when every ring count is at most 2^32-1 the
    rings are pre-calculated with these counts and all the frames of the
    run are drawn without an error, and a negative interval always stays
    within that limit; when a count exceeds the limit, [new Array] throws a
    RangeError. *)
Theorem constant_interval_taken_as_is (count rings_wanted interval : Z)
    (rulesetStr patternStr : string) (s : Constant.state) :
  0 ≤ count → interval ≠ 0 →
  (∀ r : nat,
     ∃ z, ring_count (λ _ _, Int interval) count r = Int z
          ∧ ring_count (λ _ _, Int interval) count (S r) = Int (z + z / interval))
  ∧ (fits (λ _ _, Int interval) count rings_wanted = true →
   ∃ s0 s',
     Constant.restartSimulation count rings_wanted (Int interval) rulesetStr patternStr s
     = Ok s0
     ∧ Constant.expansionInterval s0 = Int interval
     ∧ (∀ (r : nat) prev cells,
          Constant.rings s0 !! r = Some prev → Constant.rings s0 !! S r = Some cells →
          Z.of_nat (length cells)
          = Z.of_nat (length prev) + Z.of_nat (length prev) / interval)
     ∧ Constant.frames (Z.to_nat (Constant.numRings s0) + 1) s0 = Ok s'
     ∧ Constant.numRings s' ≤ Constant.currentRing s')
  ∧ (fits (λ _ _, Int interval) count rings_wanted = false →
     Constant.restartSimulation count rings_wanted (Int interval) rulesetStr patternStr s
     = Throw RangeError)
  ∧ (interval < 0 → count ≤ max_array_length →
     fits (λ _ _, Int interval) count rings_wanted = true).
Proof.
  intros Hcount Hk. unfold Constant.restartSimulation.
  set (s1 := Constant.Build_state _ _ _ _ _ _ _ _).
  split; [|split; [|split]].
  - intros r. by apply ring_count_nonzero.
  - intros Hfits.
    destruct (Constant_initializeSimulation_ok s1 interval) as
      (s0 & Hinit & Hready & Hsame & Hcur & Htop & _); [done..|].
    destruct (Constant_frames_ok (Z.to_nat (Constant.numRings s0) + 1) s0 Hready) as
      (s' & Hframes & _ & Hsame' & _ & _ & Hend).
    exists s0, s'. split; [done|].
    destruct Hsame as (_ & _ & Hiv & _), Hsame' as (_ & Hnum & _).
    split; [by rewrite <- Hiv|]. split.
    + intros r prev cells.
      by apply (topology_constant_growth interval _ (Constant.expansionMap s0)).
    + split; [done|]. rewrite <- Hnum. apply Hend. rewrite Hcur. lia.
  - intros Hfits. by apply Constant_initializeSimulation_unfit.
  - intros Hneg Hmax. apply fits_negative_interval; lia.
Qed.

Lemma constant_interval_taken_as_is_witness :
  let s := Constant.Build_state 8 15 (Int 5) [] [] [] [] 0 in
  0 ≤ 8 ∧ -3 ≠ 0 ∧ fits (λ _ _, Int (-3)) 8 4 = true
  ∧ ∃ s0 s',
      Constant.restartSimulation 8 4 (Int (-3)) "01011010" "1,0,1,0,1,0,1,0" s = Ok s0
      ∧ Constant.expansionInterval s0 = Int (-3)
      ∧ (∀ (r : nat) prev cells,
           Constant.rings s0 !! r = Some prev → Constant.rings s0 !! S r = Some cells →
           Z.of_nat (length cells)
           = Z.of_nat (length prev) + Z.of_nat (length prev) / -3)
      ∧ Constant.frames (Z.to_nat (Constant.numRings s0) + 1) s0 = Ok s'
      ∧ Constant.numRings s' ≤ Constant.currentRing s'.
Proof.
  intros s.
  assert (Hfits : fits (λ _ _, Int (-3)) 8 4 = true) by reflexivity.
  split; [lia|]. split; [lia|]. split; [exact Hfits|].
  exact (proj1 (proj2 (constant_interval_taken_as_is 8 4 (-3) "01011010"
                         "1,0,1,0,1,0,1,0" s ltac:(lia) ltac:(lia))) Hfits).
Defined.

(** C7, as the claim states it, fails: the interval is not validated.  An
    interval of 0 reaches the floor division, whose result is Infinity, and
    the allocation of the next ring throws a RangeError. *)
Lemma constant_interval_zero_throws :
  let s := Constant.Build_state 8 15 (Int 5) [] [] [] [] 0 in
  floor_div (Int 8) (Int 0) = PosInf
  ∧ buildRing (Int 8) (Int 0) = Throw RangeError
  ∧ Constant.restartSimulation 8 3 (Int 0) "01011010" "1,0,1,0,1,0,1,0" s
    = Throw RangeError.
Proof. vm_compute. repeat split. Qed.

(** With 8 cells and the interval 1 every ring doubles: ring 29 would need
    2^32 cells, and the pre-calculation of 30 rings throws. *)
Example constant_interval_beyond_limit :
  let s := Constant.Build_state 8 15 (Int 5) [] [] [] [] 0 in
  ring_count (λ _ _, Int 1) 8 28 = Int 2147483648
  ∧ ring_count (λ _ _, Int 1) 8 29 = Int 4294967296
  ∧ fits (λ _ _, Int 1) 8 29 = true
  ∧ fits (λ _ _, Int 1) 8 30 = false
  ∧ Constant.restartSimulation 8 30 (Int 1) "01011010" "1,0,1,0,1,0,1,0" s
    = Throw RangeError.
Proof.
  intros s.
  assert (Hunfit : fits (λ _ _, Int 1) 8 30 = false) by (vm_compute; reflexivity).
  do 3 (split; [vm_compute; reflexivity|]). split; [exact Hunfit|].
  unfold Constant.restartSimulation. apply Constant_initializeSimulation_unfit.
  cbn [Constant.expansionInterval Constant.initialCellCount Constant.numRings].
  exact Hunfit.
Qed.

Lemma split_join_bits (pattern : list value) :
  Forall is_bit_value pattern → pattern ≠ [] →
  split "," (join "," pattern) = to_string <$> pattern.
Proof.
  induction pattern as [|v [|w rest] IH]; intros Hbits Hne; [done|..].
  - apply Forall_cons in Hbits as [[-> | ->] _]; reflexivity.
  - apply Forall_cons in Hbits as [Hv Hrest].
    specialize (IH Hrest ltac:(done)).
    change (join "," (v :: w :: rest))
      with (join_item v +:+ "," +:+ join "," (w :: rest)).
    change (to_string <$> v :: w :: rest)
      with (to_string v :: (to_string <$> w :: rest)).
    rewrite <- IH. by destruct Hv as [-> | ->].
Qed.

Lemma read_tokens_bits (pattern : list value) :
  Forall is_bit_value pattern →
  Num <$> filter (λ val, is_bit val)
            ((λ val, parseInt (trim val) 0) <$> (to_string <$> pattern))
  = pattern.
Proof.
  induction 1 as [|v rest Hv _ IH]; [done|].
  rewrite !fmap_cons.
  destruct Hv as [-> | ->];
    (rewrite filter_cons_True by done); rewrite fmap_cons, IH; done.
Qed.

Lemma read_pattern_join (pattern : list value) :
  Forall is_bit_value pattern → read_pattern (join "," pattern) = pattern.
Proof.
  intros Hbits. destruct (decide (pattern = [])) as [->|Hne]; [done|].
  unfold read_pattern. rewrite split_join_bits by done. by apply read_tokens_bits.
Qed.

Lemma kept_bits_filter (tokens : list string) :
  Num <$> filter (λ val, is_bit val) ((λ val, parseInt (trim val) 0) <$> tokens)
  = kept_bits tokens.
Proof.
  induction tokens as [|token tokens IH]; [done|].
  rewrite fmap_cons, filter_cons.
  change (kept_bits (token :: tokens))
    with (match parseInt (trim token) 0 with
          | Int 0 => [bit 0]
          | Int 1 => [bit 1]
          | _ => []
          end ++ kept_bits tokens).
  rewrite <- IH.
  destruct (parseInt (trim token) 0) as [[|[q|q|]|q]| | |]; done.
Qed.

(** C9.  Whatever the pattern string.  Parsing keeps, in their order,
    exactly the tokens whose value is 0 or 1 and drops the others, so that
    the parsed pattern holds bits only and a text of bits separated by
    commas is read as it is.  The reconciled pattern has exactly
    [initialCellCount] cells: it is the parsed pattern when the lengths
    agree, and otherwise cell [i] is [parsed[i mod oldLength]], or 0 when
    nothing was parsed; the first ring that [initializeSimulation] makes
    from it is the reconciled pattern itself.  Nothing of this throws:
    [restartSimulation] returns whenever the counts of the rings fit in
    arrays, as they do when only the first ring is made, and otherwise
    throws the RangeError of [new Array].  And [initializeSimulation] on any
    pattern truncates it to [initialCellCount] cells or pads it with zeros
    on the right. *)
Theorem initial_pattern_reconciled (count rings_wanted : Z) (interval : number)
    (rulesetStr patternStr : string) (s : Constant.state) :
  0 ≤ count ≤ max_array_length →
  let parsed := read_pattern patternStr in
  let fitted := fit_pattern parsed count in
  (Forall (λ v, v = bit 0 ∨ v = bit 1) parsed
   ∧ parsed = kept_bits (split "," patternStr)
   ∧ ∀ bits, Forall (λ v, v = bit 0 ∨ v = bit 1) bits →
       read_pattern (join "," bits) = bits)
  ∧ (Z.of_nat (length fitted) = count
     ∧ first_ring fitted count = fitted
     ∧ (Z.of_nat (length parsed) = count → fitted = parsed)
     ∧ (Z.of_nat (length parsed) ≠ count →
        ∀ i, 0 ≤ i < count →
          ∃ cell,
            fitted !! Z.to_nat i = Some cell
            ∧ (parsed = [] → cell = bit 0)
            ∧ (parsed ≠ [] →
               parsed !! Z.to_nat (i `mod` Z.of_nat (length parsed)) = Some cell)))
  ∧ ((fits (λ _ _, interval) count rings_wanted = true →
      ∃ s0,
        Constant.restartSimulation count rings_wanted interval rulesetStr patternStr s
        = Ok s0
        ∧ Constant.rings s0 !! 0%nat = Some fitted
        ∧ Constant.initialPattern s0 = fitted)
     ∧ (fits (λ _ _, interval) count rings_wanted = false →
        Constant.restartSimulation count rings_wanted interval rulesetStr patternStr s
        = Throw RangeError)
     ∧ (rings_wanted ≤ 1 → fits (λ _ _, interval) count rings_wanted = true))
  ∧ (∀ s1, Constant.initialCellCount s1 = count →
           Constant.expansionInterval s1 = interval →
           fits (λ _ _, interval) count (Constant.numRings s1) = true →
       ∃ s2,
         Constant.initializeSimulation s1 = Ok s2
         ∧ Constant.rings s2 !! 0%nat
           = Some (take (Z.to_nat count) (Constant.initialPattern s1)
                   ++ replicate (Z.to_nat count - length (Constant.initialPattern s1))
                        (bit 0))).
Proof.
  intros Hcount parsed fitted.
  pose proof (read_pattern_bits patternStr) as Hbits. fold parsed in Hbits.
  split; [|split; [|split]].
  - split; [done|]. split; [exact (kept_bits_filter (split "," patternStr))|].
    intros bits Hb. by apply read_pattern_join.
  - split; [by apply fit_pattern_length; lia|].
    split; [by apply first_ring_fitted, fit_pattern_length; lia|].
    split; [by apply fit_pattern_same|].
    intros Hne i Hi. unfold fitted. rewrite fit_pattern_rebuilt by done.
    destruct (fit_pattern_cyclic parsed i Hbits) as (cell & Hcell & Hnil & Hcyc); [lia|].
    exists cell. split; [|done].
    rewrite list_lookup_fmap, lookup_seqZ_lt by lia.
    replace (0 + Z.of_nat (Z.to_nat i)) with i by lia.
    cbn [fmap option_fmap option_map]. by rewrite Hcell.
  - unfold Constant.restartSimulation. fold parsed. fold fitted.
    set (s1 := Constant.Build_state _ _ _ _ _ _ _ _).
    split; [|split].
    + intros Hfits.
      destruct (Constant_initializeSimulation_fits s1 Hfits)
        as (s0 & Hinit & _ & Hsame & _ & _ & _ & _ & Hfirst).
      simpl in Hfirst.
      rewrite first_ring_fitted in Hfirst by (by apply fit_pattern_length; lia).
      exists s0. split; [done|]. split; [done|].
      destruct Hsame as (_ & _ & _ & _ & Hpat). by rewrite <- Hpat.
    + intros Hfits. by apply Constant_initializeSimulation_unfit.
    + intros Hone. apply fits_spec. intros r Hr.
      replace r with 0%nat by lia. apply allocatable_Int. lia.
  - intros s1 Hc1 Hiv Hfits. rewrite <- Hc1, <- Hiv in Hfits.
    destruct (Constant_initializeSimulation_fits s1 Hfits)
      as (s2 & Hinit & _ & _ & _ & _ & _ & _ & Hfirst).
    exists s2. split; [done|]. rewrite Hfirst, Hc1.
    by destruct (first_ring_eq (Constant.initialPattern s1) count ltac:(lia)) as [-> _].
Qed.

Lemma initial_pattern_reconciled_witness :
  let s := Constant.Build_state 8 15 (Int 5) [] [] [] [] 0 in
  let fitted := fit_pattern (read_pattern "1, x,0,7") 5 in
  0 ≤ 5 ≤ max_array_length
  ∧ read_pattern "1, x,0,7" = [bit 1; bit 0]
  ∧ read_pattern "1, x,0,7" = kept_bits (split "," "1, x,0,7")
  ∧ fitted = [bit 1; bit 0; bit 1; bit 0; bit 1]
  ∧ Z.of_nat (length fitted) = 5
  ∧ first_ring fitted 5 = fitted.
Proof.
  intros s fitted.
  assert (Hcount : 0 ≤ 5 ≤ max_array_length) by (split; vm_compute; discriminate).
  destruct (initial_pattern_reconciled 5 3 (Int 2) "01011010" "1, x,0,7" s Hcount)
    as ((_ & Hkept & _) & (Hlen & Hfirst & _) & _).
  split; [exact Hcount|]. split; [reflexivity|]. split; [exact Hkept|].
  split; [reflexivity|]. split; [exact Hlen|exact Hfirst].
Defined.

Example read_intervals_examples :
  Scheduled.read_intervals (λ r, if r =? 1 then None else Some "4") 4
  = [Num (Int 4); Undefined; Num (Int 4)]
  ∧ Scheduled.read_intervals (λ _, None) 4 = [].
Proof. vm_compute. repeat split. Qed.

Example read_pattern_examples :
  read_pattern "1, x,0,7" = [bit 1; bit 0]
  ∧ fit_pattern [bit 1; bit 0] 5 = [bit 1; bit 0; bit 1; bit 0; bit 1]
  ∧ fit_pattern [] 3 = [bit 0; bit 0; bit 0]
  ∧ fit_pattern [bit 1; bit 0; bit 1] 2 = [bit 1; bit 0]
  ∧ first_ring [bit 1] 3 = [bit 1; bit 0; bit 0]
  ∧ first_ring [bit 1; bit 1; bit 0] 2 = [bit 1; bit 1].
Proof. vm_compute. repeat split. Qed.

(** ** Runs *)

Lemma Constant_initializeSimulation_ext (s1 s2 : Constant.state) :
  Constant.same_parameters s1 s2 →
  Constant.initializeSimulation s1 = Constant.initializeSimulation s2.
Proof.
  destruct s1, s2. unfold Constant.same_parameters, Constant.initializeSimulation.
  simpl. by intros (-> & -> & -> & -> & ->).
Qed.

Lemma Constant_initializeSimulation_parameters (s s0 : Constant.state) :
  Constant.initializeSimulation s = Ok s0 → Constant.same_parameters s s0.
Proof.
  unfold Constant.initializeSimulation.
  destruct (precalculate _ _ _ _) as [[rings masks]|e]; simpl; [|done].
  intros [= <-]. by repeat split.
Qed.

Lemma Constant_draw_parameters (s s' : Constant.state) :
  Constant.draw s = Ok s' → Constant.same_parameters s s'.
Proof.
  unfold Constant.draw.
  destruct (draw_frame _ _ _ _ _) as [[rings cur]|e]; simpl; [|done].
  intros [= <-]. by repeat split.
Qed.

Lemma Constant_same_parameters_trans (s1 s2 s3 : Constant.state) :
  Constant.same_parameters s1 s2 → Constant.same_parameters s2 s3 →
  Constant.same_parameters s1 s3.
Proof.
  unfold Constant.same_parameters.
  intros (? & ? & ? & ? & ?) (? & ? & ? & ? & ?). repeat split; congruence.
Qed.

Lemma Constant_frames_parameters (k : nat) (s s' : Constant.state) :
  Constant.frames k s = Ok s' → Constant.same_parameters s s'.
Proof.
  revert s. induction k as [|k IH]; intros s; simpl.
  - intros [= <-]. by repeat split.
  - destruct (Constant.draw s) as [s1|e] eqn:Hdraw; simpl; [|done].
    intros Hframes. eapply Constant_same_parameters_trans.
    + by apply Constant_draw_parameters.
    + by apply IH.
Qed.

Lemma Constant_run_ext (s1 s2 : Constant.state) :
  Constant.same_parameters s1 s2 → Constant.run s1 = Constant.run s2.
Proof.
  intros Hsame. unfold Constant.run.
  by rewrite (Constant_initializeSimulation_ext s1 s2).
Qed.

Lemma Constant_run_again (s s' : Constant.state) :
  Constant.run s = Ok s' → Constant.run s' = Ok s'.
Proof.
  intros Hrun. rewrite <- Hrun. symmetry. apply Constant_run_ext.
  unfold Constant.run in Hrun.
  destruct (Constant.initializeSimulation s) as [s0|e] eqn:Hinit; simpl in Hrun; [|done].
  eapply Constant_same_parameters_trans.
  - by apply Constant_initializeSimulation_parameters.
  - by eapply Constant_frames_parameters.
Qed.

Lemma Constant_run_ok (s : Constant.state) :
  fits (λ _ _, Constant.expansionInterval s)
    (Constant.initialCellCount s) (Constant.numRings s) = true →
  ∃ s', Constant.run s = Ok s' ∧ Constant.numRings s' ≤ Constant.currentRing s'
        ∧ length (Constant.rings s') = length (Constant.expansionMap s')
        ∧ Constant.numRings s' ≤ Z.of_nat (length (Constant.rings s')).
Proof.
  intros Hfits. unfold Constant.run.
  destruct (Constant_initializeSimulation_fits s Hfits) as
    (s0 & -> & Hready & _ & Hcur & _). simpl.
  destruct (Constant_frames_ok (Z.to_nat (Constant.numRings s0) + 1) s0 Hready) as
    (s' & -> & (Hpar & Hnum' & _) & (_ & Hnum & _) & _ & _ & Hend).
  exists s'. split; [done|]. split; [|done].
  rewrite <- Hnum. apply Hend. rewrite Hcur. lia.
Qed.

(** *** The variable-interval sketch *)

Lemma planner_valid_schedule (initialCellCount numRings : Z) :
  1 ≤ initialCellCount →
  valid_schedule (Scheduled.initializeExpansionIntervals initialCellCount numRings).
Proof.
  intros Hn. unfold Scheduled.initializeExpansionIntervals.
  destruct (decide (0 ≤ numRings - 1)) as [Hr|Hr].
  2: { unfold Scheduled.plan_upto. rewrite seqZ_nil by lia. constructor. }
  rewrite <- (Z2Nat.id (numRings - 1)) by done.
  generalize (Z.to_nat (numRings - 1)) as k. intros k.
  induction k as [|k IH]; [constructor|].
  rewrite plan_upto_S.
  destruct (plan_upto_count initialCellCount k Hn) as (c & Hc & Hc1 & _).
  destruct (Scheduled.plan_upto initialCellCount (Z.of_nat k)) as [count chosen].
  simpl in Hc, IH. subst count.
  destruct (plan_interval_Int c (Z.of_nat k) chosen) as (iv & -> & _ & _ & Hiv); [lia..|].
  simpl. apply Forall_app. split; [done|]. apply Forall_singleton.
  exists iv. split; [done|lia].
Qed.

Lemma Scheduled_interval_for_ok (expansionIntervals : list value) (r p : Z) :
  valid_schedule expansionIntervals → 1 ≤ r → 1 ≤ p →
  ∃ k, Scheduled.interval_for expansionIntervals r (Int p) = Int k
       ∧ k ≠ 0 ∧ 1 ≤ p + p / k.
Proof.
  intros Hvalid Hr Hp. unfold Scheduled.interval_for, get.
  destruct (0 <=? r - 1) eqn:E; [|lia].
  destruct (expansionIntervals !! Z.to_nat (r - 1)) as [v|] eqn:Hv; simpl.
  - unfold valid_schedule in Hvalid. rewrite Forall_forall in Hvalid.
    destruct (Hvalid v) as (z & -> & Hz); [by eapply list_elem_of_lookup_2|].
    exists z. unfold or_else. simpl. destruct (z =? 0) eqn:Ez; [lia|]. simpl.
    pose proof (Z.div_pos p z ltac:(lia) ltac:(lia)).
    split; [done|]. split; lia.
  - exists p. unfold or_else. simpl.
    pose proof (Z.div_pos p p ltac:(lia) ltac:(lia)).
    split; [done|]. split; lia.
Qed.

(** The pre-calculation of the variable-interval sketch returns exactly
    when every ring count fits in an array; it throws a RangeError
    otherwise. *)
Lemma Scheduled_initializeSimulation_fits (s : Scheduled.state) :
  fits (Scheduled.interval_for (schedule_in_use s))
    (Scheduled.initialCellCount s) (Scheduled.numRings s) = true →
  ∃ s0,
    Scheduled.initializeSimulation s = Ok s0
    ∧ Scheduled.ready s0
    ∧ Scheduled.currentRing s0 = 0
    ∧ Scheduled.numRings s0 = Scheduled.numRings s
    ∧ Scheduled.ruleset s0 = Scheduled.ruleset s
    ∧ Scheduled.initialCellCount s0 = Scheduled.initialCellCount s
    ∧ Scheduled.expansionIntervals s0 = schedule_in_use s
    ∧ topology (Scheduled.interval_for (schedule_in_use s))
        (Scheduled.rings s0) (Scheduled.expansionMap s0)
    ∧ counted (Scheduled.interval_for (schedule_in_use s)) (Scheduled.initialCellCount s)
        (Scheduled.rings s0)
    ∧ length (Scheduled.rings s0) = S (Z.to_nat (Scheduled.numRings s - 1))
    ∧ Scheduled.rings s0 !! 0%nat
      = Some (first_ring (Scheduled.initialPattern s) (Scheduled.initialCellCount s)).
Proof.
  intros Hfits. unfold Scheduled.initializeSimulation.
  fold (schedule_in_use s).
  destruct (precalculate_ok _ _ (Scheduled.initialPattern s) _ Hfits)
    as (rings & masks & -> & Htop & Hcounted & Hlen & Hfirst & _).
  eexists. split; [done|]. unfold Scheduled.ready. simpl.
  destruct Htop as [Hpar Hsteps].
  split; [split; [done|split; lia]|]. do 5 (split; [done|]).
  split; [by split|]. by split.
Qed.

Lemma Scheduled_initializeSimulation_unfit (s : Scheduled.state) :
  fits (Scheduled.interval_for (schedule_in_use s))
    (Scheduled.initialCellCount s) (Scheduled.numRings s) = false →
  Scheduled.initializeSimulation s = Throw RangeError.
Proof.
  intros Hfits. unfold Scheduled.initializeSimulation. fold (schedule_in_use s).
  by rewrite precalculate_unfit.
Qed.

Lemma Scheduled_initializeSimulation_Ok_fits (s s0 : Scheduled.state) :
  Scheduled.initializeSimulation s = Ok s0 →
  fits (Scheduled.interval_for (schedule_in_use s))
    (Scheduled.initialCellCount s) (Scheduled.numRings s) = true.
Proof.
  intros Hok. destruct (fits _ _ _) eqn:E; [done|].
  by rewrite Scheduled_initializeSimulation_unfit in Hok.
Qed.

Lemma Scheduled_initializeSimulation_ok (s : Scheduled.state) :
  1 ≤ Scheduled.initialCellCount s →
  valid_schedule (Scheduled.expansionIntervals s) →
  fits (Scheduled.interval_for (schedule_in_use s))
    (Scheduled.initialCellCount s) (Scheduled.numRings s) = true →
  ∃ s0,
    Scheduled.initializeSimulation s = Ok s0
    ∧ Scheduled.ready s0
    ∧ Scheduled.currentRing s0 = 0
    ∧ Scheduled.numRings s0 = Scheduled.numRings s
    ∧ Scheduled.expansionIntervals s0 = schedule_in_use s
    ∧ topology (Scheduled.interval_for (schedule_in_use s))
        (Scheduled.rings s0) (Scheduled.expansionMap s0)
    ∧ length (Scheduled.rings s0) = S (Z.to_nat (Scheduled.numRings s - 1))
    ∧ Scheduled.rings s0 !! 0%nat
      = Some (first_ring (Scheduled.initialPattern s) (Scheduled.initialCellCount s)).
Proof.
  intros Hcount Hvalid Hfits.
  destruct (Scheduled_initializeSimulation_fits s Hfits)
    as (s0 & Hinit & Hready & Hcur & Hnum & _ & _ & Hsched & Htop & _ & Hlen & Hfirst).
  by exists s0.
Qed.

(** Along a topology built on a schedule, a transition whose interval is
    a positive integer follows the growth rule. *)
Lemma topology_schedule_growth (expansionIntervals : list value)
    (rings : list (list value)) (masks : list (list bool))
    (r : nat) (prev cells : list value) (interval : Z) :
  topology (Scheduled.interval_for expansionIntervals) rings masks →
  rings !! r = Some prev → rings !! S r = Some cells →
  expansionIntervals !! r = Some (Num (Int interval)) → 1 ≤ interval →
  Z.of_nat (length cells)
  = Z.of_nat (length prev) + Z.of_nat (length prev) / interval.
Proof.
  intros [_ Hsteps] Hprev Hcells Hiv Hk.
  destruct (Hsteps r prev Hprev) as (cells' & mask & Hcells' & _ & Hbuild).
  { by apply lookup_lt_Some in Hcells. }
  assert (cells' = cells) as -> by congruence.
  assert (Hfor : Scheduled.interval_for expansionIntervals (Z.of_nat (S r)) (len prev)
                 = Int interval).
  { unfold Scheduled.interval_for.
    replace (Z.of_nat (S r) - 1) with (Z.of_nat r) by lia.
    rewrite (get_Some _ _ (Num (Int interval))) by (lia || by rewrite Nat2Z.id).
    unfold or_else. simpl. by destruct (interval =? 0) eqn:E0; [lia|]. }
  rewrite Hfor in Hbuild.
  pose proof (Z.div_pos (Z.of_nat (length prev)) interval ltac:(lia) ltac:(lia)).
  unfold len in Hbuild. buildRing_Ok Hbuild.
  injection Hbuild as <- _. rewrite length_replicate. lia.
Qed.

(** The count that the planner holds at transition [r] is the number of
    cells of ring [r] of the run that uses the planned schedule. *)
Lemma planner_counts_are_ring_counts (s s0 : Scheduled.state) (r : nat)
    (ring : list value) :
  1 ≤ Scheduled.initialCellCount s →
  Scheduled.expansionIntervals s = [] →
  Scheduled.initializeSimulation s = Ok s0 →
  Scheduled.rings s0 !! r = Some ring →
  (Scheduled.plan_upto (Scheduled.initialCellCount s) (Z.of_nat r)).1
  = Int (Z.of_nat (length ring)).
Proof.
  intros Hcount Hempty Hinit.
  destruct (Scheduled_initializeSimulation_ok s Hcount) as
    (s0' & Hinit' & _ & _ & _ & _ & Htop & Hlen & Hfirst).
  { rewrite Hempty. constructor. }
  { by eapply Scheduled_initializeSimulation_Ok_fits. }
  assert (s0' = s0) as -> by congruence.
  assert (Hsched : schedule_in_use s
                   = Scheduled.initializeExpansionIntervals
                       (Scheduled.initialCellCount s) (Scheduled.numRings s)).
  { unfold schedule_in_use. by rewrite Hempty. }
  rewrite Hsched in Htop.
  revert ring. induction r as [|r IH]; intros ring Hring.
  - rewrite Hfirst in Hring. injection Hring as <-.
    destruct (first_ring_eq (Scheduled.initialPattern s) (Scheduled.initialCellCount s))
      as [_ ->]; [lia|done].
  - destruct (lookup_lt_is_Some_2 (Scheduled.rings s0) r) as [prev Hprev].
    { apply lookup_lt_Some in Hring. lia. }
    specialize (IH prev Hprev).
    destruct (planner_transition (Scheduled.initialCellCount s) (Scheduled.numRings s)
                (Z.of_nat r)) as (count & iv & Hc & Hiv & HS & _ & _ & Hbound).
    { done. }
    { apply lookup_lt_Some in Hring. lia. }
    rewrite Nat2Z.id in Hiv.
    assert (count = Z.of_nat (length prev)) as -> by congruence.
    replace (Z.of_nat (S r)) with (Z.of_nat r + 1) by lia. rewrite HS. f_equal.
    symmetry. by eapply topology_schedule_growth; [done..|lia].
Qed.

(** C4.  With an initial ring of at least one cell, at every transition
    [r] of the schedule the planner holds the cell count of the current
    ring (the count follows the growth rule, and it is the length of ring
    [r] of a run on the planned schedule); it selects [r + 2] unless
    [r + 2] exceeds that count, and otherwise the largest divisor above 1
    of the count, or the count itself when it has no such divisor; the
    selected interval is at least 1 and at most the count. *)
Theorem planner_interval_within_ring (initialCellCount numRings r : Z) :
  1 ≤ initialCellCount → 0 ≤ r < numRings - 1 →
  ∃ count interval,
    (Scheduled.plan_upto initialCellCount r).1 = Int count
    ∧ Scheduled.initializeExpansionIntervals initialCellCount numRings !! Z.to_nat r
      = Some (Num (Int interval))
    ∧ (Scheduled.plan_upto initialCellCount (r + 1)).1 = Int (count + count / interval)
    ∧ (r + 2 ≤ count → interval = r + 2)
    ∧ (r + 2 > count →
       largest_divisor_above_1 count interval
       ∨ (¬ (∃ d, 1 < d ∧ (d | count)) ∧ interval = count))
    ∧ 1 ≤ interval ≤ count
    ∧ ∀ s s0 ring,
        Scheduled.initialCellCount s = initialCellCount →
        Scheduled.expansionIntervals s = [] →
        Scheduled.initializeSimulation s = Ok s0 →
        Scheduled.rings s0 !! Z.to_nat r = Some ring →
        Z.of_nat (length ring) = count.
Proof.
  intros Hn Hr.
  destruct (planner_transition initialCellCount numRings r Hn Hr) as
    (count & interval & Hc & Hiv & HS & Hreg & Hfall & Hbound).
  exists count, interval. repeat (split; [done|]).
  intros s s0 ring <- Hempty Hinit Hring.
  pose proof (planner_counts_are_ring_counts s s0 (Z.to_nat r) ring Hn Hempty Hinit Hring)
    as Hcount.
  rewrite Z2Nat.id in Hcount by lia. congruence.
Qed.

Lemma planner_interval_within_ring_witness :
  1 ≤ 2 ∧ 0 ≤ 1 < 4 - 1
  ∧ ∃ count interval,
      (Scheduled.plan_upto 2 1).1 = Int count
      ∧ Scheduled.initializeExpansionIntervals 2 4 !! Z.to_nat 1 = Some (Num (Int interval))
      ∧ (Scheduled.plan_upto 2 (1 + 1)).1 = Int (count + count / interval)
      ∧ (1 + 2 ≤ count → interval = 1 + 2)
      ∧ (1 + 2 > count →
         largest_divisor_above_1 count interval
         ∨ (¬ (∃ d, 1 < d ∧ (d | count)) ∧ interval = count))
      ∧ 1 ≤ interval ≤ count.
Proof.
  split; [lia|]. split; [lia|].
  destruct (planner_interval_within_ring 2 4 1) as
    (count & interval & Hc & Hiv & HS & Hreg & Hfall & Hbound & _); [lia..|].
  exists count, interval. repeat (split; [assumption|]). assumption.
Defined.

Lemma Scheduled_draw_ok (s : Scheduled.state) :
  Scheduled.ready s →
  ∃ s', Scheduled.draw s = Ok s' ∧ Scheduled.ready s' ∧ Scheduled.same_parameters s s'
        ∧ Scheduled.currentRing s'
          = if Scheduled.numRings s <=? Scheduled.currentRing s
            then Scheduled.currentRing s else Scheduled.currentRing s + 1.
Proof.
  intros (Hlen & Hnum & Hcur). unfold Scheduled.draw.
  destruct (draw_frame_ok (Scheduled.numRings s) (Scheduled.ruleset s)
              (Scheduled.expansionMap s) (Scheduled.rings s) (Scheduled.currentRing s))
    as (rings' & -> & Hlen'); [done..|].
  eexists. split; [done|]. unfold Scheduled.ready, Scheduled.same_parameters. simpl.
  rewrite Hlen'. repeat split; try done.
  destruct (Scheduled.numRings s <=? Scheduled.currentRing s); lia.
Qed.

Lemma Scheduled_frames_ok (k : nat) (s : Scheduled.state) :
  Scheduled.ready s →
  ∃ s', Scheduled.frames k s = Ok s' ∧ Scheduled.ready s'
        ∧ Scheduled.same_parameters s s'
        ∧ (Scheduled.numRings s ≤ Scheduled.currentRing s + Z.of_nat k →
           Scheduled.numRings s ≤ Scheduled.currentRing s').
Proof.
  revert s. induction k as [|k IH]; intros s Hready.
  { exists s. simpl. split; [done|]. split; [done|]. split; [by repeat split|]. lia. }
  destruct (Scheduled_draw_ok s Hready) as (s1 & Hdraw & Hready1 & Hsame1 & Hcur1).
  destruct (IH s1 Hready1) as (s' & Hframes & Hready' & Hsame' & Hend).
  exists s'. simpl. rewrite Hdraw. simpl. split; [done|]. split; [done|].
  destruct Hsame1 as (? & Hnum & ? & ? & ?), Hsame' as (? & ? & ? & ? & ?).
  split; [unfold Scheduled.same_parameters; repeat split; congruence|].
  intros Hk. rewrite Hnum. apply Hend. rewrite <- Hnum, Hcur1.
  destruct (Scheduled.numRings s <=? Scheduled.currentRing s) eqn:E; lia.
Qed.

Lemma Scheduled_initializeSimulation_ext (s1 s2 : Scheduled.state) :
  Scheduled.same_parameters s1 s2 →
  Scheduled.initializeSimulation s1 = Scheduled.initializeSimulation s2.
Proof.
  destruct s1, s2. unfold Scheduled.same_parameters, Scheduled.initializeSimulation.
  simpl. by intros (-> & -> & -> & -> & ->).
Qed.

(** Initialising again from an initialised state changes nothing: the
    schedule chosen the first time is the one in use the second time. *)
Lemma Scheduled_initializeSimulation_again (s s0 : Scheduled.state) :
  Scheduled.initializeSimulation s = Ok s0 →
  Scheduled.initializeSimulation s0 = Ok s0.
Proof.
  unfold Scheduled.initializeSimulation. fold (schedule_in_use s).
  destruct (precalculate _ _ _ _) as [[rings masks]|e] eqn:Hpre; simpl; [|done].
  intros [= <-]. simpl.
  assert (Hsame :
    (if decide (length (schedule_in_use s) = 0%nat)
     then Scheduled.initializeExpansionIntervals
            (Scheduled.initialCellCount s) (Scheduled.numRings s)
     else schedule_in_use s) = schedule_in_use s).
  { destruct (decide (length (schedule_in_use s) = 0%nat)) as [Hz|]; [|done].
    unfold schedule_in_use in *.
    destruct (decide (length (Scheduled.expansionIntervals s) = 0%nat)); [done|lia]. }
  rewrite Hsame, Hpre. done.
Qed.

Lemma Scheduled_draw_parameters (s s' : Scheduled.state) :
  Scheduled.draw s = Ok s' → Scheduled.same_parameters s s'.
Proof.
  unfold Scheduled.draw.
  destruct (draw_frame _ _ _ _ _) as [[rings cur]|e]; simpl; [|done].
  intros [= <-]. by repeat split.
Qed.

Lemma Scheduled_same_parameters_trans (s1 s2 s3 : Scheduled.state) :
  Scheduled.same_parameters s1 s2 → Scheduled.same_parameters s2 s3 →
  Scheduled.same_parameters s1 s3.
Proof.
  unfold Scheduled.same_parameters.
  intros (? & ? & ? & ? & ?) (? & ? & ? & ? & ?). repeat split; congruence.
Qed.

Lemma Scheduled_frames_parameters (k : nat) (s s' : Scheduled.state) :
  Scheduled.frames k s = Ok s' → Scheduled.same_parameters s s'.
Proof.
  revert s. induction k as [|k IH]; intros s; simpl.
  - intros [= <-]. by repeat split.
  - destruct (Scheduled.draw s) as [s1|e] eqn:Hdraw; simpl; [|done].
    intros Hframes. eapply Scheduled_same_parameters_trans.
    + by apply Scheduled_draw_parameters.
    + by apply IH.
Qed.

Lemma Scheduled_run_ext (s1 s2 : Scheduled.state) :
  Scheduled.same_parameters s1 s2 → Scheduled.run s1 = Scheduled.run s2.
Proof.
  intros Hsame. unfold Scheduled.run.
  by rewrite (Scheduled_initializeSimulation_ext s1 s2).
Qed.

Lemma Scheduled_run_again (s s' : Scheduled.state) :
  Scheduled.run s = Ok s' → Scheduled.run s' = Ok s'.
Proof.
  unfold Scheduled.run at 1.
  destruct (Scheduled.initializeSimulation s) as [s0|e] eqn:Hinit; simpl; [|done].
  intros Hframes.
  assert (Hsame : Scheduled.same_parameters s0 s')
    by (by eapply Scheduled_frames_parameters).
  rewrite <- (Scheduled_run_ext s0 s' Hsame). unfold Scheduled.run.
  rewrite (Scheduled_initializeSimulation_again s s0 Hinit). done.
Qed.

Lemma Scheduled_run_ok (s : Scheduled.state) :
  fits (Scheduled.interval_for (schedule_in_use s))
    (Scheduled.initialCellCount s) (Scheduled.numRings s) = true →
  ∃ s', Scheduled.run s = Ok s' ∧ Scheduled.numRings s' ≤ Scheduled.currentRing s'.
Proof.
  intros Hfits. unfold Scheduled.run.
  destruct (Scheduled_initializeSimulation_fits s Hfits) as
    (s0 & -> & Hready & Hcur & _). simpl.
  destruct (Scheduled_frames_ok (Z.to_nat (Scheduled.numRings s0) + 1) s0 Hready) as
    (s' & -> & _ & (_ & Hnum & _) & Hend).
  exists s'. split; [done|]. rewrite <- Hnum. apply Hend. rewrite Hcur. lia.
Qed.

Lemma Constant_run_unfit (s : Constant.state) :
  fits (λ _ _, Constant.expansionInterval s)
    (Constant.initialCellCount s) (Constant.numRings s) = false →
  Constant.run s = Throw RangeError.
Proof.
  intros Hfits. unfold Constant.run.
  by rewrite Constant_initializeSimulation_unfit.
Qed.

Lemma Scheduled_run_unfit (s : Scheduled.state) :
  fits (Scheduled.interval_for (schedule_in_use s))
    (Scheduled.initialCellCount s) (Scheduled.numRings s) = false →
  Scheduled.run s = Throw RangeError.
Proof.
  intros Hfits. unfold Scheduled.run.
  by rewrite Scheduled_initializeSimulation_unfit.
Qed.

(** C6.  In both sketches a complete run (initialisation, then the frames
    until the loop stops) is a function of the parameters alone: two states
    that hold the same parameters, whatever rings, masks and position they
    hold from before, run to the same result, rings and masks included;
    running again from the state a run has reached reproduces that state;
    and runs on valid parameters do complete, for every size whose ring
    counts all fit in an array (at most 2^32-1 cells); beyond that size the
    run stops, each time, on the same RangeError. *)
Theorem runs_are_reproducible :
  (∀ s1 s2, Constant.same_parameters s1 s2 → Constant.run s1 = Constant.run s2)
  ∧ (∀ s s', Constant.run s = Ok s' → Constant.run s' = Ok s')
  ∧ (∀ s interval,
       0 ≤ Constant.initialCellCount s → Constant.expansionInterval s = Int interval →
       interval ≠ 0 →
       (fits (λ _ _, Int interval) (Constant.initialCellCount s) (Constant.numRings s)
        = true →
        ∃ s', Constant.run s = Ok s' ∧ Constant.numRings s' ≤ Constant.currentRing s')
       ∧ (fits (λ _ _, Int interval) (Constant.initialCellCount s) (Constant.numRings s)
          = false →
          Constant.run s = Throw RangeError))
  ∧ (∀ s1 s2, Scheduled.same_parameters s1 s2 → Scheduled.run s1 = Scheduled.run s2)
  ∧ (∀ s s', Scheduled.run s = Ok s' → Scheduled.run s' = Ok s')
  ∧ (∀ s,
       1 ≤ Scheduled.initialCellCount s → valid_schedule (Scheduled.expansionIntervals s) →
       (fits (Scheduled.interval_for (schedule_in_use s))
          (Scheduled.initialCellCount s) (Scheduled.numRings s) = true →
        ∃ s', Scheduled.run s = Ok s' ∧ Scheduled.numRings s' ≤ Scheduled.currentRing s')
       ∧ (fits (Scheduled.interval_for (schedule_in_use s))
            (Scheduled.initialCellCount s) (Scheduled.numRings s) = false →
          Scheduled.run s = Throw RangeError)).
Proof.
  split; [exact Constant_run_ext|]. split; [exact Constant_run_again|].
  split.
  { intros s interval Hcount Hiv Hk. rewrite <- Hiv. split.
    - intros Hfits.
      destruct (Constant_run_ok s Hfits) as (s' & Hrun & Hend & _).
      by exists s'.
    - apply Constant_run_unfit. }
  split; [exact Scheduled_run_ext|]. split; [exact Scheduled_run_again|].
  intros s _ _. split; [apply Scheduled_run_ok | apply Scheduled_run_unfit].
Qed.

Example run_twice :
  let rule90 := [bit 0; bit 1; bit 0; bit 1; bit 1; bit 0; bit 1; bit 0] in
  let pattern := [bit 1; bit 0; bit 0; bit 1] in
  let fresh := Scheduled.Build_state 4 4 [] rule90 pattern [] [] 0 in
  let stale := Scheduled.Build_state 4 4 [] rule90 pattern [[bit 1]] [[true]; []] 7 in
  Scheduled.run fresh = Scheduled.run stale
  ∧ (Scheduled.rings <$> (if Scheduled.run fresh is Ok s then Some s else None))
    = Some [[bit 1; bit 0; bit 0; bit 1];
            [bit 1; bit 1; bit 0; bit 1; bit 1; bit 1];
            [bit 0; bit 1; bit 0; bit 0; bit 1; bit 0; bit 0; bit 1];
            [bit 0; bit 0; bit 1; bit 1; bit 0; bit 0; bit 1; bit 1; bit 0; bit 1]].
Proof. vm_compute. split; reflexivity. Qed.

(** * Further properties of the code *)

(** ** The planner in closed form *)

(** When the fallback of the planner is taken, the interval is the count
    itself: the count is its own largest divisor. *)
Lemma plan_interval_fallback (c r : Z) (chosen : list value) :
  1 ≤ c → 0 ≤ r → c < r + 2 →
  Scheduled.plan_interval (Int c, chosen) r = (Int (c + 1), chosen ++ [Num (Int c)]).
Proof.
  intros Hc Hr Hlt.
  destruct (plan_interval_Int c r chosen Hc Hr) as (iv & -> & _ & Hfall & Hiv).
  assert (iv = c) as ->.
  { destruct Hfall as [(Hiv1 & Hdiv & Hmax) | [_ ->]]; [lia| |done].
    destruct (decide (c = 1)) as [->|Hne]; [lia|].
    pose proof (Hmax c ltac:(lia) ltac:(reflexivity)). lia. }
  by rewrite Z.div_same by lia.
Qed.

Lemma plan_interval_regular (c r : Z) (chosen : list value) :
  0 ≤ r → r + 2 ≤ c →
  Scheduled.plan_interval (Int c, chosen) r
  = (Int (c + c / (r + 2)), chosen ++ [Num (Int (r + 2))]).
Proof.
  intros Hr Hle.
  destruct (plan_interval_Int c r chosen ltac:(lia) Hr) as (iv & -> & Hreg & _).
  by rewrite (Hreg Hle).
Qed.

Lemma plan_upto_closed_form (c0 : Z) (k : nat) :
  1 ≤ c0 →
  Scheduled.plan_upto c0 (Z.of_nat k)
  = if decide (c0 = 1)
    then (Int (Z.of_nat k + 1), (λ r, Num (Int (r + 1))) <$> seqZ 0 (Z.of_nat k))
    else (Int (c0 / 2 * (Z.of_nat k + 2) + c0 `mod` 2),
          (λ r, Num (Int (r + 2))) <$> seqZ 0 (Z.of_nat k)).
Proof.
  intros Hc0. induction k as [|k IH].
  - destruct (decide (c0 = 1)) as [->|Hne]; [done|].
    unfold Scheduled.plan_upto. simpl. do 2 f_equal.
    pose proof (Z.div_mod c0 2 ltac:(lia)). lia.
  - rewrite plan_upto_S, IH, seqZ_S, !fmap_app, !Nat2Z.inj_succ.
    pose proof (Z.div_mod c0 2 ltac:(lia)) as Hdm.
    pose proof (Z.mod_pos_bound c0 2 ltac:(lia)) as Hb.
    destruct (decide (c0 = 1)) as [->|Hne].
    + rewrite plan_interval_fallback by lia. simpl. do 2 f_equal; lia.
    + assert (Hq : 1 ≤ c0 / 2) by lia.
      rewrite plan_interval_regular by nia. simpl. f_equal. f_equal.
      rewrite (Z.add_comm (c0 / 2 * (Z.of_nat k + 2))).
      rewrite Z.div_add by lia. rewrite (Z.div_small (c0 `mod` 2)) by lia. lia.
Qed.

(** X1.  The schedule that [initializeExpansionIntervals] plans, in closed
    form.  From an initial ring of at least 2 cells the fallback is never
    taken: transition [r] gets the interval [r + 2], and ring [r] is planned
    with [floor(c0/2) * (r + 2) + c0 mod 2] cells.  From an initial ring of
    one cell the fallback is taken at every transition: transition [r] gets
    the interval [r + 1], the whole ring, and ring [r] has [r + 1] cells. *)
Theorem planner_closed_form (initialCellCount numRings : Z) :
  1 ≤ initialCellCount →
  Scheduled.initializeExpansionIntervals initialCellCount numRings
  = (λ r, Num (Int (if decide (initialCellCount = 1) then r + 1 else r + 2)))
      <$> seqZ 0 (numRings - 1)
  ∧ ∀ r, 0 ≤ r →
      (Scheduled.plan_upto initialCellCount r).1
      = Int (if decide (initialCellCount = 1) then r + 1
             else initialCellCount / 2 * (r + 2) + initialCellCount `mod` 2).
Proof.
  intros Hc0. split.
  - unfold Scheduled.initializeExpansionIntervals.
    destruct (decide (0 ≤ numRings - 1)) as [Hr|Hr].
    + rewrite <- (Z2Nat.id (numRings - 1)) by done.
      rewrite plan_upto_closed_form by done. by destruct (decide _).
    + unfold Scheduled.plan_upto. by rewrite seqZ_nil by lia.
  - intros r Hr. rewrite <- (Z2Nat.id r) by done.
    rewrite plan_upto_closed_form by done. by destruct (decide _).
Qed.

Lemma planner_closed_form_witness :
  1 ≤ 5
  ∧ Scheduled.initializeExpansionIntervals 5 4
    = (λ r, Num (Int (if decide (5 = 1) then r + 1 else r + 2))) <$> seqZ 0 (4 - 1)
  ∧ ∀ r, 0 ≤ r →
      (Scheduled.plan_upto 5 r).1
      = Int (if decide (5 = 1) then r + 1 else 5 / 2 * (r + 2) + 5 `mod` 2).
Proof. split; [lia|]. apply (planner_closed_form 5 4). lia. Defined.

(** ** When initialisation throws *)

(** Where every interval is a positive integer the counts are integers
    that never decrease and at most double, so that they all fit in an
    array as soon as the last one does. *)
Section growing_counts.
Variable interval_for : Z → number → number.
Variables lo initialCellCount : Z.
Hypothesis lo_nonneg : 0 ≤ lo.
Hypothesis lo_le : lo ≤ initialCellCount.
Hypothesis interval_for_positive :
  ∀ r p, 1 ≤ r → lo ≤ p → ∃ k, interval_for r (Int p) = Int k ∧ 1 ≤ k.

Local Abbreviation count := (ring_count interval_for initialCellCount).

Lemma growing_count_S (r : nat) (z : Z) :
  count r = Int z → lo ≤ z → ∃ z', count (S r) = Int z' ∧ z ≤ z' ≤ 2 * z.
Proof.
  intros Hz Hlo.
  destruct (interval_for_positive (Z.of_nat (S r)) z) as (k & Hk & Hk1); [lia|done|].
  exists (z + z / k). split.
  - change (count (S r))
      with (add (count r)
              (floor_div (count r) (interval_for (Z.of_nat (S r)) (count r)))).
    rewrite Hz, Hk. apply buildRing_count. lia.
  - pose proof (Z.div_pos z k ltac:(lia) ltac:(lia)).
    assert (z / k ≤ z) by (apply Z.div_le_upper_bound; nia). lia.
Qed.

Lemma growing_count (r : nat) :
  ∃ z, count r = Int z
       ∧ initialCellCount ≤ z ≤ initialCellCount * 2 ^ Z.of_nat r.
Proof.
  induction r as [|r (z & Hz & Hle)].
  - exists initialCellCount. split; [done|]. simpl. lia.
  - destruct (growing_count_S r z Hz) as (z' & Hz' & Hle'); [lia|].
    exists z'. split; [done|]. rewrite Nat2Z.inj_succ, Z.pow_succ_r by lia. nia.
Qed.

Lemma growing_count_mono (r r' : nat) (z z' : Z) :
  (r ≤ r')%nat → count r = Int z → count r' = Int z' → z ≤ z'.
Proof.
  intros Hle Hz. revert z'. induction Hle as [|r' Hle IH]; intros z' Hz'.
  - assert (z = z') by congruence. lia.
  - destruct (growing_count r') as (y & Hy & Hy').
    destruct (growing_count_S r' y Hy) as (y' & Hyy & ?); [lia|].
    assert (y' = z') by congruence. specialize (IH y Hy). lia.
Qed.

Lemma growing_fits (numRings : Z) :
  fits interval_for initialCellCount numRings = true
  ↔ allocatable (count (Z.to_nat (numRings - 1))) = true.
Proof.
  rewrite fits_spec. split; [intros Hall; by apply Hall|].
  intros Hlast r Hr.
  destruct (growing_count r) as (z & Hz & Hz').
  apply allocatable_inv in Hlast as (y & Hy & Hy').
  pose proof (growing_count_mono r _ z y Hr Hz Hy).
  rewrite Hz. apply allocatable_Int. lia.
Qed.

End growing_counts.

(** With an interval that is NaN or 0 the second count is no integer. *)
Lemma fits_unusable (interval : number) (initialCellCount numRings : Z) :
  interval = NaN ∨ interval = Int 0 →
  fits (λ _ _, interval) initialCellCount numRings = true
  ↔ 0 ≤ initialCellCount ≤ max_array_length ∧ numRings ≤ 1.
Proof.
  intros Hiv. rewrite fits_spec. split.
  - intros Hall. pose proof (Hall 0%nat ltac:(lia)) as H0.
    change (allocatable (Int initialCellCount) = true) in H0.
    apply allocatable_Int in H0. split; [done|].
    destruct (decide (numRings ≤ 1)) as [|Hr]; [done|].
    pose proof (Hall 1%nat ltac:(lia)) as H1.
    change (allocatable (add (Int initialCellCount)
                           (floor_div (Int initialCellCount) interval)) = true) in H1.
    destruct Hiv as [-> | ->]; simpl in H1; [done|].
    destruct (0 <? initialCellCount); [done|].
    by destruct (initialCellCount <? 0).
  - intros [Hc Hr] r Hle. assert (r = 0%nat) as -> by lia.
    by apply allocatable_Int.
Qed.

(** X2.  The exact condition under which [initializeSimulation] of the
    constant-interval sketch throws, for an interval as [parseInt] returns
    it (an integer or NaN).  It returns normally when the cell count is
    between 0 and the largest length of an array, 2^32-1, and either at
    most one ring is wanted, or the interval is a negative integer (the
    rings shrink), or it is a positive integer and the count of the last
    ring, as the recurrence [count + floor(count / interval)] gives it, is
    at most 2^32-1; in every other case it throws a RangeError. *)
Theorem Constant_initializeSimulation_failure (s : Constant.state) :
  Constant.expansionInterval s = NaN ∨ (∃ k, Constant.expansionInterval s = Int k) →
  let last :=
    ring_count (λ _ _, Constant.expansionInterval s) (Constant.initialCellCount s)
      (Z.to_nat (Constant.numRings s - 1)) in
  let usable :=
    0 ≤ Constant.initialCellCount s ≤ max_array_length
    ∧ (Constant.numRings s ≤ 1
       ∨ ∃ k, Constant.expansionInterval s = Int k
              ∧ (k < 0 ∨ 0 < k ∧ ∃ z, last = Int z ∧ z ≤ max_array_length)) in
  (usable → ∃ s0, Constant.initializeSimulation s = Ok s0)
  ∧ (¬ usable → Constant.initializeSimulation s = Throw RangeError).
Proof.
  intros Hparsed last usable.
  assert (Hiff : fits (λ _ _, Constant.expansionInterval s)
                   (Constant.initialCellCount s) (Constant.numRings s) = true
                 ↔ usable).
  { subst usable.
    assert (Hfirst : fits (λ _ _, Constant.expansionInterval s)
                       (Constant.initialCellCount s) (Constant.numRings s) = true
                     → 0 ≤ Constant.initialCellCount s ≤ max_array_length).
    { rewrite fits_spec. intros Hall. apply allocatable_Int.
      exact (Hall 0%nat ltac:(lia)). }
    assert (Hshort : 0 ≤ Constant.initialCellCount s ≤ max_array_length →
                     Constant.numRings s ≤ 1 →
                     fits (λ _ _, Constant.expansionInterval s)
                       (Constant.initialCellCount s) (Constant.numRings s) = true).
    { intros Hc Hr. apply fits_spec. intros r Hle. assert (r = 0%nat) as -> by lia.
      by apply allocatable_Int. }
    destruct Hparsed as [Hnan | [k Hk]].
    - rewrite fits_unusable by (by left). split.
      + intros [Hc Hr]. split; [done|]. by left.
      + intros [Hc [Hr | (k & Hk & _)]]; [done|congruence].
    - destruct (Z.lt_trichotomy k 0) as [Hneg | [-> | Hpos]].
      + split; [intros Hfits; split; [by apply Hfirst|]; right; exists k; by auto|].
        intros [Hc _]. rewrite Hk. by apply fits_negative_interval.
      + rewrite fits_unusable by (by right). split.
        * intros [Hc Hr]. split; [done|]. by left.
        * intros [Hc [Hr | (k & Hk' & Hk0)]]; [done|].
          assert (k = 0) as -> by congruence. lia.
      + split.
        * intros Hfits. pose proof (Hfirst Hfits) as Hc. split; [done|]. right.
          exists k. split; [done|]. right. split; [done|].
          rewrite fits_spec in Hfits.
          destruct (allocatable_inv _ (Hfits (Z.to_nat (Constant.numRings s - 1))
                                         ltac:(lia))) as (z & Hz & Hz').
          exists z. split; [done|lia].
        * intros [Hc [Hr | (k' & Hk' & Hcase)]]; [by apply Hshort|].
          assert (k' = k) as -> by congruence.
          destruct Hcase as [Hneg | (_ & z & Hz & Hz')]; [lia|].
          apply (growing_fits _ 0 (Constant.initialCellCount s)); [done|lia| |].
          { intros r p _ _. exists k. rewrite Hk. split; [done|lia]. }
          fold last. rewrite Hz. apply allocatable_Int. split; [|done].
          destruct (growing_count (λ _ _, Constant.expansionInterval s) 0
                      (Constant.initialCellCount s) ltac:(done) ltac:(lia))
            with (r := Z.to_nat (Constant.numRings s - 1)) as (y & Hy & Hy').
          { intros r p _ _. exists k. rewrite Hk. split; [done|lia]. }
          fold last in Hy. assert (y = z) as -> by congruence. lia. }
  split.
  - intros Husable%Hiff.
    destruct (Constant_initializeSimulation_fits s Husable) as (s0 & Hinit & _).
    by exists s0.
  - intros Hnot. apply Constant_initializeSimulation_unfit.
    destruct (fits _ _ _) eqn:Hfits; [|done]. destruct Hnot. by apply Hiff.
Qed.

Lemma Constant_initializeSimulation_failure_witness :
  let s := Constant.Build_state 8 15 (Int 0) [] [bit 1] [] [] 0 in
  (Constant.expansionInterval s = NaN ∨ (∃ k, Constant.expansionInterval s = Int k))
  ∧ Constant.initializeSimulation s = Throw RangeError.
Proof.
  intros s.
  assert (Hparsed : Constant.expansionInterval s = NaN
                    ∨ (∃ k, Constant.expansionInterval s = Int k))
    by (right; by exists 0).
  split; [exact Hparsed|].
  apply (Constant_initializeSimulation_failure s Hparsed).
  intros [_ [Hr | (k & Hk & Hk0)]]; [simpl in Hr; lia|].
  simpl in Hk. injection Hk as <-. lia.
Defined.

(** The three ways of the condition, on 8 cells: an interval of 4 fits for
    15 rings, an interval of 1 doubles the ring and passes the limit at ring
    29, and a negative interval always fits. *)
Example Constant_initializeSimulation_sizes :
  let run interval numRings :=
    Constant.initializeSimulation
      (Constant.Build_state 8 numRings (Int interval) [] [bit 1] [] [] 0) in
  ring_count (λ _ _, Int 4) 8 14 = Int 151
  ∧ (Constant.currentRing <$> (if run 4 15 is Ok s0 then Some s0 else None)) = Some 0
  ∧ ring_count (λ _ _, Int 1) 8 29 = Int 4294967296
  ∧ run 1 30 = Throw RangeError
  ∧ (length <$> (Constant.rings <$> (if run (-3) 4 is Ok s0 then Some s0 else None)))
    = Some 4%nat.
Proof.
  intros run.
  assert (Hunfit : fits (λ _ _, Int 1) 8 30 = false) by (vm_compute; reflexivity).
  split; [vm_compute; reflexivity|]. split; [vm_compute; reflexivity|].
  split; [vm_compute; reflexivity|]. split; [|vm_compute; reflexivity].
  subst run. cbv beta. apply Constant_initializeSimulation_unfit.
  cbn [Constant.expansionInterval Constant.initialCellCount Constant.numRings].
  exact Hunfit.
Qed.

(** ** The guard of the variable-interval sketch *)

Lemma safe_interval_for_ok (expansionIntervals : list value) (r p : Z) :
  safe_schedule expansionIntervals → 1 ≤ r → 1 ≤ p →
  ∃ k, Scheduled.interval_for expansionIntervals r (Int p) = Int k ∧ 1 ≤ k.
Proof.
  intros Hsafe Hr Hp. unfold Scheduled.interval_for, get.
  destruct (0 <=? r - 1) eqn:E; [|lia].
  destruct (expansionIntervals !! Z.to_nat (r - 1)) as [v|] eqn:Hv; simpl.
  - unfold safe_schedule in Hsafe. rewrite Forall_forall in Hsafe.
    destruct (Hsafe v) as [-> | [-> | (z & -> & Hz)]];
      [by eapply list_elem_of_lookup_2 | by exists p | by exists p |].
    unfold or_else. simpl. destruct (Z.eqb_spec z 0) as [->|Hz0]; simpl.
    + by exists p.
    + exists z. split; [done|lia].
  - by exists p.
Qed.

Lemma valid_schedule_safe (expansionIntervals : list value) :
  valid_schedule expansionIntervals → safe_schedule expansionIntervals.
Proof.
  unfold valid_schedule, safe_schedule. intros Hvalid.
  eapply Forall_impl; [exact Hvalid|].
  intros v (z & -> & Hz). right. right. exists z. split; [done|lia].
Qed.

Lemma schedule_in_use_safe (s : Scheduled.state) :
  1 ≤ Scheduled.initialCellCount s →
  safe_schedule (Scheduled.expansionIntervals s) →
  safe_schedule (schedule_in_use s).
Proof.
  intros Hcount Hsafe. unfold schedule_in_use. destruct (decide _); [|done].
  by apply valid_schedule_safe, planner_valid_schedule.
Qed.

(** On a safe schedule the counts are integers from the initial count
    up, and the rings of a pre-calculation that returned are not empty and
    do not shrink. *)
Lemma safe_count (s : Scheduled.state) (r : nat) :
  1 ≤ Scheduled.initialCellCount s →
  safe_schedule (Scheduled.expansionIntervals s) →
  ∃ z, ring_count (Scheduled.interval_for (schedule_in_use s))
         (Scheduled.initialCellCount s) r = Int z
       ∧ Scheduled.initialCellCount s ≤ z
           ≤ Scheduled.initialCellCount s * 2 ^ Z.of_nat r.
Proof.
  intros Hcount Hsafe.
  apply (growing_count _ 1); [lia|done|].
  intros r' p Hr Hp. by apply safe_interval_for_ok; [apply schedule_in_use_safe|..].
Qed.

Lemma safe_fits (s : Scheduled.state) :
  1 ≤ Scheduled.initialCellCount s →
  safe_schedule (Scheduled.expansionIntervals s) →
  fits (Scheduled.interval_for (schedule_in_use s))
    (Scheduled.initialCellCount s) (Scheduled.numRings s) = true
  ↔ allocatable
      (ring_count (Scheduled.interval_for (schedule_in_use s))
         (Scheduled.initialCellCount s) (Z.to_nat (Scheduled.numRings s - 1))) = true.
Proof.
  intros Hcount Hsafe.
  apply (growing_fits _ 1); [lia|done|].
  intros r' p Hr Hp. by apply safe_interval_for_ok; [apply schedule_in_use_safe|..].
Qed.

Lemma safe_rings (s s0 : Scheduled.state) :
  1 ≤ Scheduled.initialCellCount s →
  safe_schedule (Scheduled.expansionIntervals s) →
  Scheduled.initializeSimulation s = Ok s0 →
  Forall (λ ring, (1 ≤ length ring)%nat) (Scheduled.rings s0)
  ∧ ∀ (r : nat) prev cells,
      Scheduled.rings s0 !! r = Some prev → Scheduled.rings s0 !! S r = Some cells →
      (length prev ≤ length cells)%nat.
Proof.
  intros Hcount Hsafe Hinit.
  pose proof (Scheduled_initializeSimulation_Ok_fits s s0 Hinit) as Hfits.
  destruct (Scheduled_initializeSimulation_fits s Hfits)
    as (s0' & Hinit' & _ & _ & _ & _ & _ & _ & _ & Hcounted & _).
  assert (s0' = s0) as -> by congruence.
  assert (Hlen : ∀ (r : nat) ring, Scheduled.rings s0 !! r = Some ring →
            ring_count (Scheduled.interval_for (schedule_in_use s))
              (Scheduled.initialCellCount s) r = Int (Z.of_nat (length ring))).
  { intros r ring Hr. by rewrite <- (Hcounted r ring Hr). }
  split.
  - apply Forall_lookup_2. intros r ring Hr.
    destruct (safe_count s r Hcount Hsafe) as (z & Hz & Hz').
    rewrite (Hlen r ring Hr) in Hz. injection Hz as Hz. lia.
  - intros r prev cells Hprev Hcells.
    destruct (safe_count s r Hcount Hsafe) as (z & Hz & Hz').
    assert (Hpos : ∀ r' p, 1 ≤ r' → 1 ≤ p →
              ∃ k, Scheduled.interval_for (schedule_in_use s) r' (Int p) = Int k ∧ 1 ≤ k).
    { intros r' p Hr Hp. by apply safe_interval_for_ok; [apply schedule_in_use_safe|..]. }
    destruct (growing_count_S (Scheduled.interval_for (schedule_in_use s)) 1
                (Scheduled.initialCellCount s) ltac:(lia) Hpos r z Hz)
      as (z' & HS & Hle); [lia|].
    rewrite (Hlen r prev Hprev) in Hz. rewrite (Hlen (S r) cells Hcells) in HS.
    injection Hz as Hz. injection HS as HS. lia.
Qed.

(** X3.  The fallback [expansionIntervals[r - 1] || prevCount] protects
    the variable-interval sketch: with an initial ring of at least one cell
    and a schedule whose entries are missing, NaN, 0 or positive integers,
    the count of every ring [r] is an integer between the initial count
    [c0] and [c0 * 2^r].  So [initializeSimulation] returns exactly when
    the count of the last ring is at most 2^32-1, the largest length of an
    array, and throws a RangeError otherwise; when it returns, no ring is
    empty and no ring is shorter than the ring before it. *)
Theorem Scheduled_initializeSimulation_guarded (s : Scheduled.state) :
  1 ≤ Scheduled.initialCellCount s →
  safe_schedule (Scheduled.expansionIntervals s) →
  let last :=
    ring_count (Scheduled.interval_for (schedule_in_use s))
      (Scheduled.initialCellCount s) (Z.to_nat (Scheduled.numRings s - 1)) in
  (∀ r : nat,
     ∃ z, ring_count (Scheduled.interval_for (schedule_in_use s))
            (Scheduled.initialCellCount s) r = Int z
          ∧ Scheduled.initialCellCount s ≤ z
              ≤ Scheduled.initialCellCount s * 2 ^ Z.of_nat r)
  ∧ (allocatable last = true →
     ∃ s0,
       Scheduled.initializeSimulation s = Ok s0
       ∧ Forall (λ ring, (1 ≤ length ring)%nat) (Scheduled.rings s0)
       ∧ ∀ (r : nat) prev cells,
           Scheduled.rings s0 !! r = Some prev → Scheduled.rings s0 !! S r = Some cells →
           (length prev ≤ length cells)%nat)
  ∧ (allocatable last = false → Scheduled.initializeSimulation s = Throw RangeError).
Proof.
  intros Hcount Hsafe last. split; [|split].
  - intros r. by apply safe_count.
  - intros Hlast%(safe_fits s Hcount Hsafe).
    destruct (Scheduled_initializeSimulation_fits s Hlast) as (s0 & Hinit & _).
    exists s0. split; [done|]. by apply (safe_rings s).
  - intros Hlast. apply Scheduled_initializeSimulation_unfit.
    destruct (fits _ _ _) eqn:Hfits; [|done].
    apply (safe_fits s Hcount Hsafe) in Hfits. fold last in Hfits. congruence.
Qed.

Lemma Scheduled_initializeSimulation_guarded_witness :
  let s := Scheduled.Build_state 4 4 [Num (Int 0); Undefined; Num NaN] [] [bit 1] [] [] 0 in
  1 ≤ Scheduled.initialCellCount s
  ∧ safe_schedule (Scheduled.expansionIntervals s)
  ∧ ring_count (Scheduled.interval_for (schedule_in_use s))
      (Scheduled.initialCellCount s) (Z.to_nat (Scheduled.numRings s - 1)) = Int 7
  ∧ ∃ s0,
      Scheduled.initializeSimulation s = Ok s0
      ∧ Forall (λ ring, (1 ≤ length ring)%nat) (Scheduled.rings s0)
      ∧ ∀ (r : nat) prev cells,
          Scheduled.rings s0 !! r = Some prev → Scheduled.rings s0 !! S r = Some cells →
          (length prev ≤ length cells)%nat.
Proof.
  intros s.
  assert (Hcount : 1 ≤ Scheduled.initialCellCount s) by (simpl; lia).
  assert (Hsafe : safe_schedule (Scheduled.expansionIntervals s)).
  { apply Forall_cons_2; [right; right; exists 0; split; [reflexivity|lia]|].
    apply Forall_cons_2; [left; reflexivity|].
    apply Forall_cons_2; [right; left; reflexivity|]. apply Forall_nil_2. }
  split; [exact Hcount|]. split; [exact Hsafe|]. split; [reflexivity|].
  apply (Scheduled_initializeSimulation_guarded s Hcount Hsafe). reflexivity.
Defined.

(** The guard does not bound the counts: on a schedule of ones the ring
    doubles at every transition, and from 8 cells the count of ring 29 is
    2^32. *)
Example Scheduled_guard_beyond_limit :
  let s := Scheduled.Build_state 8 30 (replicate 29 (Num (Int 1))) [] [bit 1] [] [] 0 in
  ring_count (Scheduled.interval_for (schedule_in_use s)) 8 29 = Int 4294967296
  ∧ fits (Scheduled.interval_for (schedule_in_use s)) 8 30 = false.
Proof. vm_compute. split; reflexivity. Qed.

(** Negative entries are not protected: a ring can shrink to nothing, and a
    zero entry then falls back to a count of 0. *)
Example Scheduled_negative_entry_throws :
  Scheduled.initializeSimulation
    (Scheduled.Build_state 1 3 [Num (Int (-1)); Num (Int 0)] [] [bit 1] [] [] 0)
  = Throw RangeError.
Proof. vm_compute. reflexivity. Qed.

(** ** The layout of a generated ring *)

Lemma parent_succ (interval i : Z) :
  1 ≤ interval → 0 ≤ i →
  parent interval (i + 1)
  = parent interval i + (if i `mod` (interval + 1) =? interval then 0 else 1).
Proof.
  intros Hk Hi. unfold parent. rewrite div_succ_block by lia.
  replace (interval + 1 - 1) with interval by lia.
  destruct (i `mod` (interval + 1) =? interval); lia.
Qed.

Lemma parent_mono (interval i j : Z) :
  1 ≤ interval → 0 ≤ i ≤ j → parent interval i ≤ parent interval j.
Proof.
  intros Hk Hij. unfold parent.
  assert (j / (interval + 1) ≤ i / (interval + 1) + (j - i)); [|lia].
  rewrite <- Z.div_add by lia. apply Z.div_le_mono; nia.
Qed.

Lemma parent_bounds (interval p i : Z) :
  1 ≤ interval → 0 ≤ p → 0 ≤ i < p + p / interval →
  if i `mod` (interval + 1) =? interval
  then 1 ≤ parent interval i ≤ p
  else 0 ≤ parent interval i < p.
Proof.
  intros Hk Hp Hi.
  assert (Hend : parent interval (p + p / interval) = p).
  { unfold parent. rewrite grown_count_blocks by lia. lia. }
  pose proof (parent_mono interval i (p + p / interval) Hk ltac:(lia)) as Hle.
  pose proof (parent_mono interval (i + 1) (p + p / interval) Hk ltac:(lia)) as Hle'.
  pose proof (parent_mono interval 0 i Hk ltac:(lia)) as H0.
  rewrite parent_succ in Hle' by lia.
  assert (parent interval 0 = 0) as Hzero by (unfold parent; rewrite Z.div_0_l; lia).
  destruct (Z.eqb_spec (i `mod` (interval + 1)) interval) as [He|He]; [|lia].
  split; [|lia]. unfold parent.
  pose proof (Z.mod_le i (interval + 1) ltac:(lia) ltac:(lia)).
  pose proof (Z.div_lt i (interval + 1) ltac:(lia) ltac:(lia)). lia.
Qed.

Lemma rule_at_step (ruleset currentCells : list value) (c : Z) :
  currentCells ≠ [] → 0 ≤ c →
  rules ruleset
    (get currentCells (rem (add (Int (c - 1)) (len currentCells)) (len currentCells)))
    (get currentCells (Int c))
    (get currentCells (rem (Int (c + 1)) (len currentCells)))
  = rule_at ruleset currentCells c.
Proof.
  intros Hne Hc. unfold rule_at, len. simpl.
  assert (Hp : 0 < Z.of_nat (length currentCells)).
  { destruct currentCells; [done | simpl; lia]. }
  destruct (Z.of_nat (length currentCells) =? 0) eqn:E; [lia|].
  by rewrite !Z.rem_mod_nonneg by lia.
Qed.

(** X4.  The ring that [generateNextRing] fills on the topology of an
    interval of at least 1, position by position.  Position [i] is aligned
    with cell [c = i - floor(i / (interval + 1))] of the previous ring.  On
    an expansion position ([i mod (interval + 1) = interval]) the new cell
    is a copy of cell [c - 1], the last cell of a block of [interval] cells;
    on any other position it is the rule applied to the circular
    neighbourhood of cell [c].  Both cells exist. *)
Theorem generated_ring_layout (ruleset currentCells hole : list value)
    (mask : list bool) (interval i : Z) :
  1 ≤ interval → currentCells ≠ [] →
  buildRing (len currentCells) (Int interval) = Ok (hole, mask) →
  0 ≤ i < Z.of_nat (length hole) →
  let c := parent interval i in
  let filled := fill_next_ring ruleset currentCells mask hole in
  if i `mod` (interval + 1) =? interval
  then ∃ v, currentCells !! Z.to_nat (c - 1) = Some v ∧ 1 ≤ c
            ∧ filled !! Z.to_nat i = Some v
  else is_Some (currentCells !! Z.to_nat c) ∧ 0 ≤ c
       ∧ filled !! Z.to_nat i = Some (rule_at ruleset currentCells c).
Proof.
  intros Hk Hne Hbuild Hi c filled.
  set (p := Z.of_nat (length currentCells)).
  assert (Hp : 1 ≤ p) by (subst p; destruct currentCells; [done | simpl; lia]).
  pose proof (Z.div_pos p interval ltac:(lia) ltac:(lia)) as Hq.
  unfold len in Hbuild. fold p in Hbuild. buildRing_Ok Hbuild.
  set (n := Z.to_nat (p + p / interval)) in *.
  injection Hbuild as <- <-. rewrite length_replicate in Hi.
  pose proof (parent_bounds interval p i Hk ltac:(lia) ltac:(lia)) as Hbounds.
  fold c in Hbounds.
  assert (Hcur : (next_cells_upto ruleset currentCells
                    (is_expansion (Int interval) <$> seq 0 n)
                    (replicate n Undefined) (Z.to_nat i)).1 = c).
  { rewrite cursor_rule_cells, rule_cells_blocks by lia.
    rewrite Z2Nat.id by lia. done. }
  assert (Hmask : (is_expansion (Int interval) <$> seq 0 n) !! Z.to_nat i
                  = Some (i `mod` (interval + 1) =? interval)).
  { rewrite list_lookup_fmap, lookup_seq_lt by lia. simpl.
    by rewrite is_expansion_mod, Z2Nat.id by lia. }
  subst filled. rewrite fill_next_ring_lookup by (rewrite length_replicate; lia).
  destruct (i `mod` (interval + 1) =? interval).
  - rewrite next_cell_expansion
      by (done || rewrite next_cells_upto_length, length_replicate; lia).
    rewrite Hcur. destruct (0 <? c) eqn:E; [|lia].
    destruct (lookup_lt_is_Some_2 currentCells (Z.to_nat (c - 1))) as [v Hv]; [lia|].
    exists v. split; [done|]. split; [lia|]. f_equal. apply get_Some; [lia|done].
  - rewrite next_cell_rule
      by (done || rewrite next_cells_upto_length, length_replicate; lia).
    rewrite Hcur. split; [apply lookup_lt_is_Some_2; lia|]. split; [lia|].
    f_equal. apply rule_at_step; [done|lia].
Qed.

Lemma generated_ring_layout_witness :
  let ruleset := [bit 0; bit 1; bit 0; bit 1; bit 1; bit 0; bit 1; bit 0] in
  let currentCells := [bit 1; bit 0; bit 0; bit 1] in
  let hole := replicate 6 Undefined in
  let mask := [false; false; true; false; false; true] in
  1 ≤ 2 ∧ currentCells ≠ []
  ∧ buildRing (len currentCells) (Int 2) = Ok (hole, mask)
  ∧ 0 ≤ 5 < Z.of_nat (length hole)
  ∧ ∃ v, currentCells !! Z.to_nat (parent 2 5 - 1) = Some v ∧ 1 ≤ parent 2 5
         ∧ fill_next_ring ruleset currentCells mask hole !! Z.to_nat 5 = Some v.
Proof.
  intros ruleset currentCells hole mask.
  assert (Hi : 0 ≤ 5 < Z.of_nat (length hole)) by (simpl; lia).
  split; [lia|]. split; [done|]. split; [reflexivity|]. split; [exact Hi|].
  exact (generated_ring_layout ruleset currentCells hole mask 2 5
           ltac:(lia) ltac:(done) eq_refl Hi).
Defined.

(** ** Rings without expansion cells *)

Lemma is_expansion_never (interval : Z) (n i : nat) :
  (Z.of_nat n ≤ interval ∨ interval < 0) → (i < n)%nat →
  is_expansion (Int interval) i = false.
Proof.
  intros Hk Hi. unfold is_expansion. simpl.
  destruct (interval + 1 =? 0) eqn:E; [done|]. simpl. apply Z.eqb_neq.
  destruct Hk as [Hk|Hk].
  - rewrite Z.rem_small by lia. lia.
  - pose proof (Z.rem_nonneg (Z.of_nat i) (interval + 1) ltac:(lia) ltac:(lia)). lia.
Qed.

Lemma rule_cells_replicate_false (n k : nat) :
  (k ≤ n)%nat → rule_cells (replicate n false) k = k.
Proof.
  induction k as [|k IH]; [done|]. intros Hk.
  rewrite rule_cells_S, IH by lia. rewrite lookup_replicate_2 by lia. simpl. lia.
Qed.

Lemma mask_without_expansion (interval : Z) (n : nat) :
  Z.of_nat n ≤ interval ∨ interval < 0 →
  is_expansion (Int interval) <$> seq 0 n = replicate n false.
Proof.
  intros Hk. apply list_eq. intros j. rewrite list_lookup_fmap.
  destruct (decide (j < n)%nat) as [Hj|Hj].
  - rewrite lookup_seq_lt, lookup_replicate_2 by done. simpl. f_equal.
    by apply (is_expansion_never interval n).
  - rewrite lookup_seq_ge by lia.
    by rewrite (proj1 (lookup_replicate_None n false j)) by lia.
Qed.

(** X5.  An interval that is larger than the previous ring, or negative,
    marks no expansion cell: the next ring is one plain step of the
    cellular automaton on the circle, cell [i] being the rule applied to the
    neighbourhood of cell [i] of the previous ring.  With an interval that
    is larger than the ring the count stays as it is; with a negative
    interval the ring gets shorter and the step is cut off at its end. *)
Theorem ring_without_expansion (ruleset currentCells hole : list value)
    (mask : list bool) (interval : Z) :
  currentCells ≠ [] →
  Z.of_nat (length currentCells) < interval ∨ interval < 0 →
  buildRing (len currentCells) (Int interval) = Ok (hole, mask) →
  let p := Z.of_nat (length currentCells) in
  let n := Z.of_nat (length hole) in
  n = p + p / interval
  ∧ (p < interval → n = p) ∧ (interval < 0 → n < p)
  ∧ mask = replicate (length hole) false
  ∧ ∀ i, 0 ≤ i < n →
      fill_next_ring ruleset currentCells mask hole !! Z.to_nat i
      = Some (rule_at ruleset currentCells i).
Proof.
  intros Hne Hk Hbuild p n. subst n.
  assert (Hp : 1 ≤ p) by (subst p; destruct currentCells; [done | simpl; lia]).
  pose proof (floor_quotient_bound p interval ltac:(lia) ltac:(lia)) as Hn.
  assert (Hq : (p < interval → p / interval = 0) ∧ (interval < 0 → p / interval < 0)).
  { split; intros Hcase; [apply Z.div_small; lia|].
    rewrite <- Z.div_opp_opp by lia.
    apply Z.div_lt_upper_bound; [lia|]. nia. }
  unfold len in Hbuild. fold p in Hbuild. buildRing_Ok Hbuild.
  set (m := Z.to_nat (p + p / interval)) in *.
  assert (Hmask : is_expansion (Int interval) <$> seq 0 m = replicate m false).
  { apply mask_without_expansion.
    destruct Hk as [Hk|Hk]; [left|by right].
    destruct Hq as [Hq _]. rewrite (Hq Hk) in *. lia. }
  rewrite Hmask in Hbuild. injection Hbuild as <- <-.
  rewrite length_replicate.
  split; [lia|].
  split; [destruct Hq as [Hq _]; intros Hcase; specialize (Hq Hcase); lia|].
  split; [destruct Hq as [_ Hq]; intros Hcase; specialize (Hq Hcase); lia|].
  split; [done|]. intros i Hi.
  rewrite fill_next_ring_lookup by (rewrite length_replicate; lia).
  rewrite next_cell_rule.
  - rewrite cursor_rule_cells, rule_cells_replicate_false, Z2Nat.id by lia.
    f_equal. apply rule_at_step; [done|lia].
  - by rewrite lookup_replicate_2 by lia.
  - rewrite next_cells_upto_length, length_replicate. lia.
Qed.

Lemma ring_without_expansion_witness :
  let ruleset := [bit 0; bit 1; bit 0; bit 1; bit 1; bit 0; bit 1; bit 0] in
  let currentCells := [bit 1; bit 0; bit 0; bit 1] in
  let hole := replicate 2 Undefined in
  let mask := [false; false] in
  currentCells ≠ []
  ∧ (Z.of_nat (length currentCells) < -3 ∨ -3 < 0)
  ∧ buildRing (len currentCells) (Int (-3)) = Ok (hole, mask)
  ∧ Z.of_nat (length hole) = Z.of_nat (length currentCells) + Z.of_nat (length currentCells) / -3
  ∧ mask = replicate (length hole) false.
Proof.
  intros ruleset currentCells hole mask.
  assert (Hk : Z.of_nat (length currentCells) < -3 ∨ -3 < 0) by (right; lia).
  split; [done|]. split; [exact Hk|]. split; [reflexivity|].
  destruct (ring_without_expansion ruleset currentCells hole mask (-3)
              ltac:(done) Hk eq_refl) as (Hn & _ & _ & Hmask & _).
  split; [exact Hn|exact Hmask].
Defined.

(** ** The rule function outside bits *)

Lemma rules_in_ruleset (ruleset : list value) (a b c : value) :
  rules ruleset a b c = Undefined ∨ rules ruleset a b c ∈ ruleset.
Proof.
  unfold rules, get. cbv zeta.
  destruct (sub _ _) as [z| | |]; try by left.
  destruct (0 <=? z); [|by left].
  destruct (ruleset !! Z.to_nat z) as [v|] eqn:E; [|by left].
  right. simpl. by eapply list_elem_of_lookup_2.
Qed.

(** X6.  What [rules] does with cells that are not bits.  Its result is
    always an entry of the ruleset or [undefined].  The neighbourhood is read
    up to its first character that is no binary digit: a left neighbour that
    is [undefined], [NaN] or infinite gives [undefined] whatever the other
    two cells are, and a bit followed by such a centre cell selects the
    ruleset entry [7 - left]. *)
Theorem rules_beyond_bits (ruleset : list value) (a b c : value) (left : Z) :
  a = Undefined ∨ a = Num NaN ∨ a = Num PosInf ∨ a = Num NegInf →
  left = 0 ∨ left = 1 →
  rules ruleset a b c = Undefined
  ∧ rules ruleset (bit left) a c = get ruleset (Int (7 - left))
  ∧ ∀ x y z, rules ruleset x y z = Undefined ∨ rules ruleset x y z ∈ ruleset.
Proof.
  intros Ha Hl. split; [|split; [|apply rules_in_ruleset]].
  - destruct Ha as [-> | [-> | [-> | ->]]]; reflexivity.
  - destruct Hl as [-> | ->], Ha as [-> | [-> | [-> | ->]]]; reflexivity.
Qed.

Lemma rules_beyond_bits_witness :
  let ruleset := [bit 0; bit 1; bit 0; bit 1; bit 1; bit 0; bit 1; bit 0] in
  rules ruleset Undefined (bit 1) (bit 0) = Undefined
  ∧ rules ruleset (bit 1) Undefined (bit 0) = get ruleset (Int (7 - 1))
  ∧ ∀ x y z, rules ruleset x y z = Undefined ∨ rules ruleset x y z ∈ ruleset.
Proof.
  intros ruleset.
  exact (rules_beyond_bits ruleset Undefined (bit 1) (bit 0) 1
           (or_introl eq_refl) (or_intror eq_refl)).
Defined.

(** ** The ruleset as a rule number *)

Lemma bit_value_b2z (v : value) : is_bit_value v → ∃ x : bool, v = bit (Z.b2z x).
Proof. intros [-> | ->]; [by exists false | by exists true]. Qed.

Lemma rules_testbit (b7 b6 b5 b4 b3 b2 b1 b0 l c r : bool) :
  let ruleset := (λ x, bit (Z.b2z x)) <$> [b7; b6; b5; b4; b3; b2; b1; b0] in
  rules ruleset (bit (Z.b2z l)) (bit (Z.b2z c)) (bit (Z.b2z r))
  = bit (Z.b2z (Z.testbit (rule_number ruleset)
                  (Z.b2z l * 4 + Z.b2z c * 2 + Z.b2z r))).
Proof.
  destruct b7, b6, b5, b4, b3, b2, b1, b0, l, c, r; vm_compute; reflexivity.
Qed.

(** X7.  A ruleset of 8 bits is the binary expansion of its rule number,
    most significant bit first, and [rules] returns bit
    [left*4 + center*2 + right] of that number: the ruleset
    [0,1,0,1,1,0,1,0] is Rule 90.  The rule number is below 256. *)
Theorem rules_rule_number (ruleset : list value) (left center right : Z) :
  length ruleset = 8%nat → Forall is_bit_value ruleset →
  left = 0 ∨ left = 1 → center = 0 ∨ center = 1 → right = 0 ∨ right = 1 →
  0 ≤ rule_number ruleset < 256
  ∧ rules ruleset (bit left) (bit center) (bit right)
    = bit (Z.b2z (Z.testbit (rule_number ruleset) (left * 4 + center * 2 + right))).
Proof.
  intros Hlen Hbits [l ->]%is_bit_b2z [c ->]%is_bit_b2z [r ->]%is_bit_b2z.
  do 9 (destruct ruleset as [|? ruleset]; try done).
  repeat match goal with
         | H : Forall _ (_ :: _) |- _ =>
             apply Forall_cons in H as [[? ->]%bit_value_b2z H]
         end.
  split.
  - repeat match goal with x : bool |- _ => destruct x end; vm_compute; done.
  - match goal with
    | |- context [ [bit (Z.b2z ?b7); bit (Z.b2z ?b6); bit (Z.b2z ?b5); bit (Z.b2z ?b4);
                    bit (Z.b2z ?b3); bit (Z.b2z ?b2); bit (Z.b2z ?b1); bit (Z.b2z ?b0)] ] =>
        exact (rules_testbit b7 b6 b5 b4 b3 b2 b1 b0 l c r)
    end.
Qed.

Lemma rules_rule_number_witness :
  let ruleset := [bit 0; bit 1; bit 0; bit 1; bit 1; bit 0; bit 1; bit 0] in
  length ruleset = 8%nat ∧ Forall is_bit_value ruleset
  ∧ rule_number ruleset = 90
  ∧ 0 ≤ rule_number ruleset < 256
  ∧ rules ruleset (bit 1) (bit 0) (bit 0)
    = bit (Z.b2z (Z.testbit (rule_number ruleset) (1 * 4 + 0 * 2 + 0))).
Proof.
  intros ruleset.
  assert (Hbits : Forall is_bit_value ruleset).
  { unfold ruleset.
    repeat (apply Forall_cons_2; [first [by left | by right]|]). apply Forall_nil_2. }
  split; [reflexivity|]. split; [exact Hbits|]. split; [reflexivity|].
  exact (rules_rule_number ruleset 1 0 0 eq_refl Hbits
           (or_intror eq_refl) (or_introl eq_refl) (or_introl eq_refl)).
Defined.

(** ** The pattern control after a restart *)

Lemma fit_pattern_bits (initialPattern : list value) (count : Z) :
  Forall is_bit_value initialPattern →
  Forall is_bit_value (fit_pattern initialPattern count).
Proof.
  intros Hbits.
  destruct (decide (Z.of_nat (length initialPattern) = count)) as [Heq|Hne].
  { by rewrite fit_pattern_same. }
  rewrite fit_pattern_rebuilt by done.
  apply Forall_fmap, Forall_forall. intros i [Hi _]%elem_of_seqZ. simpl.
  destruct (fit_pattern_cyclic initialPattern i Hbits Hi) as (cell & Hc & Hnil & Hcell).
  subst cell.
  destruct (decide (initialPattern = [])) as [He|He]; [left; by apply Hnil|].
  rewrite Forall_forall in Hbits. by eapply Hbits, list_elem_of_lookup_2, Hcell.
Qed.

Lemma fit_pattern_negative (initialPattern : list value) (count : Z) :
  count < 0 → fit_pattern initialPattern count = [].
Proof.
  intros Hc. rewrite fit_pattern_rebuilt by lia. by rewrite seqZ_nil by lia.
Qed.

(** X8.  The pattern that [restartSimulation] builds from the pattern control
    holds bits only, whatever the text of the control.  When the pattern
    is rebuilt, the text written back to the control reads back as that very
    pattern: a second restart with the same cell count starts from the same
    pattern and leaves the control as it is. *)
Theorem pattern_control_round_trip (patternStr : string) (initialCellCount : Z) :
  let fitted := fit_pattern (read_pattern patternStr) initialCellCount in
  let written := pattern_control patternStr initialCellCount in
  Forall is_bit_value fitted
  ∧ fit_pattern (read_pattern written) initialCellCount = fitted
  ∧ pattern_control written initialCellCount = written
  ∧ (0 ≤ initialCellCount → read_pattern written = fitted).
Proof.
  intros fitted written.
  assert (Hbits : Forall is_bit_value fitted).
  { apply fit_pattern_bits, read_pattern_bits. }
  split; [done|].
  destruct (decide (Z.of_nat (length (read_pattern patternStr)) = initialCellCount))
    as [Heq|Hne].
  - assert (written = patternStr) as ->.
    { unfold written, pattern_control, len. simpl.
      by rewrite (proj2 (Z.eqb_eq _ _) Heq). }
    split; [done|]. split.
    + unfold pattern_control, len. simpl. by rewrite (proj2 (Z.eqb_eq _ _) Heq).
    + intros _. unfold fitted. by rewrite fit_pattern_same.
  - assert (written = join "," fitted) as ->.
    { unfold written, pattern_control, len. simpl.
      by rewrite (proj2 (Z.eqb_neq _ _) Hne). }
    rewrite read_pattern_join by done.
    destruct (decide (0 ≤ initialCellCount)) as [Hc|Hc].
    + assert (Hlen : Z.of_nat (length fitted) = initialCellCount)
        by by apply fit_pattern_length.
      split; [by apply fit_pattern_same|]. split; [|done].
      unfold pattern_control. rewrite read_pattern_join by done.
      unfold len. simpl. by rewrite (proj2 (Z.eqb_eq _ _) Hlen).
    + assert (fitted = []) as -> by (apply fit_pattern_negative; lia).
      split; [apply fit_pattern_negative; lia|]. split; [|lia].
      unfold pattern_control. rewrite read_pattern_join by done.
      rewrite fit_pattern_negative by lia.
      by destruct (negb _).
Qed.

Example pattern_control_examples :
  pattern_control "1,0" 5 = "1,0,1,0,1"
  ∧ pattern_control "1, x,0 ,7" 2 = "1, x,0 ,7"
  ∧ pattern_control "abc" 3 = "0,0,0"
  ∧ pattern_control "1,1,1" 0 = EmptyString.
Proof. vm_compute. repeat split. Qed.

(** ** The rings of a run *)

Lemma generateNextRing_fills (ruleset : list value) (rings : list (list value))
    (masks : list (list bool)) (ringIndex : Z) :
  length rings = length masks → 0 ≤ ringIndex → ringIndex + 1 < Z.of_nat (length rings) →
  ∃ cur mask next,
    rings !! Z.to_nat ringIndex = Some cur
    ∧ masks !! Z.to_nat (ringIndex + 1) = Some mask
    ∧ rings !! Z.to_nat (ringIndex + 1) = Some next
    ∧ generateNextRing ruleset rings masks ringIndex
      = Ok (<[Z.to_nat (ringIndex + 1) := fill_next_ring ruleset cur mask next]> rings).
Proof.
  intros Hlen H0 Hnext. unfold generateNextRing.
  destruct (lookup_lt_is_Some_2 rings (Z.to_nat (ringIndex + 1))) as [next Hn]; [lia|].
  destruct (lookup_lt_is_Some_2 masks (Z.to_nat (ringIndex + 1))) as [mask Hm]; [lia|].
  destruct (lookup_lt_is_Some_2 rings (Z.to_nat ringIndex)) as [cur Hc]; [lia|].
  exists cur, mask, next. rewrite Hn, Hm, Hc. repeat (split; [done|]).
  destruct (decide (length next = 0%nat)) as [Hz|Hz]; [|done].
  f_equal. symmetry. apply list_insert_id. rewrite Hn. f_equal.
  by rewrite (nil_length_inv next Hz).
Qed.

Lemma lengths_lookup (rings rings0 : list (list value)) (r : nat) (a b : list value) :
  length <$> rings = length <$> rings0 →
  rings !! r = Some a → rings0 !! r = Some b → length a = length b.
Proof.
  intros Hl Ha Hb.
  assert (Some (length a) = Some (length b)) as [= ->]; [|done].
  rewrite <- (fmap_Some_2 length _ _ Ha), <- (fmap_Some_2 length _ _ Hb).
  by rewrite <- !list_lookup_fmap, Hl.
Qed.

(** A frame keeps the run in order. *)
Lemma draw_frame_generated (numRings : Z) (ruleset : list value)
    (masks : list (list bool)) (rings0 rings rings' : list (list value))
    (currentRing currentRing' : Z) :
  length rings0 = length masks → numRings ≤ Z.of_nat (length rings0) → 0 ≤ currentRing →
  generated_upto numRings ruleset masks rings0 rings currentRing →
  draw_frame numRings ruleset masks rings currentRing = Ok (rings', currentRing') →
  generated_upto numRings ruleset masks rings0 rings' currentRing'
  ∧ currentRing ≤ currentRing'.
Proof.
  intros Hlen0 Hnum Hcur (Hlens & Hfirst & Hrest & Hgen) Hdraw.
  assert (Hlen : length rings = length rings0).
  { by rewrite <- (length_fmap length rings), Hlens, length_fmap. }
  unfold draw_frame in Hdraw.
  destruct (numRings <=? currentRing) eqn:E.
  { injection Hdraw as <- <-. split; [by repeat split|lia]. }
  rewrite render_reads_ok in Hdraw by lia. simpl in Hdraw.
  destruct (currentRing <? numRings - 1) eqn:E'.
  - destruct (generateNextRing_fills ruleset rings masks currentRing)
      as (cur & mask & next & Hc & Hm & Hn & Hfill); [lia..|].
    rewrite Hfill in Hdraw. simpl in Hdraw. injection Hdraw as <- <-.
    split; [|lia]. split; [|split; [|split]].
    + rewrite list_fmap_insert. rewrite fill_next_ring_length, <- Hlens.
      apply list_insert_id. by rewrite list_lookup_fmap, Hn.
    + rewrite list_lookup_insert_ne by lia. done.
    + intros r Hr. rewrite list_lookup_insert_ne by lia. apply Hrest. lia.
    + intros r prev Hr Hr' Hprev.
      rewrite list_lookup_insert_ne in Hprev by lia.
      destruct (decide (Z.of_nat (S r) ≤ currentRing)) as [Hold|Hnew].
      * destruct (Hgen r prev Hold Hr' Hprev) as (mk & hole & ? & ? & ?).
        exists mk, hole. rewrite list_lookup_insert_ne by lia. done.
      * assert (S r = Z.to_nat (currentRing + 1)) as Heq by lia.
        assert (r = Z.to_nat currentRing) as Heq' by lia.
        exists mask, next. rewrite Heq. split; [done|].
        split; [rewrite <- Hn; symmetry; apply Hrest; lia|].
        rewrite list_lookup_insert_eq by lia.
        rewrite Heq' in Hprev. by replace prev with cur by congruence.
  - simpl in Hdraw. injection Hdraw as <- <-.
    split; [|lia]. split; [done|]. split; [done|]. split.
    + intros r Hr. apply Hrest. lia.
    + intros r prev Hr Hr' Hprev. apply Hgen; [lia|done..].
Qed.

Lemma generated_upto_start (numRings : Z) (ruleset : list value)
    (masks : list (list bool)) (rings0 : list (list value)) :
  generated_upto numRings ruleset masks rings0 rings0 0.
Proof. split; [done|]. split; [done|]. split; [done|]. intros r prev Hr. lia. Qed.

Lemma Constant_frames_generated (k : nat) (rings0 : list (list value))
    (s s' : Constant.state) :
  length rings0 = length (Constant.expansionMap s) →
  Constant.numRings s ≤ Z.of_nat (length rings0) → 0 ≤ Constant.currentRing s →
  generated_upto (Constant.numRings s) (Constant.ruleset s) (Constant.expansionMap s)
    rings0 (Constant.rings s) (Constant.currentRing s) →
  Constant.frames k s = Ok s' →
  generated_upto (Constant.numRings s) (Constant.ruleset s) (Constant.expansionMap s)
    rings0 (Constant.rings s') (Constant.currentRing s')
  ∧ Constant.currentRing s ≤ Constant.currentRing s'.
Proof.
  revert s. induction k as [|k IH]; intros s Hlen Hnum Hcur Hinv Hframes.
  { simpl in Hframes. injection Hframes as <-. split; [done|lia]. }
  simpl in Hframes. unfold Constant.draw in Hframes.
  destruct (draw_frame _ _ _ _ _) as [[rings1 cur1]|] eqn:Hdraw; [|done].
  destruct (draw_frame_generated _ _ _ _ _ _ _ _ Hlen Hnum Hcur Hinv Hdraw)
    as [Hinv1 Hcur1].
  simpl in Hframes. apply IH in Hframes; simpl in *; [|done..|lia|done].
  split; [apply Hframes|lia].
Qed.

Lemma Scheduled_frames_generated (k : nat) (rings0 : list (list value))
    (s s' : Scheduled.state) :
  length rings0 = length (Scheduled.expansionMap s) →
  Scheduled.numRings s ≤ Z.of_nat (length rings0) → 0 ≤ Scheduled.currentRing s →
  generated_upto (Scheduled.numRings s) (Scheduled.ruleset s) (Scheduled.expansionMap s)
    rings0 (Scheduled.rings s) (Scheduled.currentRing s) →
  Scheduled.frames k s = Ok s' →
  generated_upto (Scheduled.numRings s) (Scheduled.ruleset s) (Scheduled.expansionMap s)
    rings0 (Scheduled.rings s') (Scheduled.currentRing s')
  ∧ Scheduled.currentRing s ≤ Scheduled.currentRing s'.
Proof.
  revert s. induction k as [|k IH]; intros s Hlen Hnum Hcur Hinv Hframes.
  { simpl in Hframes. injection Hframes as <-. split; [done|lia]. }
  simpl in Hframes. unfold Scheduled.draw in Hframes.
  destruct (draw_frame _ _ _ _ _) as [[rings1 cur1]|] eqn:Hdraw; [|done].
  destruct (draw_frame_generated _ _ _ _ _ _ _ _ Hlen Hnum Hcur Hinv Hdraw)
    as [Hinv1 Hcur1].
  simpl in Hframes. apply IH in Hframes; simpl in *; [|done..|lia|done].
  split; [apply Hframes|lia].
Qed.

Lemma generated_upto_length (numRings : Z) (ruleset : list value)
    (masks : list (list bool)) (rings0 rings : list (list value)) (c : Z) :
  generated_upto numRings ruleset masks rings0 rings c → length rings = length rings0.
Proof.
  intros (Hlens & _). by rewrite <- (length_fmap length rings), Hlens, length_fmap.
Qed.

(** Once the run is over, every ring comes from the ring before it. *)
Lemma generated_recurrence (interval_for : Z → number → number) (numRings : Z)
    (ruleset : list value) (masks : list (list bool))
    (rings0 rings : list (list value)) (c : Z) :
  topology interval_for rings0 masks →
  generated_upto numRings ruleset masks rings0 rings c →
  numRings ≤ c → Z.of_nat (length rings0) ≤ Z.max numRings 1 →
  ∀ (r : nat) prev, rings !! r = Some prev → (S r < length rings)%nat →
    ∃ hole mask,
      buildRing (len prev) (interval_for (Z.of_nat (S r)) (len prev)) = Ok (hole, mask)
      ∧ masks !! S r = Some mask
      ∧ rings !! S r = Some (fill_next_ring ruleset prev mask hole).
Proof.
  intros [_ Hsteps] Hinv Hc Hmax r prev Hprev Hr.
  pose proof (generated_upto_length _ _ _ _ _ _ Hinv) as Hlen.
  destruct Hinv as (Hlens & _ & _ & Hgen).
  destruct (Hgen r prev) as (mask & hole & Hm & Hh & Hfill); [lia|lia|done|].
  destruct (lookup_lt_is_Some_2 rings0 r) as [prev0 Hprev0]; [lia|].
  destruct (Hsteps r prev0 Hprev0) as (cells & mask' & Hcells & Hmask' & Hbuild); [lia|].
  assert (cells = hole) as -> by congruence.
  assert (mask' = mask) as -> by congruence.
  exists hole, mask. split; [|done].
  unfold len in *. by rewrite (lengths_lookup rings rings0 r prev prev0).
Qed.

(** Two moments of the same run agree on the rings that both have
    generated. *)
Lemma generated_agree (numRings : Z) (ruleset : list value) (masks : list (list bool))
    (rings0 rings1 rings2 : list (list value)) (c1 c2 : Z) (r : nat) :
  generated_upto numRings ruleset masks rings0 rings1 c1 →
  generated_upto numRings ruleset masks rings0 rings2 c2 →
  Z.of_nat r ≤ c1 → c1 ≤ c2 →
  rings2 !! r = rings1 !! r.
Proof.
  intros Hinv1 Hinv2 Hr Hc.
  pose proof (generated_upto_length _ _ _ _ _ _ Hinv1) as Hlen1.
  pose proof (generated_upto_length _ _ _ _ _ _ Hinv2) as Hlen2.
  destruct Hinv1 as (_ & Hfirst1 & Hrest1 & Hgen1).
  destruct Hinv2 as (_ & Hfirst2 & Hrest2 & Hgen2).
  induction r as [|r IH]; [congruence|].
  destruct (decide (numRings ≤ Z.of_nat (S r))) as [Hout|Hin].
  { rewrite Hrest1, Hrest2 by lia. done. }
  destruct (rings1 !! r) as [prev|] eqn:Hprev.
  - destruct (Hgen1 r prev) as (mask & hole & Hm & Hh & ->); [lia..|done|].
    destruct (Hgen2 r prev) as (mask' & hole' & Hm' & Hh' & ->); [lia..| |].
    + rewrite IH by lia. done.
    + congruence.
  - apply lookup_ge_None in Hprev.
    rewrite !(lookup_ge_None_2 _ (S r)) by lia. done.
Qed.

Lemma Constant_run_generated (s : Constant.state) :
  fits (λ _ _, Constant.expansionInterval s)
    (Constant.initialCellCount s) (Constant.numRings s) = true →
  ∃ s0 s',
    Constant.initializeSimulation s = Ok s0
    ∧ Constant.run s = Ok s'
    ∧ Constant.expansionMap s' = Constant.expansionMap s0
    ∧ topology (λ _ _, Constant.expansionInterval s)
        (Constant.rings s0) (Constant.expansionMap s0)
    ∧ generated_upto (Constant.numRings s) (Constant.ruleset s) (Constant.expansionMap s0)
        (Constant.rings s0) (Constant.rings s') (Constant.currentRing s')
    ∧ Constant.numRings s ≤ Constant.currentRing s'
    ∧ length (Constant.rings s0) = S (Z.to_nat (Constant.numRings s - 1))
    ∧ Constant.rings s0 !! 0%nat
      = Some (first_ring (Constant.initialPattern s) (Constant.initialCellCount s)).
Proof.
  intros Hfits.
  destruct (Constant_initializeSimulation_fits s Hfits)
    as (s0 & Hinit & Hready & Hsame & Hcur & Htop & _ & Hlen & Hfirst).
  destruct (Constant_frames_ok (Z.to_nat (Constant.numRings s0) + 1) s0 Hready)
    as (s' & Hframes & _ & _ & Hmap & _ & Hend).
  destruct Hsame as (_ & Hnum & _ & Hrules & _).
  destruct Hready as (Hpar & Hnum0 & _).
  exists s0, s'. split; [done|].
  split; [unfold Constant.run; by rewrite Hinit|].
  split; [done|]. split; [done|]. split.
  - rewrite Hnum, Hrules.
    eapply proj1, (Constant_frames_generated (Z.to_nat (Constant.numRings s0) + 1) _ s0 s');
      [done|done|lia| |done].
    rewrite Hcur. apply generated_upto_start.
  - split; [|by split]. rewrite Hnum. apply Hend. lia.
Qed.

(** X9.  A run of the constant-interval sketch whose ring counts all fit
    in an array (each an integer between 0 and 2^32-1, which asks for a
    count of cells that is not negative and, past ring 0, for a non-zero
    interval): it ends without an error with [max(numRings, 1)] rings;
    ring 0 is the initial pattern cut or padded to [initialCellCount]
    cells, and every later ring is what [generateNextRing] fills, from the
    finished ring before it, into the holes and the mask that the
    pre-calculation made for the length of that ring. *)
Theorem Constant_run_rings (s : Constant.state) :
  fits (λ _ _, Constant.expansionInterval s)
    (Constant.initialCellCount s) (Constant.numRings s) = true →
  ∃ s',
    Constant.run s = Ok s'
    ∧ length (Constant.rings s') = S (Z.to_nat (Constant.numRings s - 1))
    ∧ Constant.rings s' !! 0%nat
      = Some (first_ring (Constant.initialPattern s) (Constant.initialCellCount s))
    ∧ ∀ (r : nat) prev,
        Constant.rings s' !! r = Some prev → (S r < length (Constant.rings s'))%nat →
        ∃ hole mask,
          buildRing (len prev) (Constant.expansionInterval s) = Ok (hole, mask)
          ∧ Constant.expansionMap s' !! S r = Some mask
          ∧ Constant.rings s' !! S r
            = Some (fill_next_ring (Constant.ruleset s) prev mask hole).
Proof.
  intros Hfits.
  destruct (Constant_run_generated s Hfits)
    as (s0 & s' & _ & Hrun & Hmap & Htop & Hinv & Hend & Hlen & Hfirst).
  pose proof (generated_upto_length _ _ _ _ _ _ Hinv) as Hlen'.
  exists s'. split; [done|]. split; [congruence|]. split.
  - destruct Hinv as (_ & -> & _). done.
  - rewrite Hmap.
    apply (generated_recurrence (λ _ _, Constant.expansionInterval s)
             _ _ _ _ _ _ Htop Hinv Hend). lia.
Qed.

Lemma Constant_run_rings_witness :
  let s := Constant.Build_state 4 3 (Int 2)
             [bit 0; bit 1; bit 0; bit 1; bit 1; bit 0; bit 1; bit 0]
             [bit 1; bit 0; bit 0; bit 0] [] [] 0 in
  fits (λ _ _, Constant.expansionInterval s)
    (Constant.initialCellCount s) (Constant.numRings s) = true
  ∧ ∃ s',
      Constant.run s = Ok s'
      ∧ length (Constant.rings s') = S (Z.to_nat (Constant.numRings s - 1))
      ∧ Constant.rings s' !! 0%nat
        = Some (first_ring (Constant.initialPattern s) (Constant.initialCellCount s))
      ∧ ∀ (r : nat) prev,
          Constant.rings s' !! r = Some prev → (S r < length (Constant.rings s'))%nat →
          ∃ hole mask,
            buildRing (len prev) (Constant.expansionInterval s) = Ok (hole, mask)
            ∧ Constant.expansionMap s' !! S r = Some mask
            ∧ Constant.rings s' !! S r
              = Some (fill_next_ring (Constant.ruleset s) prev mask hole).
Proof.
  intros s.
  assert (Hfits : fits (λ _ _, Constant.expansionInterval s)
                    (Constant.initialCellCount s) (Constant.numRings s) = true)
    by reflexivity.
  split; [exact Hfits|].
  exact (Constant_run_rings s Hfits).
Defined.

Example Constant_run_example :
  let s := Constant.Build_state 4 3 (Int 2)
             [bit 0; bit 1; bit 0; bit 1; bit 1; bit 0; bit 1; bit 0]
             [bit 1; bit 0; bit 0; bit 0] [] [] 0 in
  (s' ← Constant.run s; mret (Constant.rings s'))
  = Ok [[bit 1; bit 0; bit 0; bit 0];
       [bit 0; bit 1; bit 0; bit 0; bit 1; bit 0];
       [bit 1; bit 0; bit 1; bit 1; bit 1; bit 0; bit 0; bit 1; bit 0]].
Proof. vm_compute. reflexivity. Qed.

Lemma Scheduled_initializeSimulation_safe (s : Scheduled.state) :
  1 ≤ Scheduled.initialCellCount s →
  safe_schedule (Scheduled.expansionIntervals s) →
  fits (Scheduled.interval_for (schedule_in_use s))
    (Scheduled.initialCellCount s) (Scheduled.numRings s) = true →
  ∃ s0,
    Scheduled.initializeSimulation s = Ok s0
    ∧ Scheduled.ready s0
    ∧ Scheduled.currentRing s0 = 0
    ∧ Scheduled.numRings s0 = Scheduled.numRings s
    ∧ Scheduled.ruleset s0 = Scheduled.ruleset s
    ∧ safe_schedule (schedule_in_use s)
    ∧ topology (Scheduled.interval_for (schedule_in_use s))
        (Scheduled.rings s0) (Scheduled.expansionMap s0)
    ∧ Forall (λ ring, 1 ≤ Z.of_nat (length ring)) (Scheduled.rings s0)
    ∧ length (Scheduled.rings s0) = S (Z.to_nat (Scheduled.numRings s - 1))
    ∧ Scheduled.rings s0 !! 0%nat
      = Some (first_ring (Scheduled.initialPattern s) (Scheduled.initialCellCount s)).
Proof.
  intros Hcount Hsafe Hfits.
  destruct (Scheduled_initializeSimulation_fits s Hfits)
    as (s0 & Hinit & Hready & Hcur & Hnum & Hrules & _ & _ & Htop & _ & Hlen & Hfirst).
  destruct (safe_rings s s0 Hcount Hsafe Hinit) as [Hlo _].
  exists s0. do 5 (split; [done|]).
  split; [by apply schedule_in_use_safe|]. split; [done|].
  split; [|by split].
  eapply Forall_impl; [exact Hlo|]. simpl. intros ring Hring. lia.
Qed.

Lemma Scheduled_frames_expansionMap (k : nat) (s s' : Scheduled.state) :
  Scheduled.frames k s = Ok s' → Scheduled.expansionMap s' = Scheduled.expansionMap s.
Proof.
  revert s. induction k as [|k IH]; intros s Hframes; simpl in Hframes.
  { by injection Hframes as <-. }
  unfold Scheduled.draw in Hframes.
  destruct (draw_frame _ _ _ _ _) as [[rings1 cur1]|]; [|done].
  simpl in Hframes. by apply IH in Hframes.
Qed.

Lemma Scheduled_run_generated (s : Scheduled.state) :
  1 ≤ Scheduled.initialCellCount s →
  safe_schedule (Scheduled.expansionIntervals s) →
  fits (Scheduled.interval_for (schedule_in_use s))
    (Scheduled.initialCellCount s) (Scheduled.numRings s) = true →
  ∃ s0 s',
    Scheduled.initializeSimulation s = Ok s0
    ∧ Scheduled.run s = Ok s'
    ∧ Scheduled.expansionMap s' = Scheduled.expansionMap s0
    ∧ topology (Scheduled.interval_for (schedule_in_use s))
        (Scheduled.rings s0) (Scheduled.expansionMap s0)
    ∧ generated_upto (Scheduled.numRings s) (Scheduled.ruleset s)
        (Scheduled.expansionMap s0)
        (Scheduled.rings s0) (Scheduled.rings s') (Scheduled.currentRing s')
    ∧ Scheduled.numRings s ≤ Scheduled.currentRing s'
    ∧ Forall (λ ring, 1 ≤ Z.of_nat (length ring)) (Scheduled.rings s')
    ∧ length (Scheduled.rings s0) = S (Z.to_nat (Scheduled.numRings s - 1))
    ∧ Scheduled.rings s0 !! 0%nat
      = Some (first_ring (Scheduled.initialPattern s) (Scheduled.initialCellCount s)).
Proof.
  intros Hcount Hsafe Hfits.
  destruct (Scheduled_initializeSimulation_safe s Hcount Hsafe Hfits)
    as (s0 & Hinit & Hready & Hcur & Hnum & Hrules & _ & Htop & Hlo & Hlen & Hfirst).
  destruct (Scheduled_frames_ok (Z.to_nat (Scheduled.numRings s0) + 1) s0 Hready)
    as (s' & Hframes & _ & _ & Hend).
  destruct Hready as (Hpar & Hnum0 & _).
  assert (Hinv : generated_upto (Scheduled.numRings s) (Scheduled.ruleset s)
                   (Scheduled.expansionMap s0)
                   (Scheduled.rings s0) (Scheduled.rings s') (Scheduled.currentRing s')).
  { rewrite <- Hnum, <- Hrules.
    eapply proj1, (Scheduled_frames_generated (Z.to_nat (Scheduled.numRings s0) + 1) _ s0 s');
      [done|done|lia| |done].
    rewrite Hcur. apply generated_upto_start. }
  exists s0, s'. split; [done|].
  split; [unfold Scheduled.run; by rewrite Hinit|].
  split; [by eapply Scheduled_frames_expansionMap|]. split; [done|]. split; [done|].
  split; [rewrite <- Hnum; apply Hend; lia|]. split; [|by split].
  apply Forall_lookup. intros r ring Hring.
  pose proof (generated_upto_length _ _ _ _ _ _ Hinv) as Hlen'.
  destruct (lookup_lt_is_Some_2 (Scheduled.rings s0) r) as [ring0 Hring0].
  { apply lookup_lt_Some in Hring. lia. }
  destruct Hinv as (Hlens & _).
  rewrite (lengths_lookup _ _ r ring ring0 Hlens Hring Hring0).
  rewrite Forall_lookup in Hlo. by eapply Hlo.
Qed.

(** X10.  A run of the variable-interval sketch, for an initial ring of at
    least one cell, a schedule whose entries are missing, NaN or integers
    that are not negative, and ring counts that all fit in an array (at
    most 2^32-1 cells each): it ends without an error with
    [max(numRings, 1)] rings, none of them empty; ring 0 is the initial
    pattern cut or padded to [initialCellCount] cells, and every later ring
    is what [generateNextRing] fills, from the finished ring before it, on
    the topology of the interval [expansionIntervals[r] || prevCount] of
    the schedule in use. *)
Theorem Scheduled_run_rings (s : Scheduled.state) :
  1 ≤ Scheduled.initialCellCount s →
  safe_schedule (Scheduled.expansionIntervals s) →
  fits (Scheduled.interval_for (schedule_in_use s))
    (Scheduled.initialCellCount s) (Scheduled.numRings s) = true →
  ∃ s',
    Scheduled.run s = Ok s'
    ∧ length (Scheduled.rings s') = S (Z.to_nat (Scheduled.numRings s - 1))
    ∧ Forall (λ ring, 1 ≤ Z.of_nat (length ring)) (Scheduled.rings s')
    ∧ Scheduled.rings s' !! 0%nat
      = Some (first_ring (Scheduled.initialPattern s) (Scheduled.initialCellCount s))
    ∧ ∀ (r : nat) prev,
        Scheduled.rings s' !! r = Some prev → (S r < length (Scheduled.rings s'))%nat →
        ∃ hole mask,
          buildRing (len prev)
            (Scheduled.interval_for (schedule_in_use s) (Z.of_nat (S r)) (len prev))
          = Ok (hole, mask)
          ∧ Scheduled.expansionMap s' !! S r = Some mask
          ∧ Scheduled.rings s' !! S r
            = Some (fill_next_ring (Scheduled.ruleset s) prev mask hole).
Proof.
  intros Hcount Hsafe Hfits.
  destruct (Scheduled_run_generated s Hcount Hsafe Hfits)
    as (s0 & s' & _ & Hrun & Hmap & Htop & Hinv & Hend & Hlo & Hlen & Hfirst).
  pose proof (generated_upto_length _ _ _ _ _ _ Hinv) as Hlen'.
  exists s'. split; [done|]. split; [congruence|]. split; [done|]. split.
  - destruct Hinv as (_ & -> & _). done.
  - rewrite Hmap.
    apply (generated_recurrence _ _ _ _ _ _ _ Htop Hinv Hend). lia.
Qed.

Lemma Scheduled_run_rings_witness :
  let s := Scheduled.Build_state 4 3 [Num (Int 2); Num (Int 0)]
             [bit 0; bit 1; bit 0; bit 1; bit 1; bit 0; bit 1; bit 0]
             [bit 1; bit 0; bit 0; bit 0] [] [] 0 in
  1 ≤ Scheduled.initialCellCount s
  ∧ safe_schedule (Scheduled.expansionIntervals s)
  ∧ fits (Scheduled.interval_for (schedule_in_use s))
      (Scheduled.initialCellCount s) (Scheduled.numRings s) = true
  ∧ ∃ s',
      Scheduled.run s = Ok s'
      ∧ length (Scheduled.rings s') = S (Z.to_nat (Scheduled.numRings s - 1))
      ∧ Forall (λ ring, 1 ≤ Z.of_nat (length ring)) (Scheduled.rings s')
      ∧ Scheduled.rings s' !! 0%nat
        = Some (first_ring (Scheduled.initialPattern s) (Scheduled.initialCellCount s))
      ∧ ∀ (r : nat) prev,
          Scheduled.rings s' !! r = Some prev → (S r < length (Scheduled.rings s'))%nat →
          ∃ hole mask,
            buildRing (len prev)
              (Scheduled.interval_for (schedule_in_use s) (Z.of_nat (S r)) (len prev))
            = Ok (hole, mask)
            ∧ Scheduled.expansionMap s' !! S r = Some mask
            ∧ Scheduled.rings s' !! S r
              = Some (fill_next_ring (Scheduled.ruleset s) prev mask hole).
Proof.
  intros s.
  assert (Hcount : 1 ≤ Scheduled.initialCellCount s) by (simpl; lia).
  assert (Hsafe : safe_schedule (Scheduled.expansionIntervals s)).
  { apply Forall_cons_2; [right; right; exists 2; split; [reflexivity|lia]|].
    apply Forall_cons_2; [right; right; exists 0; split; [reflexivity|lia]|].
    apply Forall_nil_2. }
  assert (Hfits : fits (Scheduled.interval_for (schedule_in_use s))
                    (Scheduled.initialCellCount s) (Scheduled.numRings s) = true)
    by reflexivity.
  split; [exact Hcount|]. split; [exact Hsafe|]. split; [exact Hfits|].
  exact (Scheduled_run_rings s Hcount Hsafe Hfits).
Defined.

Lemma Constant_frames_expansionMap (k : nat) (s s' : Constant.state) :
  Constant.frames k s = Ok s' → Constant.expansionMap s' = Constant.expansionMap s.
Proof.
  revert s. induction k as [|k IH]; intros s Hframes; simpl in Hframes.
  { by injection Hframes as <-. }
  unfold Constant.draw in Hframes.
  destruct (draw_frame _ _ _ _ _) as [[rings1 cur1]|]; [|done].
  simpl in Hframes. by apply IH in Hframes.
Qed.

(** X11.  In a run of the constant-interval sketch, what has been drawn
    stays: frames never change the masks, [currentRing] never goes back,
    later frames leave every ring up to [currentRing] as it is, and once
    [currentRing] has reached [numRings] further frames change no ring at
    all. *)
Theorem Constant_drawn_rings_final (s s0 s1 s2 : Constant.state) (interval : Z)
    (k j : nat) :
  0 ≤ Constant.initialCellCount s →
  Constant.expansionInterval s = Int interval → interval ≠ 0 →
  Constant.initializeSimulation s = Ok s0 →
  Constant.frames k s0 = Ok s1 → Constant.frames j s1 = Ok s2 →
  Constant.expansionMap s2 = Constant.expansionMap s0
  ∧ Constant.currentRing s1 ≤ Constant.currentRing s2
  ∧ (∀ r : nat, Z.of_nat r ≤ Constant.currentRing s1 →
       Constant.rings s2 !! r = Constant.rings s1 !! r)
  ∧ (Constant.numRings s ≤ Constant.currentRing s1 →
     Constant.rings s2 = Constant.rings s1).
Proof.
  intros Hcount Hiv Hk Hinit Hk1 Hk2.
  destruct (Constant_initializeSimulation_fits s
              (Constant_initializeSimulation_Ok_fits s s0 Hinit))
    as (s0' & Hinit' & (Hpar & Hnum0 & _) & (_ & Hnum & _) & Hcur & _).
  assert (s0' = s0) as -> by congruence.
  pose proof (Constant_frames_expansionMap _ _ _ Hk1) as Hmap1.
  pose proof (Constant_frames_expansionMap _ _ _ Hk2) as Hmap2.
  destruct (Constant_frames_parameters _ _ _ Hk1) as (_ & Hnum1 & _ & Hrules1 & _).
  destruct (Constant_frames_generated k (Constant.rings s0) s0 s1)
    as [Hinv1 Hcur1]; [done|done|lia|rewrite Hcur; apply generated_upto_start|done|].
  destruct (Constant_frames_generated j (Constant.rings s0) s1 s2)
    as [Hinv2 Hcur2]; [congruence|by rewrite <- Hnum1|lia| |done|].
  { by rewrite <- Hnum1, <- Hrules1, Hmap1. }
  rewrite <- Hnum1, <- Hrules1, Hmap1 in Hinv2.
  split; [congruence|]. split; [done|]. split.
  - intros r Hr. by eapply generated_agree.
  - intros Hend. apply list_eq. intros r.
    destruct (decide (Z.of_nat r ≤ Constant.currentRing s1)) as [Hr|Hr].
    + by eapply generated_agree.
    + destruct Hinv1 as (_ & _ & Hrest1 & _), Hinv2 as (_ & _ & Hrest2 & _).
      rewrite Hrest1, Hrest2 by lia. done.
Qed.

Lemma Constant_drawn_rings_final_witness :
  let s := Constant.Build_state 4 3 (Int 2)
             [bit 0; bit 1; bit 0; bit 1; bit 1; bit 0; bit 1; bit 0]
             [bit 1; bit 0; bit 0; bit 0] [] [] 0 in
  let after (m : result Constant.state) := match m with Ok x => x | Throw _ => s end in
  let s0 := after (Constant.initializeSimulation s) in
  let s1 := after (Constant.frames 1 s0) in
  let s2 := after (Constant.frames 3 s1) in
  0 ≤ Constant.initialCellCount s ∧ Constant.expansionInterval s = Int 2 ∧ 2 ≠ 0
  ∧ Constant.initializeSimulation s = Ok s0
  ∧ Constant.frames 1 s0 = Ok s1 ∧ Constant.frames 3 s1 = Ok s2
  ∧ Constant.expansionMap s2 = Constant.expansionMap s0
  ∧ Constant.currentRing s1 ≤ Constant.currentRing s2
  ∧ (∀ r : nat, Z.of_nat r ≤ Constant.currentRing s1 →
       Constant.rings s2 !! r = Constant.rings s1 !! r)
  ∧ (Constant.numRings s ≤ Constant.currentRing s1 →
     Constant.rings s2 = Constant.rings s1).
Proof.
  intros s after s0 s1 s2.
  assert (Hcount : 0 ≤ Constant.initialCellCount s) by (simpl; lia).
  assert (Hk : 2 ≠ 0) by lia.
  assert (H0 : Constant.initializeSimulation s = Ok s0) by reflexivity.
  assert (H1 : Constant.frames 1 s0 = Ok s1) by reflexivity.
  assert (H2 : Constant.frames 3 s1 = Ok s2) by reflexivity.
  split; [exact Hcount|]. split; [reflexivity|]. split; [exact Hk|].
  split; [exact H0|]. split; [exact H1|]. split; [exact H2|].
  exact (Constant_drawn_rings_final s s0 s1 s2 2 1 3 Hcount eq_refl Hk H0 H1 H2).
Defined.

(** ** Cells stay bits *)

Lemma get_bit (arr : list value) (z : Z) :
  Forall is_bit_value arr → 0 ≤ z < Z.of_nat (length arr) → is_bit_value (get arr (Int z)).
Proof.
  intros Hbits Hz.
  destruct (lookup_lt_is_Some_2 arr (Z.to_nat z)) as [v Hv]; [lia|].
  rewrite (get_Some arr z v) by (lia || done).
  rewrite Forall_forall in Hbits. by eapply Hbits, list_elem_of_lookup_2.
Qed.

Lemma rules_bits (ruleset : list value) (a b c : value) :
  length ruleset = 8%nat → Forall is_bit_value ruleset →
  is_bit_value a → is_bit_value b → is_bit_value c →
  is_bit_value (rules ruleset a b c).
Proof.
  intros Hlen Hbits [l ->]%bit_value_b2z [m ->]%bit_value_b2z [r ->]%bit_value_b2z.
  unfold rules. cbv zeta. rewrite rule_index. simpl sub.
  apply get_bit; [done|]. rewrite Hlen. destruct l, m, r; simpl; lia.
Qed.

Lemma rule_at_bits (ruleset currentCells : list value) (c : Z) :
  length ruleset = 8%nat → Forall is_bit_value ruleset →
  Forall is_bit_value currentCells → 0 ≤ c < Z.of_nat (length currentCells) →
  is_bit_value (rule_at ruleset currentCells c).
Proof.
  intros Hlen Hrules Hbits Hc. unfold rule_at. cbv zeta.
  apply rules_bits; [done..| | |]; apply get_bit; try done.
  - apply Z.mod_pos_bound. lia.
  - apply Z.mod_pos_bound. lia.
Qed.

(** The cursor of [generateNextRing] stays within the previous ring on
    every mask that [buildRing] makes with a non-zero interval. *)
Lemma buildRing_rule_cells_bound (currentCells hole : list value) (mask : list bool)
    (interval : Z) :
  interval ≠ 0 →
  buildRing (len currentCells) (Int interval) = Ok (hole, mask) →
  length mask = length hole
  ∧ ∀ j, (j ≤ length hole)%nat → (rule_cells mask j ≤ length currentCells)%nat.
Proof.
  intros Hk Hbuild. set (p := Z.of_nat (length currentCells)).
  pose proof (floor_quotient_bound p interval ltac:(lia) Hk) as Hn.
  unfold len in Hbuild. fold p in Hbuild. buildRing_Ok Hbuild.
  injection Hbuild as <- <-.
  rewrite length_fmap, length_seq, length_replicate. split; [done|]. intros j Hj.
  destruct (decide (1 ≤ interval)) as [Hpos|Hneg].
  - apply Nat2Z.inj_le. rewrite rule_cells_blocks by lia. fold p.
    pose proof (parent_mono interval (Z.of_nat j) (p + p / interval) Hpos ltac:(lia)) as Hm.
    unfold parent in Hm. rewrite grown_count_blocks in Hm by lia. lia.
  - rewrite mask_without_expansion by lia.
    rewrite rule_cells_replicate_false by done.
    assert (p / interval ≤ 0); [|lia].
    rewrite <- Z.div_opp_opp by lia.
    apply Z.div_le_upper_bound; [lia|]. nia.
Qed.

Lemma fill_next_ring_bits (ruleset currentCells hole : list value) (mask : list bool) :
  length ruleset = 8%nat → Forall is_bit_value ruleset →
  currentCells ≠ [] → Forall is_bit_value currentCells →
  length mask = length hole →
  (∀ j, (j ≤ length hole)%nat → (rule_cells mask j ≤ length currentCells)%nat) →
  Forall is_bit_value (fill_next_ring ruleset currentCells mask hole).
Proof.
  intros Hlen Hrules Hne Hbits Hmask Hbound.
  assert (Hp : (0 < length currentCells)%nat) by (destruct currentCells; [done|simpl; lia]).
  apply Forall_lookup. intros i x Hx.
  assert (Hi : (i < length hole)%nat).
  { apply lookup_lt_Some in Hx. by rewrite fill_next_ring_length in Hx. }
  rewrite fill_next_ring_lookup in Hx by done.
  destruct (lookup_lt_is_Some_2 mask i) as [b Hb]; [lia|].
  pose proof (Hbound i ltac:(lia)) as Hci.
  pose proof (Hbound (S i) ltac:(lia)) as HcS.
  rewrite rule_cells_S, Hb in HcS. simpl in HcS.
  destruct b.
  - rewrite next_cell_expansion in Hx
      by (done || rewrite next_cells_upto_length; lia).
    rewrite cursor_rule_cells in Hx. injection Hx as <-.
    destruct (0 <? Z.of_nat (rule_cells mask i)) eqn:E.
    + apply get_bit; [done|lia].
    + apply get_bit; [done|lia].
  - rewrite next_cell_rule in Hx
      by (done || rewrite next_cells_upto_length; lia).
    rewrite cursor_rule_cells in Hx. apply (inj Some) in Hx. rewrite <- Hx.
    rewrite rule_at_step by (done || lia).
    apply rule_at_bits; [done..|lia].
Qed.

Lemma first_ring_bits (initialPattern : list value) (count : Z) :
  0 ≤ count → Forall is_bit_value initialPattern →
  Forall is_bit_value (first_ring initialPattern count).
Proof.
  intros Hc Hbits. destruct (first_ring_eq initialPattern count Hc) as [-> _].
  apply Forall_app. split; [by apply Forall_take|].
  apply Forall_replicate. by left.
Qed.

(** Rings that come one from the other on non-zero integer intervals hold
    bits when the first one does. *)
Lemma recurrence_bits (ruleset : list value) (rings : list (list value)) :
  length ruleset = 8%nat → Forall is_bit_value ruleset →
  (∀ ring0, rings !! 0%nat = Some ring0 → Forall is_bit_value ring0) →
  (∀ (r : nat) prev, rings !! r = Some prev → (S r < length rings)%nat →
     ∃ hole mask interval,
       interval ≠ 0
       ∧ buildRing (len prev) (Int interval) = Ok (hole, mask)
       ∧ rings !! S r = Some (fill_next_ring ruleset prev mask hole)) →
  Forall (Forall is_bit_value) rings.
Proof.
  intros Hlen Hrules Hfirst Hstep. apply Forall_lookup. intros r.
  induction r as [|r IH]; intros ring Hring; [by apply Hfirst|].
  destruct (lookup_lt_is_Some_2 rings r) as [prev Hprev].
  { apply lookup_lt_Some in Hring. lia. }
  destruct (Hstep r prev Hprev) as (hole & mask & interval & Hk & Hbuild & Hfill).
  { by apply lookup_lt_Some in Hring. }
  assert (ring = fill_next_ring ruleset prev mask hole) as -> by congruence.
  destruct (buildRing_rule_cells_bound prev hole mask interval Hk Hbuild) as [Hm Hb].
  destruct (decide (prev = [])) as [->|Hne].
  - assert (hole = []) as ->.
    { unfold len in Hbuild. simpl length in Hbuild.
      change (Z.of_nat 0) with 0 in Hbuild. buildRing_Ok Hbuild.
      injection Hbuild as <- _. done. }
    done.
  - apply fill_next_ring_bits; try done. by apply IH.
Qed.

(** X12.  In the constant-interval sketch every cell that a run produces
    is a bit.  Whatever the text of the pattern control, if the ruleset in
    force after [restartSimulation] has 8 entries that are bits, the count
    of cells is not negative, the interval is a non-zero integer and every
    ring count fits in an array (at most 2^32-1 cells), then the restart
    and all its frames succeed and every cell of every ring is 0 or 1: no
    hole of the pre-calculated rings is left, and no cell is [undefined] or
    NaN. *)
Theorem Constant_cells_are_bits (count rings_wanted interval : Z)
    (rulesetStr patternStr : string) (s : Constant.state) :
  0 ≤ count → interval ≠ 0 →
  fits (λ _ _, Int interval) count rings_wanted = true →
  length (read_ruleset (Constant.ruleset s) rulesetStr) = 8%nat →
  Forall is_bit_value (read_ruleset (Constant.ruleset s) rulesetStr) →
  ∃ s0 s',
    Constant.restartSimulation count rings_wanted (Int interval) rulesetStr patternStr s
    = Ok s0
    ∧ Constant.frames (Z.to_nat (Constant.numRings s0) + 1) s0 = Ok s'
    ∧ Forall (Forall is_bit_value) (Constant.rings s').
Proof.
  intros Hcount Hk Hfits Hlen Hrules. unfold Constant.restartSimulation.
  set (s1 := Constant.Build_state _ _ _ _ _ _ _ _).
  destruct (Constant_run_generated s1 Hfits)
    as (s0 & s' & Hinit & Hrun & Hmap & Htop & Hinv & Hend & Hlen0 & Hfirst).
  exists s0, s'. split; [done|].
  unfold Constant.run in Hrun. rewrite Hinit in Hrun. simpl in Hrun.
  split; [done|].
  pose proof (generated_upto_length _ _ _ _ _ _ Hinv) as Hlen'.
  apply (recurrence_bits (Constant.ruleset s1)); [done..| |].
  - intros ring0 Hring0. destruct Hinv as (_ & Hsame & _).
    rewrite Hsame, Hfirst in Hring0. injection Hring0 as <-.
    apply first_ring_bits; [done|]. apply fit_pattern_bits, read_pattern_bits.
  - intros r prev Hprev Hr.
    destruct (generated_recurrence (λ _ _, Int interval) _ _ _ _ _ _ Htop Hinv Hend
                ltac:(simpl in *; lia) r prev Hprev Hr)
      as (hole & mask & Hbuild & _ & Hfill).
    by exists hole, mask, interval.
Qed.

Lemma Constant_cells_are_bits_witness :
  let s := Constant.Build_state 8 15 (Int 5)
             [bit 0; bit 1; bit 0; bit 1; bit 1; bit 0; bit 1; bit 0] [] [] [] 0 in
  0 ≤ 4 ∧ -3 ≠ 0
  ∧ fits (λ _ _, Int (-3)) 4 3 = true
  ∧ length (read_ruleset (Constant.ruleset s) "01101110") = 8%nat
  ∧ Forall is_bit_value (read_ruleset (Constant.ruleset s) "01101110")
  ∧ ∃ s0 s',
      Constant.restartSimulation 4 3 (Int (-3)) "01101110" "1,x,2,0" s = Ok s0
      ∧ Constant.frames (Z.to_nat (Constant.numRings s0) + 1) s0 = Ok s'
      ∧ Forall (Forall is_bit_value) (Constant.rings s').
Proof.
  intros s.
  assert (Hcount : 0 ≤ 4) by lia.
  assert (Hk : -3 ≠ 0) by lia.
  assert (Hrules : Forall is_bit_value (read_ruleset (Constant.ruleset s) "01101110")).
  { repeat (apply Forall_cons_2; [first [by left | by right]|]). apply Forall_nil_2. }
  assert (Hfits : fits (λ _ _, Int (-3)) 4 3 = true) by reflexivity.
  split; [exact Hcount|]. split; [exact Hk|]. split; [exact Hfits|].
  split; [reflexivity|]. split; [exact Hrules|].
  exact (Constant_cells_are_bits 4 3 (-3) "01101110" "1,x,2,0" s
           Hcount Hk Hfits eq_refl Hrules).
Defined.

(** A ruleset with digits that are no bits lets the cells leave the bits,
    and the ring after that holds [undefined]. *)
Example Constant_cells_beyond_bits :
  let s := Constant.Build_state 3 3 (Int 3) [] [] [] [] 0 in
  (s0 ← Constant.restartSimulation 3 3 (Int 3) "01234567" "1,0,0" s;
   s' ← Constant.frames 4 s0; mret (Constant.rings s'))
  = Ok [[bit 1; bit 0; bit 0];
       [Num (Int 5); Num (Int 3); Num (Int 6); bit 0];
       [Num (Int 7); Undefined; Undefined; Num (Int 6); Undefined]].
Proof. vm_compute. reflexivity. Qed.

(** X13.  In the variable-interval sketch every cell that a run produces
    is a bit, for an initial ring of at least one cell, an initial pattern
    and a ruleset of 8 entries that hold bits, a schedule whose entries
    are missing, NaN or integers that are not negative, and ring counts
    that all fit in an array (at most 2^32-1 cells each): the run ends
    without an error and every cell of every ring is 0 or 1. *)
Theorem Scheduled_cells_are_bits (s : Scheduled.state) :
  1 ≤ Scheduled.initialCellCount s →
  safe_schedule (Scheduled.expansionIntervals s) →
  fits (Scheduled.interval_for (schedule_in_use s))
    (Scheduled.initialCellCount s) (Scheduled.numRings s) = true →
  length (Scheduled.ruleset s) = 8%nat → Forall is_bit_value (Scheduled.ruleset s) →
  Forall is_bit_value (Scheduled.initialPattern s) →
  ∃ s', Scheduled.run s = Ok s' ∧ Forall (Forall is_bit_value) (Scheduled.rings s').
Proof.
  intros Hcount Hsafe Hfits Hlen Hrules Hpattern.
  destruct (Scheduled_run_generated s Hcount Hsafe Hfits)
    as (s0 & s' & Hinit & Hrun & Hmap & Htop & Hinv & Hend & Hlo & Hlen0 & Hfirst).
  pose proof (schedule_in_use_safe s Hcount Hsafe) as Hsafe'.
  exists s'. split; [done|].
  pose proof (generated_upto_length _ _ _ _ _ _ Hinv) as Hlen'.
  apply (recurrence_bits (Scheduled.ruleset s)); [done..| |].
  - intros ring0 Hring0. destruct Hinv as (_ & Hsame & _).
    rewrite Hsame, Hfirst in Hring0. injection Hring0 as <-.
    apply first_ring_bits; [lia|done].
  - intros r prev Hprev Hr.
    destruct (generated_recurrence _ _ _ _ _ _ _ Htop Hinv Hend
                ltac:(lia) r prev Hprev Hr)
      as (hole & mask & Hbuild & _ & Hfill).
    assert (Hp : 1 ≤ Z.of_nat (length prev)).
    { rewrite Forall_lookup in Hlo. by eapply Hlo. }
    destruct (safe_interval_for_ok (schedule_in_use s) (Z.of_nat (S r))
                (Z.of_nat (length prev))) as (k & Hk & Hk1); [done|lia|done|].
    unfold len in Hbuild. rewrite Hk in Hbuild.
    exists hole, mask, k. split; [lia|]. by split.
Qed.

Lemma Scheduled_cells_are_bits_witness :
  let s := Scheduled.Build_state 4 4 [Num (Int 0); Undefined; Num NaN]
             [bit 0; bit 1; bit 0; bit 1; bit 1; bit 0; bit 1; bit 0]
             [bit 1; bit 0] [] [] 0 in
  1 ≤ Scheduled.initialCellCount s
  ∧ safe_schedule (Scheduled.expansionIntervals s)
  ∧ fits (Scheduled.interval_for (schedule_in_use s))
      (Scheduled.initialCellCount s) (Scheduled.numRings s) = true
  ∧ length (Scheduled.ruleset s) = 8%nat ∧ Forall is_bit_value (Scheduled.ruleset s)
  ∧ Forall is_bit_value (Scheduled.initialPattern s)
  ∧ ∃ s', Scheduled.run s = Ok s' ∧ Forall (Forall is_bit_value) (Scheduled.rings s').
Proof.
  intros s.
  assert (Hcount : 1 ≤ Scheduled.initialCellCount s) by (simpl; lia).
  assert (Hsafe : safe_schedule (Scheduled.expansionIntervals s)).
  { apply Forall_cons_2; [right; right; exists 0; split; [reflexivity|lia]|].
    apply Forall_cons_2; [left; reflexivity|].
    apply Forall_cons_2; [right; left; reflexivity|]. apply Forall_nil_2. }
  assert (Hrules : Forall is_bit_value (Scheduled.ruleset s)).
  { repeat (apply Forall_cons_2; [first [by left | by right]|]). apply Forall_nil_2. }
  assert (Hpattern : Forall is_bit_value (Scheduled.initialPattern s)).
  { repeat (apply Forall_cons_2; [first [by left | by right]|]). apply Forall_nil_2. }
  assert (Hfits : fits (Scheduled.interval_for (schedule_in_use s))
                    (Scheduled.initialCellCount s) (Scheduled.numRings s) = true)
    by reflexivity.
  split; [exact Hcount|]. split; [exact Hsafe|]. split; [exact Hfits|].
  split; [reflexivity|]. split; [exact Hrules|]. split; [exact Hpattern|].
  exact (Scheduled_cells_are_bits s Hcount Hsafe Hfits eq_refl Hrules Hpattern).
Defined.

(** ** Reading the interval controls *)

Lemma get_set_index (arr : list value) (i : nat) (x : value) (r : Z) :
  get (set_index arr i x) (Int r)
  = if decide (r = Z.of_nat i) then x else get arr (Int r).
Proof.
  unfold get, set_index. destruct (0 <=? r) eqn:E; [|by destruct (decide _); [lia|]].
  destruct (decide (i < length arr)%nat) as [Hi|Hi].
  - destruct (decide (r = Z.of_nat i)) as [->|Hr].
    + by rewrite Nat2Z.id, list_lookup_insert_eq by done.
    + by rewrite list_lookup_insert_ne by lia.
  - destruct (decide (Z.to_nat r < length arr)%nat) as [Hr|Hr].
    { rewrite lookup_app_l by done. destruct (decide _); [lia|done]. }
    rewrite lookup_app_r by lia.
    rewrite (lookup_ge_None_2 arr) by lia. simpl.
    destruct (decide (r = Z.of_nat i)) as [->|Hne].
    + rewrite lookup_app_r by (rewrite length_replicate; lia).
      rewrite length_replicate.
      by replace (Z.to_nat (Z.of_nat i) - length arr - (i - length arr))%nat
        with 0%nat by lia.
    + destruct (decide (Z.to_nat r - length arr < i - length arr)%nat) as [Hh|Hh].
      * rewrite lookup_app_l by (by rewrite length_replicate).
        by rewrite lookup_replicate_2.
      * rewrite lookup_app_r by (rewrite length_replicate; lia).
        rewrite length_replicate. rewrite lookup_ge_None_2; [done|]. simpl. lia.
Qed.

Lemma length_set_index (arr : list value) (i : nat) (x : value) :
  length (set_index arr i x) = max (length arr) (S i).
Proof.
  unfold set_index. destruct (decide _).
  - rewrite length_insert. lia.
  - rewrite !length_app, length_replicate. simpl. lia.
Qed.

Lemma read_intervals_upto (dropdown : Z → option string) (k : nat) :
  let read := foldl (λ expansionIntervals r,
                       match dropdown r with
                       | Some chosen =>
                           set_index expansionIntervals (Z.to_nat r) (Num (parseInt chosen 0))
                       | None => expansionIntervals
                       end) [] (seqZ 0 (Z.of_nat k)) in
  (length read ≤ k)%nat
  ∧ (read = [] ↔ ∀ r, 0 ≤ r < Z.of_nat k → dropdown r = None)
  ∧ ∀ r, get read (Int r)
         = if decide (0 ≤ r < Z.of_nat k)
           then match dropdown r with
                | Some chosen => Num (parseInt chosen 0)
                | None => Undefined
                end
           else Undefined.
Proof.
  induction k as [|k IH].
  { simpl. split; [done|]. split; [split; [lia|done]|]. intros r.
    destruct (decide _); [lia|]. unfold get. by destruct (0 <=? r). }
  cbv zeta in IH |- *. rewrite seqZ_S, foldl_app. cbn [foldl]. rewrite Z.add_0_l.
  destruct IH as (Hlen & Hnil & Hget).
  set (read := foldl _ [] (seqZ 0 (Z.of_nat k))) in *.
  destruct (dropdown (Z.of_nat k)) as [chosen|] eqn:Hk.
  - split; [rewrite length_set_index; lia|]. split.
    + split.
      * intros He. apply (f_equal length) in He.
        rewrite length_set_index in He. simpl in He. lia.
      * intros Hnone. rewrite Hnone in Hk by lia. done.
    + intros r. rewrite get_set_index, Nat2Z.id.
      destruct (decide (r = Z.of_nat k)) as [->|Hr].
      * destruct (decide _); [|lia]. by rewrite Hk.
      * rewrite Hget. destruct (decide _), (decide _); try lia; done.
  - split; [lia|]. split.
    + rewrite Hnil. split; intros Hnone r Hr.
      * destruct (decide (r = Z.of_nat k)) as [->|Hne]; [done|]. apply Hnone. lia.
      * apply Hnone. lia.
    + intros r. rewrite Hget.
      destruct (decide (r = Z.of_nat k)) as [->|Hr].
      * destruct (decide _), (decide _); try lia. by rewrite Hk.
      * destruct (decide _), (decide _); try lia; done.
Qed.

(** X14.  The schedule that [restartSimulation] reads from the page: entry
    [r] is the parsed value of the dropdown of transition [r], for
    [0 ≤ r < numRings - 1], and a hole where the page has no such dropdown;
    nothing is read past [numRings - 1].  The schedule is empty, so that
    [initializeSimulation] plans the defaults, exactly when none of these
    dropdowns exists.  The interval of a transition is the value read, and
    the count of the previous ring when that value is missing, 0 or NaN. *)
Theorem read_intervals_entries (dropdown : Z → option string) (numRings r : Z)
    (prevCount : number) :
  let schedule := Scheduled.read_intervals dropdown numRings in
  let entry := if decide (0 ≤ r < numRings - 1)
               then match dropdown r with
                    | Some chosen => Num (parseInt chosen 0)
                    | None => Undefined
                    end
               else Undefined in
  get schedule (Int r) = entry
  ∧ Z.of_nat (length schedule) ≤ Z.max 0 (numRings - 1)
  ∧ (schedule = [] ↔ ∀ r', 0 ≤ r' < numRings - 1 → dropdown r' = None)
  ∧ Scheduled.interval_for schedule (r + 1) prevCount
    = if truthy entry then to_number entry else prevCount.
Proof.
  intros schedule entry.
  destruct (read_intervals_upto dropdown (Z.to_nat (numRings - 1)))
    as (Hlen & Hnil & Hget).
  assert (Hrange : seqZ 0 (Z.of_nat (Z.to_nat (numRings - 1))) = seqZ 0 (numRings - 1)).
  { destruct (decide (0 ≤ numRings - 1)); [by rewrite Z2Nat.id|].
    rewrite !seqZ_nil by lia. done. }
  rewrite Hrange in Hlen, Hnil, Hget. fold (Scheduled.read_intervals dropdown numRings) in *.
  fold schedule in Hlen, Hnil, Hget.
  assert (Hentry : get schedule (Int r) = entry).
  { rewrite Hget. unfold entry. destruct (decide _), (decide _); try lia; done. }
  split; [done|]. split; [lia|]. split.
  - rewrite Hnil. split; intros Hnone r' Hr'; apply Hnone; lia.
  - unfold Scheduled.interval_for. replace (r + 1 - 1) with r by lia.
    rewrite Hentry. unfold or_else. by destruct (truthy entry).
Qed.

(** ** The interval controls *)

Lemma valid_schedule_lookup (expansionIntervals : list value) (r : nat) :
  valid_schedule expansionIntervals → (r < length expansionIntervals)%nat →
  ∃ z, expansionIntervals !! r = Some (Num (Int z)) ∧ 1 ≤ z.
Proof.
  intros Hvalid Hr.
  destruct (lookup_lt_is_Some_2 expansionIntervals r Hr) as [v Hv].
  unfold valid_schedule in Hvalid. rewrite Forall_lookup in Hvalid.
  destruct (Hvalid r v Hv) as (z & -> & Hz). by exists z.
Qed.

Lemma count_step_valid (expansionIntervals : list value) (counts : list number)
    (r : nat) (p z : Z) :
  counts !! r = Some (Int p) →
  expansionIntervals !! r = Some (Num (Int z)) → 1 ≤ z →
  Controls.count_step expansionIntervals (Some counts) (Z.of_nat r)
  = Some (counts ++ [Int (p + p / z)]).
Proof.
  intros Hp Hz Hz1. unfold Controls.count_step, Controls.current_value.
  rewrite (get_Some _ _ (Num (Int z))) by (lia || by rewrite Nat2Z.id).
  rewrite Nat2Z.id. simpl. rewrite Hp. simpl.
  destruct (Z.eqb_spec z 0) as [?|_]; [lia|]. simpl.
  destruct (Z.eqb_spec z 0) as [?|_]; [lia|]. done.
Qed.

(** On a schedule of positive integers the counts of the controls are the
    lengths of the pre-calculated rings. *)
Lemma cell_counts_upto (expansionIntervals : list value) (rings : list (list value))
    (masks : list (list bool)) (c0 : Z) (ring0 : list value) (k : nat) :
  topology (Scheduled.interval_for expansionIntervals) rings masks →
  valid_schedule expansionIntervals →
  rings !! 0%nat = Some ring0 → Z.of_nat (length ring0) = c0 →
  (k < length rings)%nat → (k ≤ length expansionIntervals)%nat →
  foldl (Controls.count_step expansionIntervals) (Some [Int c0]) (seqZ 0 (Z.of_nat k))
  = Some ((λ ring, len ring) <$> take (S k) rings).
Proof.
  intros Htop Hvalid Hring0 Hc0. induction k as [|k IH]; intros Hk Hk'.
  { simpl. destruct rings as [|ring rings']; [done|].
    simpl in Hring0. injection Hring0 as ->. rewrite ?take_0. simpl.
    unfold len. by rewrite Hc0. }
  rewrite seqZ_S, foldl_app, IH by lia. cbn [foldl]. rewrite Z.add_0_l.
  destruct (lookup_lt_is_Some_2 rings k) as [prev Hprev]; [lia|].
  destruct (lookup_lt_is_Some_2 rings (S k)) as [cells Hcells]; [lia|].
  destruct (valid_schedule_lookup expansionIntervals k Hvalid) as (z & Hz & Hz1); [lia|].
  rewrite (count_step_valid _ _ k (Z.of_nat (length prev)) z); [|by rewrite list_lookup_fmap, lookup_take_lt, Hprev by lia|done..].
  rewrite (take_S_r rings (S k) cells) by done.
  rewrite fmap_app. simpl. do 3 f_equal. unfold len. f_equal.
  symmetry. by eapply topology_schedule_growth.
Qed.

Lemma planner_length (initialCellCount numRings : Z) :
  1 ≤ initialCellCount →
  length (Scheduled.initializeExpansionIntervals initialCellCount numRings)
  = Z.to_nat (numRings - 1).
Proof.
  intros Hn. unfold Scheduled.initializeExpansionIntervals.
  destruct (decide (0 ≤ numRings - 1)) as [Hr|Hr].
  - rewrite <- (Z2Nat.id (numRings - 1)) at 1 by done.
    by destruct (plan_upto_count initialCellCount (Z.to_nat (numRings - 1)) Hn)
      as (_ & _ & _ & ->).
  - unfold Scheduled.plan_upto. rewrite seqZ_nil by lia. simpl. lia.
Qed.

(** X15.  The dropdown labels tell the truth.  For an initial ring of at
    least one cell and a schedule of integers that are at least 1, which is
    empty (the planner then fills it) or has an entry for every transition,
    and for ring counts that all fit in an array (at most 2^32-1 cells
    each, so that the pre-calculation returns), the counts that
    [updateExpansionIntervalControls] computes for its labels are the
    lengths of the rings that [initializeSimulation] has pre-calculated
    with the same schedule. *)
Theorem controls_counts_are_ring_counts (s : Scheduled.state) :
  1 ≤ Scheduled.initialCellCount s →
  valid_schedule (Scheduled.expansionIntervals s) →
  Scheduled.expansionIntervals s = []
  ∨ Scheduled.numRings s - 1 ≤ Z.of_nat (length (Scheduled.expansionIntervals s)) →
  fits (Scheduled.interval_for (schedule_in_use s))
    (Scheduled.initialCellCount s) (Scheduled.numRings s) = true →
  ∃ s0,
    Scheduled.initializeSimulation s = Ok s0
    ∧ Controls.cell_counts (Scheduled.initialCellCount s0) (Scheduled.numRings s0)
        (Scheduled.expansionIntervals s0)
      = Some ((λ ring, len ring) <$> Scheduled.rings s0).
Proof.
  intros Hcount Hvalid Hfull Hfits.
  destruct (Scheduled_initializeSimulation_ok s Hcount Hvalid Hfits)
    as (s0 & Hinit & _ & _ & Hnum & Hsched & Htop & Hlen & Hfirst).
  exists s0. split; [done|].
  assert (Hcount0 : Scheduled.initialCellCount s0 = Scheduled.initialCellCount s).
  { unfold Scheduled.initializeSimulation in Hinit.
    destruct (precalculate _ _ _ _) as [[rings masks]|]; [|done].
    simpl in Hinit. by injection Hinit as <-. }
  assert (Hvalid' : valid_schedule (schedule_in_use s)).
  { unfold schedule_in_use. destruct (decide _); [|done].
    by apply planner_valid_schedule. }
  assert (Hfull' : (Z.to_nat (Scheduled.numRings s - 1)
                    ≤ length (schedule_in_use s))%nat).
  { unfold schedule_in_use. destruct (decide _) as [He|He].
    - rewrite planner_length by done. lia.
    - destruct Hfull as [Hnil|Hfull]; [by rewrite Hnil in He|lia]. }
  unfold Controls.cell_counts. rewrite Hnum, Hsched, Hcount0.
  destruct (decide (0 ≤ Scheduled.numRings s - 1)) as [Hr|Hr].
  - rewrite <- (Z2Nat.id (Scheduled.numRings s - 1)) by done.
    rewrite (cell_counts_upto _ _ _ _ _ _ Htop Hvalid' Hfirst); [|by apply first_ring_eq; lia|lia..].
    by rewrite take_ge by lia.
  - rewrite seqZ_nil by lia. simpl.
    replace (Z.to_nat (Scheduled.numRings s - 1)) with 0%nat in Hlen by lia.
    destruct (Scheduled.rings s0) as [|ring0 [|? ?]]; [done| |done].
    simpl in Hfirst. injection Hfirst as ->. simpl. unfold len.
    by destruct (first_ring_eq (Scheduled.initialPattern s)
                   (Scheduled.initialCellCount s) ltac:(lia)) as [_ ->].
Qed.

Lemma controls_counts_are_ring_counts_witness :
  let s := Scheduled.Build_state 6 4 [Num (Int 3); Num (Int 4); Num (Int 1)]
             [] [bit 1] [] [] 0 in
  1 ≤ Scheduled.initialCellCount s
  ∧ valid_schedule (Scheduled.expansionIntervals s)
  ∧ fits (Scheduled.interval_for (schedule_in_use s))
      (Scheduled.initialCellCount s) (Scheduled.numRings s) = true
  ∧ ∃ s0,
      Scheduled.initializeSimulation s = Ok s0
      ∧ Controls.cell_counts (Scheduled.initialCellCount s0) (Scheduled.numRings s0)
          (Scheduled.expansionIntervals s0)
        = Some ((λ ring, len ring) <$> Scheduled.rings s0).
Proof.
  intros s.
  assert (Hcount : 1 ≤ Scheduled.initialCellCount s) by (simpl; lia).
  assert (Hvalid : valid_schedule (Scheduled.expansionIntervals s)).
  { apply Forall_cons_2; [exists 3; split; [reflexivity|lia]|].
    apply Forall_cons_2; [exists 4; split; [reflexivity|lia]|].
    apply Forall_cons_2; [exists 1; split; [reflexivity|lia]|]. apply Forall_nil_2. }
  assert (Hfits : fits (Scheduled.interval_for (schedule_in_use s))
                    (Scheduled.initialCellCount s) (Scheduled.numRings s) = true)
    by reflexivity.
  split; [exact Hcount|]. split; [exact Hvalid|]. split; [exact Hfits|].
  apply (controls_counts_are_ring_counts s Hcount Hvalid); [|exact Hfits].
  right. simpl. lia.
Defined.

(** Where an entry is missing the two disagree: the simulation falls back
    to the count of the previous ring, the controls to the default
    interval. *)
Example controls_counts_differ :
  let s := Scheduled.Build_state 16 3 [Num (Int 4)] [] [] [] [] 0 in
  (s0 ← Scheduled.initializeSimulation s; mret (length <$> Scheduled.rings s0))
  = Ok [16; 20; 21]%nat
  ∧ Controls.cell_counts 16 3 [Num (Int 4)] = Some [Int 16; Int 20; Int 22].
Proof. vm_compute. split; reflexivity. Qed.

Lemma getDivisors_several (p : Z) : 2 ≤ p → length (getDivisors p) ≠ 1%nat.
Proof.
  intros Hp Hlen.
  assert (H1 : 1 ∈ getDivisors p).
  { apply elem_of_getDivisors; [lia|]. split; [lia|]. apply Z.divide_1_l. }
  assert (H2 : p ∈ getDivisors p).
  { apply elem_of_getDivisors; [lia|]. split; [lia|]. apply Z.divide_refl. }
  destruct (getDivisors p) as [|a [|b l]]; try done.
  apply list_elem_of_singleton in H1, H2. lia.
Qed.

Lemma offered_divisors (p : Z) :
  2 ≤ p →
  filter (λ d, 1 < d ∨ length (getDivisors p) = 1%nat) (getDivisors p)
  = filter (λ d, 1 < d) (getDivisors p).
Proof.
  intros Hp. pose proof (getDivisors_several p Hp) as Hlen.
  apply list_filter_iff. intros d. split; [intros [?|?]; [done|lia] | by left].
Qed.

Lemma StronglySorted_strict (l : list Z) :
  StronglySorted Z.le l → NoDup l → StronglySorted Z.lt l.
Proof.
  induction 1 as [|a l Hsorted IH Hall]; intros Hnd; [constructor|].
  apply NoDup_cons in Hnd as [Ha Hnd]. constructor; [by apply IH|].
  rewrite Forall_forall in Hall |- *. intros x Hx.
  specialize (Hall x Hx). assert (x ≠ a) by (intros ->; done). lia.
Qed.

Lemma is_current_spec (d : Z) (currentValue : value) :
  Controls.is_current d currentValue = true ↔ currentValue = Num (Int d).
Proof.
  destruct currentValue as [[z| | |]|]; simpl; try (split; [done|intros [=]]).
  rewrite Z.eqb_eq. split; [by intros -> | by intros [= ->]].
Qed.

Lemma interval_options_values (divisors : list Z) (prevCount : number)
    (currentValue : value) :
  Controls.interval <$> Controls.interval_options divisors prevCount currentValue
  = 1 :: filter (λ d, 1 < d ∨ length divisors = 1%nat) divisors.
Proof.
  unfold Controls.interval_options. rewrite fmap_cons. f_equal.
  rewrite <- list_fmap_compose.
  induction (filter _ _) as [|d l IH]; [done|]. rewrite fmap_cons, IH. done.
Qed.

Lemma interval_options_elem (prevCount : Z) (currentValue : value) (d : Z) :
  1 ≤ prevCount →
  d ∈ Controls.interval
        <$> Controls.interval_options (getDivisors prevCount) (Int prevCount) currentValue
  ↔ 1 ≤ d ∧ (d | prevCount).
Proof.
  intros Hp. rewrite interval_options_values, elem_of_cons, list_elem_of_filter.
  rewrite elem_of_getDivisors by done. split.
  - intros [->|(_ & Hd & Hdiv)]; [|done]. split; [lia|apply Z.divide_1_l].
  - intros [Hd Hdiv]. destruct (decide (d = 1)) as [->|Hne]; [by left|].
    right. split; [left; lia|done].
Qed.

(** X16.  The options that a dropdown offers for a ring of [prevCount]
    cells.  For [prevCount ≥ 2] the offered intervals are exactly the
    divisors of [prevCount], 1 included, each once and in ascending order;
    for [prevCount = 1] the interval 1 is offered twice.  The label of an
    option announces [prevCount + prevCount / interval] cells, an option is
    marked as selected exactly when its interval is the current value, and
    the default interval of [getDefaultExpansionInterval] is always among
    the options. *)
Theorem interval_options_offered (prevCount : Z) (currentValue : value) :
  1 ≤ prevCount →
  let options :=
    Controls.interval_options (getDivisors prevCount) (Int prevCount) currentValue in
  let offered := Controls.interval <$> options in
  (∀ d, d ∈ offered ↔ 1 ≤ d ∧ (d | prevCount))
  ∧ (2 ≤ prevCount → StronglySorted Z.lt offered)
  ∧ (prevCount = 1 → offered = [1; 1])
  ∧ (∀ o, o ∈ options →
       Controls.nextCount o = Int (prevCount + prevCount / Controls.interval o)
       ∧ (Controls.selected o = true ↔ currentValue = Num (Int (Controls.interval o))))
  ∧ ∀ d, getDefaultExpansionInterval prevCount = Some d → d ∈ offered.
Proof.
  intros Hp options offered.
  assert (Hoffered : offered
                     = 1 :: filter (λ d, 1 < d ∨ length (getDivisors prevCount) = 1%nat)
                              (getDivisors prevCount)).
  { apply interval_options_values. }
  assert (Hin : ∀ d, d ∈ offered ↔ 1 ≤ d ∧ (d | prevCount)).
  { intros d. by apply interval_options_elem. }
  split; [done|]. split; [|split; [|split]].
  - intros Hp2. rewrite Hoffered, offered_divisors by done. constructor.
    + apply StronglySorted_strict; [apply Sorted_validDivisors|].
      apply NoDup_filter, NoDup_getDivisors. lia.
    + apply Forall_forall. by intros d [Hd _]%list_elem_of_filter.
  - intros ->. by rewrite Hoffered.
  - intros o Ho. unfold options, Controls.interval_options in Ho.
    assert (∃ d, o = Controls.item_for (Int prevCount) currentValue d ∧ 1 ≤ d)
      as (d & -> & Hd).
    { apply elem_of_cons in Ho as [->|Ho]; [by exists 1|].
      apply list_elem_of_fmap in Ho as (d & -> & Hd). exists d. split; [done|].
      apply list_elem_of_filter in Hd as [_ Hd].
      apply elem_of_getDivisors in Hd; [lia|done]. }
    simpl. split; [|apply is_current_spec].
    destruct (Z.eqb_spec d 0) as [?|_]; [lia|done].
  - intros d Hd. apply Hin. unfold getDefaultExpansionInterval in Hd. cbv zeta in Hd.
    destruct (decide _) as [_|_].
    + injection Hd as <-. split; [lia|apply Z.divide_refl].
    + apply list_elem_of_lookup_2, elem_of_validDivisors in Hd; [|done].
      destruct Hd as [Hd Hdiv]. split; [lia|done].
Qed.

Lemma interval_options_offered_witness :
  let options := Controls.interval_options (getDivisors 12) (Int 12) (Num (Int 6)) in
  1 ≤ 12
  ∧ (∀ d, d ∈ Controls.interval <$> options ↔ 1 ≤ d ∧ (d | 12))
  ∧ Controls.interval <$> options = [1; 2; 3; 4; 6; 12]
  ∧ Controls.selected <$> options = [false; false; false; false; true; false].
Proof.
  intros options.
  assert (Hp : 1 ≤ 12) by lia.
  split; [exact Hp|]. split; [|split; reflexivity].
  exact (proj1 (interval_options_offered 12 (Num (Int 6)) Hp)).
Defined.

(** ** The dropdowns of a planned schedule *)

Lemma planner_schedule (c0 numRings : Z) :
  2 ≤ c0 →
  Scheduled.initializeExpansionIntervals c0 numRings
  = (λ r, Num (Int (r + 2))) <$> seqZ 0 (numRings - 1).
Proof.
  intros Hc0. unfold Scheduled.initializeExpansionIntervals.
  destruct (decide (0 ≤ numRings - 1)) as [Hr|Hr].
  - rewrite <- (Z2Nat.id (numRings - 1)) by done.
    rewrite plan_upto_closed_form by lia. by destruct (decide (c0 = 1)); [lia|].
  - unfold Scheduled.plan_upto. by rewrite !seqZ_nil by lia.
Qed.

Lemma planned_count_step (c0 k : Z) :
  2 ≤ c0 → 0 ≤ k →
  let count := c0 / 2 * (k + 2) + c0 `mod` 2 in
  count + count / (k + 2) = c0 / 2 * (k + 1 + 2) + c0 `mod` 2.
Proof.
  intros Hc0 Hk count.
  pose proof (Z.mod_pos_bound c0 2 ltac:(lia)).
  assert (count / (k + 2) = c0 / 2) as ->; [|lia].
  unfold count. rewrite Z.div_add_l by lia. rewrite (Z.div_small (c0 `mod` 2)) by lia. lia.
Qed.

Lemma cell_counts_planned (c0 numRings : Z) (k : nat) :
  2 ≤ c0 → Z.of_nat k ≤ numRings - 1 →
  foldl (Controls.count_step (Scheduled.initializeExpansionIntervals c0 numRings))
        (Some [Int c0]) (seqZ 0 (Z.of_nat k))
  = Some ((λ r, Int (c0 / 2 * (r + 2) + c0 `mod` 2)) <$> seqZ 0 (Z.of_nat (S k))).
Proof.
  intros Hc0. rewrite planner_schedule by done.
  induction k as [|k IH]; intros Hk.
  { simpl. do 3 f_equal. pose proof (Z.div_mod c0 2 ltac:(lia)). lia. }
  rewrite seqZ_S, foldl_app, IH by lia. cbn [foldl]. rewrite Z.add_0_l.
  rewrite (count_step_valid _ _ k (c0 / 2 * (Z.of_nat k + 2) + c0 `mod` 2) (Z.of_nat k + 2)).
  - rewrite (seqZ_S 0 (S k)), fmap_app. simpl. do 3 f_equal.
    rewrite planned_count_step by lia. f_equal. lia.
  - rewrite list_lookup_fmap, lookup_seqZ_lt by lia. done.
  - rewrite list_lookup_fmap, lookup_seqZ_lt by lia. done.
  - lia.
Qed.

(** X17.  The dropdowns after [onInitialParametersChange], for an initial
    count of at least 2: the schedule is planned as 2, 3, 4, ..., the
    dropdown of transition [r] is written for a ring of
    [floor(c0/2) * (r + 2) + c0 mod 2] cells with the planned interval
    [r + 2] as its current value, and an option of that dropdown is marked
    as selected exactly when the initial count is even.  For an odd initial
    count the planned interval divides none of the rings, so that no
    dropdown shows it. *)
Theorem planned_interval_selected_iff_even (c0 numRings r : Z) :
  2 ≤ c0 → 0 ≤ r < numRings - 1 →
  ∃ dropdowns options,
    Controls.onInitialParametersChange c0 numRings
    = ((λ r, Num (Int (r + 2))) <$> seqZ 0 (numRings - 1), Some dropdowns)
    ∧ Z.of_nat (length dropdowns) = numRings - 1
    ∧ dropdowns !! Z.to_nat r = Some (Int (c0 / 2 * (r + 2) + c0 `mod` 2), options)
    ∧ (∀ o, o ∈ options → Controls.selected o = true ↔ Controls.interval o = r + 2)
    ∧ ((∃ o, o ∈ options ∧ Controls.selected o = true) ↔ c0 `mod` 2 = 0).
Proof.
  intros Hc0 Hr.
  set (count := λ r, c0 / 2 * (r + 2) + c0 `mod` 2).
  set (schedule := (λ r, Num (Int (r + 2))) <$> seqZ 0 (numRings - 1)).
  set (written := λ r, (Int (count r),
                        Controls.interval_options (getDivisors (count r)) (Int (count r))
                          (Num (Int (r + 2))))).
  pose proof (Z.mod_pos_bound c0 2 ltac:(lia)) as Hm.
  assert (Hq : 1 ≤ c0 / 2) by (apply Z.div_le_lower_bound; lia).
  assert (Hcounts : Controls.cell_counts c0 numRings
                      (Scheduled.initializeExpansionIntervals c0 numRings)
                    = Some ((λ r, Int (count r)) <$> seqZ 0 (numRings - 1 + 1))).
  { unfold Controls.cell_counts.
    rewrite <- (Z2Nat.id (numRings - 1)) at 1 2 by lia.
    rewrite cell_counts_planned by lia. do 3 f_equal. lia. }
  assert (Hwritten : ∀ j, 0 ≤ j < numRings - 1 →
            Controls.dropdown_for schedule
              ((λ r, Int (count r)) <$> seqZ 0 (numRings - 1 + 1)) j
            = Some (written j)).
  { intros j Hj. unfold Controls.dropdown_for, Controls.current_value.
    rewrite list_lookup_fmap, lookup_seqZ_lt by lia.
    rewrite (get_Some schedule j (Num (Int (j + 2)))); [|lia|].
    2: { unfold schedule. rewrite list_lookup_fmap, lookup_seqZ_lt by lia.
         simpl. do 3 f_equal. lia. }
    simpl. rewrite Z2Nat.id by lia.
    destruct (Z.eqb_spec (j + 2) 0) as [?|_]; [lia|]. done. }
  exists (written <$> seqZ 0 (numRings - 1)), (written r).2.
  split; [|split; [|split; [|split]]].
  - unfold Controls.onInitialParametersChange, Controls.updateExpansionIntervalControls.
    rewrite Hcounts, planner_schedule by done. fold schedule. f_equal. simpl.
    apply mapM_Some_2, Forall2_fmap_r, Forall_Forall2_diag, Forall_forall.
    intros j [Hj1 Hj2]%elem_of_seqZ. apply Hwritten. lia.
  - rewrite length_fmap, length_seqZ. lia.
  - rewrite list_lookup_fmap, lookup_seqZ_lt by lia. simpl.
    by rewrite Z2Nat.id by lia.
  - intros o Ho. simpl in Ho.
    assert (∃ d, o = Controls.item_for (Int (count r)) (Num (Int (r + 2))) d)
      as (d & ->).
    { unfold Controls.interval_options in Ho.
      apply elem_of_cons in Ho as [->|Ho]; [by exists 1|].
      apply list_elem_of_fmap in Ho as (d & -> & _). by exists d. }
    simpl. rewrite Z.eqb_eq. done.
  - simpl. split.
    + intros (o & Ho & Hsel).
      assert (Hoff : Controls.interval o
                     ∈ Controls.interval
                         <$> Controls.interval_options (getDivisors (count r))
                               (Int (count r)) (Num (Int (r + 2)))).
      { apply list_elem_of_fmap. by exists o. }
      assert (Hiv : Controls.interval o = r + 2).
      { unfold Controls.interval_options in Ho.
        apply elem_of_cons in Ho as [->|Ho].
        - cbn [Controls.selected Controls.item_for] in Hsel.
          apply is_current_spec in Hsel. by injection Hsel as <-.
        - apply list_elem_of_fmap in Ho as (d & -> & _).
          cbn [Controls.selected Controls.item_for] in Hsel.
          apply is_current_spec in Hsel. by injection Hsel as <-. }
      rewrite Hiv in Hoff. apply interval_options_elem in Hoff as [_ Hdiv]; [|unfold count; nia].
      unfold count in Hdiv.
      apply (Z.divide_add_cancel_r _ (c0 / 2 * (r + 2))) in Hdiv;
        [|apply Z.divide_factor_r].
      destruct (decide (c0 `mod` 2 = 0)) as [|Hodd]; [done|].
      apply Z.divide_pos_le in Hdiv; lia.
    + intros Heven.
      assert (Hoff : r + 2
                     ∈ Controls.interval
                         <$> Controls.interval_options (getDivisors (count r))
                               (Int (count r)) (Num (Int (r + 2)))).
      { apply interval_options_elem; [unfold count; nia|]. split; [lia|].
        unfold count. rewrite Heven, Z.add_0_r. apply Z.divide_factor_r. }
      apply list_elem_of_fmap in Hoff as (o & Hiv & Ho).
      exists o. split; [done|].
      unfold Controls.interval_options in Ho.
      apply elem_of_cons in Ho as [->|Ho].
      * simpl in Hiv. lia.
      * apply list_elem_of_fmap in Ho as (d & -> & _).
        cbn [Controls.selected Controls.item_for].
        apply is_current_spec. simpl in Hiv. by rewrite Hiv.
Qed.

Lemma planned_interval_selected_iff_even_witness :
  2 ≤ 5 ∧ 0 ≤ 1 < 4 - 1
  ∧ ∃ dropdowns options,
      Controls.onInitialParametersChange 5 4
      = ((λ r, Num (Int (r + 2))) <$> seqZ 0 (4 - 1), Some dropdowns)
      ∧ Z.of_nat (length dropdowns) = 4 - 1
      ∧ dropdowns !! Z.to_nat 1 = Some (Int (5 / 2 * (1 + 2) + 5 `mod` 2), options)
      ∧ (∀ o, o ∈ options → Controls.selected o = true ↔ Controls.interval o = 1 + 2)
      ∧ ((∃ o, o ∈ options ∧ Controls.selected o = true) ↔ 5 `mod` 2 = 0).
Proof.
  assert (Hc0 : 2 ≤ 5) by lia.
  assert (Hr : 0 ≤ 1 < 4 - 1) by lia.
  split; [exact Hc0|]. split; [exact Hr|].
  exact (planned_interval_selected_iff_even 5 4 1 Hc0 Hr).
Defined.

Example planned_dropdowns_examples :
  (Controls.updateExpansionIntervalControls 5 3 [Num (Int 2); Num (Int 3)]
   = Some [(Int 5, [Controls.Build_item 1 false (Int 10);
                    Controls.Build_item 5 false (Int 6)]);
           (Int 7, [Controls.Build_item 1 false (Int 14);
                    Controls.Build_item 7 false (Int 8)])])
  ∧ Controls.updateExpansionIntervalControls 4 2 [Num (Int 2)]
    = Some [(Int 4, [Controls.Build_item 1 false (Int 8);
                     Controls.Build_item 2 true (Int 6);
                     Controls.Build_item 4 false (Int 5)])].
Proof. vm_compute. split; reflexivity. Qed.

(** ** A change of one dropdown *)

Lemma default_interval_divisor (p : Z) :
  1 ≤ p → ∃ d, getDefaultExpansionInterval p = Some d ∧ 1 ≤ d ∧ (d | p).
Proof.
  intros Hp. unfold getDefaultExpansionInterval. cbv zeta.
  set (validDivisors := filter (λ d, 1 < d) (getDivisors p)).
  destruct (decide (length validDivisors = 0%nat)) as [_|Hne].
  { exists p. split; [done|]. split; [lia|apply Z.divide_refl]. }
  destruct (lookup_lt_is_Some_2 validDivisors
              (Z.to_nat (Z.max 0 (Z.min (Z.of_nat (length validDivisors) - 1)
                                      (Z.of_nat (length validDivisors) * 6 / 10)))))
    as [d Hd]; [lia|].
  exists d. split; [done|].
  apply list_elem_of_lookup_2, elem_of_validDivisors in Hd as [Hd Hdiv]; [|done].
  split; [lia|done].
Qed.

Lemma safe_schedule_get (expansionIntervals : list value) (r : Z) :
  safe_schedule expansionIntervals →
  truthy (get expansionIntervals (Int r)) = true →
  ∃ z, get expansionIntervals (Int r) = Num (Int z) ∧ 1 ≤ z.
Proof.
  intros Hsafe. unfold get. destruct (0 <=? r); [|done].
  destruct (expansionIntervals !! Z.to_nat r) as [v|] eqn:Hv; [|done]. simpl.
  unfold safe_schedule in Hsafe. rewrite Forall_lookup in Hsafe.
  destruct (Hsafe _ _ Hv) as [-> | [-> | (z & -> & Hz)]]; [done..|].
  simpl. intros Hz0. exists z. split; [done|].
  destruct (Z.eqb_spec z 0); [done|lia].
Qed.

Lemma current_value_safe (expansionIntervals : list value) (r p : Z) :
  safe_schedule expansionIntervals → 1 ≤ p →
  ∃ z, Controls.current_value expansionIntervals r (Int p) = Some (Num (Int z))
       ∧ 1 ≤ z.
Proof.
  intros Hsafe Hp. unfold Controls.current_value. cbv zeta.
  destruct (truthy (get expansionIntervals (Int r))) eqn:Ht.
  - destruct (safe_schedule_get _ _ Hsafe Ht) as (z & -> & Hz). by exists z.
  - destruct (default_interval_divisor p Hp) as (d & Hd & Hd1 & _).
    exists d. simpl. by rewrite Hd.
Qed.

(** The counts of the controls on a schedule whose entries are missing,
    NaN or integers that are not negative. *)
Lemma cell_counts_safe (c0 numRings : Z) (expansionIntervals : list value) :
  1 ≤ c0 → safe_schedule expansionIntervals →
  ∃ cellCounts,
    Controls.cell_counts c0 numRings expansionIntervals = Some cellCounts
    ∧ ∀ r, 0 ≤ r ≤ numRings - 1 →
        ∃ p, cellCounts !! Z.to_nat r = Some (Int p) ∧ 1 ≤ p.
Proof.
  intros Hc0 Hsafe. unfold Controls.cell_counts.
  assert (Hupto : ∀ k : nat,
            ∃ counts,
              foldl (Controls.count_step expansionIntervals) (Some [Int c0])
                (seqZ 0 (Z.of_nat k)) = Some counts
              ∧ length counts = S k
              ∧ ∀ r, (r ≤ k)%nat → ∃ p, counts !! r = Some (Int p) ∧ 1 ≤ p).
  { induction k as [|k (counts & IH & Hlen & Hall)].
    - exists [Int c0]. split; [done|]. split; [done|].
      intros r Hr. replace r with 0%nat by lia. by exists c0.
    - rewrite seqZ_S, foldl_app, IH. cbn [foldl]. rewrite Z.add_0_l.
      destruct (Hall k ltac:(lia)) as (p & Hp & Hp1).
      destruct (current_value_safe expansionIntervals (Z.of_nat k) p Hsafe Hp1)
        as (z & Hz & Hz1).
      unfold Controls.count_step. simpl. rewrite Nat2Z.id, Hp. simpl.
      rewrite Hz. simpl. destruct (Z.eqb_spec z 0) as [?|_]; [lia|].
      eexists. split; [done|]. split; [rewrite length_app; simpl; lia|].
      intros r Hr. destruct (decide (r ≤ k)%nat) as [Hin|Hout].
      + rewrite lookup_app_l by lia. by apply Hall.
      + replace r with (length counts) by lia.
        rewrite lookup_app_r, Nat.sub_diag by lia. simpl.
        exists (p + p / z). split; [done|].
        pose proof (Z.div_pos p z ltac:(lia) ltac:(lia)). lia. }
  destruct (decide (0 ≤ numRings - 1)) as [Hr|Hr].
  - destruct (Hupto (Z.to_nat (numRings - 1))) as (counts & Hcounts & _ & Hall).
    rewrite Z2Nat.id in Hcounts by done. exists counts. split; [done|].
    intros r Hr'. apply Hall. lia.
  - rewrite seqZ_nil by lia. exists [Int c0]. split; [done|]. intros r Hr'. lia.
Qed.

(** The value that a later dropdown gets: its own when that is an
    integer of at least 1 that divides the count (1 always does), the
    default interval of the count in every other case. *)
Lemma new_value_valid (p : Z) (currentValue : number) :
  1 ≤ p →
  ∃ d k,
    getDefaultExpansionInterval p = Some d
    ∧ Controls.new_value (getDivisors p) (Int p) currentValue = Some (Num (Int k))
    ∧ 1 ≤ k ∧ (k | p)
    ∧ k = match currentValue with
          | Int z => if decide (1 ≤ z ∧ (z | p)) then z else d
          | _ => d
          end.
Proof.
  intros Hp. unfold Controls.new_value.
  destruct (default_interval_divisor p Hp) as (d & Hd & Hd1 & Hdiv).
  exists d.
  destruct currentValue as [z| | |];
    try (exists d; simpl; rewrite Hd; by repeat split).
  destruct (decide (1 ≤ z ∧ (z | p))) as [[Hz Hzdiv]|Hnot].
  - exists z. split; [done|]. split; [|done].
    assert (Hin : Controls.includes (getDivisors p) (Int z) = true).
    { simpl. apply bool_decide_eq_true, elem_of_getDivisors; done. }
    rewrite Hin. simpl. by rewrite andb_false_r.
  - exists d. split; [done|]. split; [|done].
    assert (Hne : strict_eq (Int z) (Int 1) = false).
    { simpl. apply Z.eqb_neq. intros ->. destruct Hnot. split; [lia|apply Z.divide_1_l]. }
    assert (Hout : Controls.includes (getDivisors p) (Int z) = false).
    { simpl. apply bool_decide_eq_false. intros Hin.
      apply elem_of_getDivisors in Hin; done. }
    rewrite Hne, Hout. simpl. by rewrite Hd.
Qed.

Lemma revalidate_Some (dropdown : Z → option string) (cellCounts : list number)
    (intervals : list value) (r p : Z) :
  cellCounts !! Z.to_nat r = Some (Int p) →
  Controls.revalidate dropdown cellCounts (Some intervals) r
  = match dropdown r with
    | Some chosen =>
        newValue ← Controls.new_value (getDivisors p) (Int p) (parseInt chosen 0);
        Some (set_index intervals (Z.to_nat r) newValue)
    | None => Some intervals
    end.
Proof. intros Hp. unfold Controls.revalidate. simpl. by rewrite Hp. Qed.

Lemma revalidate_upto (dropdown : Z → option string) (cellCounts : list number)
    (intervals : list value) (first : Z) (n : nat) :
  0 ≤ first →
  (∀ r, first ≤ r < first + Z.of_nat n →
     ∃ p, cellCounts !! Z.to_nat r = Some (Int p) ∧ 1 ≤ p) →
  ∃ revalidated,
    foldl (Controls.revalidate dropdown cellCounts) (Some intervals)
      (seqZ first (Z.of_nat n)) = Some revalidated
    ∧ ∀ r,
        if decide (first ≤ r < first + Z.of_nat n) then
          match dropdown r with
          | Some chosen =>
              ∃ p d k, cellCounts !! Z.to_nat r = Some (Int p) ∧ 1 ≤ p
                       ∧ getDefaultExpansionInterval p = Some d
                       ∧ get revalidated (Int r) = Num (Int k)
                       ∧ 1 ≤ k ∧ (k | p)
                       ∧ k = match parseInt chosen 0 with
                             | Int z => if decide (1 ≤ z ∧ (z | p)) then z else d
                             | _ => d
                             end
          | None => get revalidated (Int r) = get intervals (Int r)
          end
        else get revalidated (Int r) = get intervals (Int r).
Proof.
  intros Hfirst. induction n as [|n IH]; intros Hcounts.
  { exists intervals. split; [done|]. intros r. by destruct (decide _); [lia|]. }
  destruct IH as (l & Hl & Hget); [intros r Hr; apply Hcounts; lia|].
  rewrite seqZ_S, foldl_app, Hl. cbn [foldl].
  destruct (Hcounts (first + Z.of_nat n) ltac:(lia)) as (p & Hp & Hp1).
  rewrite (revalidate_Some _ _ _ _ p Hp).
  destruct (dropdown (first + Z.of_nat n)) as [chosen|] eqn:Hd.
  - destruct (new_value_valid p (parseInt chosen 0) Hp1)
      as (d & k & Hdef & -> & Hk1 & Hdiv & Hk).
    exists (set_index l (Z.to_nat (first + Z.of_nat n)) (Num (Int k))).
    split; [done|]. intros r. rewrite get_set_index.
    specialize (Hget r).
    destruct (decide (r = Z.of_nat (Z.to_nat (first + Z.of_nat n)))) as [->|Hr].
    + clear Hget. rewrite Z2Nat.id by lia. destruct (decide _); [|lia].
      rewrite Hd. by exists p, d, k.
    + destruct (decide (first ≤ r < first + Z.of_nat n)),
        (decide (first ≤ r < first + Z.of_nat (S n))); try lia; done.
  - exists l. split; [done|]. intros r. specialize (Hget r).
    destruct (decide (r = first + Z.of_nat n)) as [->|Hr].
    + destruct (decide (_ ≤ _ < first + Z.of_nat n)) as [|_] in Hget; [lia|].
      destruct (decide _); [|lia]. by rewrite Hd.
    + destruct (decide (first ≤ r < first + Z.of_nat n)),
        (decide (first ≤ r < first + Z.of_nat (S n))); try lia; done.
Qed.

Lemma safe_schedule_set_index (expansionIntervals : list value) (i : nat) (z : Z) :
  safe_schedule expansionIntervals → 0 ≤ z →
  safe_schedule (set_index expansionIntervals i (Num (Int z))).
Proof.
  intros Hsafe Hz. unfold set_index, safe_schedule.
  assert (Hnew : Num (Int z) = Undefined ∨ Num (Int z) = Num NaN
                 ∨ ∃ z', Num (Int z) = Num (Int z') ∧ 0 ≤ z').
  { right. right. by exists z. }
  destruct (decide _).
  - by apply Forall_insert.
  - apply Forall_app. split; [done|]. apply Forall_app. split.
    + apply Forall_replicate. by left.
    + by apply Forall_singleton.
Qed.

(** X18.  What [onExpansionIntervalChange] leaves in the schedule, for an
    initial ring of at least one cell, a schedule whose entries are
    missing, NaN or integers that are not negative, and a changed dropdown
    whose value parses to an integer that is not negative.  The function
    returns; the entries before the changed one are kept and the changed
    one is the parsed value; every later transition that has a dropdown
    gets the value of its dropdown when that is an integer of at least 1
    that divides the count [p] computed for its ring (1 always does), and
    the default interval of [p] in every other case, a value that does not
    parse included; either way the entry is an integer of at least 1 that
    divides [p].  The counts are those of the schedule as it was right
    after the change: they are not computed again while the later entries
    are replaced. *)
Theorem onExpansionIntervalChange_revalidates (dropdown : Z → option string)
    (c0 numRings ringIndex k0 : Z) (expansionIntervals : list value) (chosen : string) :
  1 ≤ c0 → 0 ≤ ringIndex → safe_schedule expansionIntervals →
  dropdown ringIndex = Some chosen → parseInt chosen 0 = Int k0 → 0 ≤ k0 →
  let changed := set_index expansionIntervals (Z.to_nat ringIndex) (Num (Int k0)) in
  ∃ cellCounts revalidated,
    Controls.cell_counts c0 numRings changed = Some cellCounts
    ∧ Controls.onExpansionIntervalChange dropdown c0 numRings expansionIntervals ringIndex
      = Some revalidated
    ∧ get revalidated (Int ringIndex) = Num (Int k0)
    ∧ ∀ r, r ≠ ringIndex →
        if decide (ringIndex < r < numRings - 1) then
          match dropdown r with
          | Some current =>
              ∃ p d k, cellCounts !! Z.to_nat r = Some (Int p) ∧ 1 ≤ p
                       ∧ getDefaultExpansionInterval p = Some d
                       ∧ get revalidated (Int r) = Num (Int k)
                       ∧ 1 ≤ k ∧ (k | p)
                       ∧ k = match parseInt current 0 with
                             | Int z => if decide (1 ≤ z ∧ (z | p)) then z else d
                             | _ => d
                             end
          | None => get revalidated (Int r) = get expansionIntervals (Int r)
          end
        else get revalidated (Int r) = get expansionIntervals (Int r).
Proof.
  intros Hc0 Hidx Hsafe Hd Hparse Hk0 changed.
  assert (Hsafe' : safe_schedule changed) by by apply safe_schedule_set_index.
  destruct (cell_counts_safe c0 numRings changed Hc0 Hsafe') as (cellCounts & Hcounts & Hall).
  unfold Controls.onExpansionIntervalChange. rewrite Hd, Hparse. fold changed.
  rewrite Hcounts. cbn [mbind option_bind].
  set (n := numRings - 1 - (ringIndex + 1)).
  assert (Hrange : seqZ (ringIndex + 1) n = seqZ (ringIndex + 1) (Z.of_nat (Z.to_nat n))).
  { destruct (decide (0 ≤ n)); [by rewrite Z2Nat.id|]. by rewrite !seqZ_nil by lia. }
  rewrite Hrange.
  destruct (revalidate_upto dropdown cellCounts changed (ringIndex + 1) (Z.to_nat n))
    as (revalidated & Hrev & Hget); [lia| |].
  { intros r Hr. apply Hall. lia. }
  exists cellCounts, revalidated. split; [done|]. split; [done|]. split.
  - specialize (Hget ringIndex). destruct (decide _) as [|_] in Hget; [lia|].
    rewrite Hget. unfold changed. rewrite get_set_index.
    destruct (decide _); [done|lia].
  - intros r Hr. specialize (Hget r).
    assert (Hkeep : get changed (Int r) = get expansionIntervals (Int r)).
    { unfold changed. rewrite get_set_index.
      destruct (decide (r = Z.of_nat (Z.to_nat ringIndex))); [lia|done]. }
    rewrite Hkeep in Hget. subst n.
    destruct (decide (ringIndex + 1 ≤ r < ringIndex + 1 + Z.of_nat (Z.to_nat _))),
      (decide (ringIndex < r < numRings - 1)); try lia; done.
Qed.

Lemma onExpansionIntervalChange_revalidates_witness :
  let dropdown r := if r =? 0 then Some "1" else if r =? 1 then Some "4" else Some "x" in
  let schedule := [Num (Int 4); Num (Int 4); Num (Int 4)] in
  1 ≤ 16 ∧ 0 ≤ 0 ∧ safe_schedule schedule
  ∧ dropdown 0 = Some "1" ∧ parseInt "1" 0 = Int 1 ∧ 0 ≤ 1
  ∧ Controls.cell_counts 16 4 (set_index schedule (Z.to_nat 0) (Num (Int 1)))
    = Some [Int 16; Int 32; Int 40; Int 50]
  ∧ getDefaultExpansionInterval 32 = Some 16
  ∧ getDefaultExpansionInterval 40 = Some 10
  ∧ Controls.onExpansionIntervalChange dropdown 16 4 schedule 0
    = Some [Num (Int 1); Num (Int 4); Num (Int 10)]
  ∧ ∃ cellCounts revalidated,
      Controls.cell_counts 16 4 (set_index schedule (Z.to_nat 0) (Num (Int 1)))
      = Some cellCounts
      ∧ Controls.onExpansionIntervalChange dropdown 16 4 schedule 0 = Some revalidated
      ∧ get revalidated (Int 0) = Num (Int 1).
Proof.
  intros dropdown schedule.
  assert (Hc0 : 1 ≤ 16) by lia.
  assert (Hidx : 0 ≤ 0) by lia.
  assert (Hk0 : 0 ≤ 1) by lia.
  assert (Hsafe : safe_schedule schedule).
  { repeat (apply Forall_cons_2; [right; right; exists 4; split; [reflexivity|lia]|]).
    apply Forall_nil_2. }
  split; [exact Hc0|]. split; [exact Hidx|]. split; [exact Hsafe|].
  split; [reflexivity|]. split; [reflexivity|]. split; [exact Hk0|].
  split; [reflexivity|]. split; [reflexivity|]. split; [reflexivity|].
  split; [reflexivity|].
  destruct (onExpansionIntervalChange_revalidates dropdown 16 4 0 1 schedule "1"
              Hc0 Hidx Hsafe eq_refl eq_refl Hk0)
    as (cellCounts & revalidated & Hcounts & Hchange & Hget & _).
  by exists cellCounts, revalidated.
Defined.

(** The counts are stale once an entry has been replaced: the first
    dropdown goes from 4 to 3 on 16 cells; the second dropdown, 4, is checked
    against 21 cells and replaced by 7, which makes the third ring 24 cells
    long; the third dropdown, 5, is still checked against the 26 cells
    computed before and gets 13, which does not divide 24. *)
Example onExpansionIntervalChange_stale_counts :
  let dropdown r := if r =? 0 then Some "3" else if r =? 1 then Some "4" else Some "5" in
  Controls.onExpansionIntervalChange dropdown 16 4
    [Num (Int 4); Num (Int 4); Num (Int 5)] 0
  = Some [Num (Int 3); Num (Int 7); Num (Int 13)]
  ∧ Controls.cell_counts 16 4 [Num (Int 3); Num (Int 4); Num (Int 5)]
    = Some [Int 16; Int 21; Int 26; Int 31]
  ∧ Controls.cell_counts 16 4 [Num (Int 3); Num (Int 7); Num (Int 13)]
    = Some [Int 16; Int 21; Int 24; Int 25].
Proof. vm_compute. repeat split. Qed.

(** ** The radial lines of a frame *)

Lemma radial_lines_upto (mask : list bool) (k : nat) :
  foldl (λ '(prevIndex, lines) i,
           if negb (default false (mask !! i))
           then (prevIndex + 1, lines ++ [(prevIndex, i)])
           else (prevIndex, lines))
        (0, []) (seq 0 k)
  = (Z.of_nat (rule_cells mask k),
     (λ i, (Z.of_nat (rule_cells mask i), i))
       <$> filter (λ i, default false (mask !! i) = false) (seq 0 k)).
Proof.
  induction k as [|k IH]; [done|].
  rewrite seq_S, foldl_app, IH, filter_app, fmap_app, rule_cells_S. simpl.
  destruct (default false (mask !! k)) eqn:E; simpl.
  - rewrite filter_cons_False by (by rewrite E). simpl.
    rewrite app_nil_r. f_equal. lia.
  - rewrite filter_cons_True by done. simpl. f_equal. lia.
Qed.

Lemma rule_cells_enumerate (mask : list bool) (k : nat) :
  (λ i, Z.of_nat (rule_cells mask i))
    <$> filter (λ i, default false (mask !! i) = false) (seq 0 k)
  = seqZ 0 (Z.of_nat (rule_cells mask k)).
Proof.
  induction k as [|k IH]; [done|].
  rewrite seq_S, filter_app, fmap_app, IH, rule_cells_S. simpl.
  destruct (default false (mask !! k)) eqn:E; simpl.
  - rewrite filter_cons_False by (by rewrite E). simpl.
    rewrite app_nil_r. f_equal. lia.
  - rewrite filter_cons_True by done. simpl.
    replace (Z.of_nat (rule_cells mask k + 1)) with (Z.of_nat (S (rule_cells mask k)))
      by lia.
    by rewrite seqZ_S.
Qed.

(** X19.  The radial lines that [draw] puts between two rings, on the
    topology of an interval of at least 1: every cell of the previous ring
    is the start of exactly one line, in the order of the cells, and the
    line that ends at cell [i] of the current ring, which is never an
    expansion cell, starts at cell [i - floor(i / (interval + 1))], the cell
    whose neighbourhood [generateNextRing] used for cell [i]. *)
Theorem radial_lines_join_parents (prevCount interval : Z) (hole : list value)
    (mask : list bool) :
  1 ≤ prevCount → 1 ≤ interval →
  buildRing (Int prevCount) (Int interval) = Ok (hole, mask) →
  let lines := radial_lines mask (length hole) in
  lines.*1 = seqZ 0 prevCount
  ∧ ∀ c i, (c, i) ∈ lines
           ↔ (i < length hole)%nat
             ∧ Z.of_nat i `mod` (interval + 1) ≠ interval
             ∧ c = parent interval (Z.of_nat i).
Proof.
  intros Hp Hk Hbuild lines.
  pose proof (Z.div_pos prevCount interval ltac:(lia) ltac:(lia)) as Hq.
  buildRing_Ok Hbuild.
  set (n := Z.to_nat (prevCount + prevCount / interval)) in *.
  injection Hbuild as <- <-. rewrite length_replicate in *.
  set (mask := is_expansion (Int interval) <$> seq 0 n) in *.
  assert (Hlines : lines
                   = (λ i, (Z.of_nat (rule_cells mask i), i))
                       <$> filter (λ i, default false (mask !! i) = false) (seq 0 n)).
  { unfold lines, radial_lines. rewrite length_replicate. fold n. by rewrite radial_lines_upto. }
  split.
  - rewrite Hlines, <- list_fmap_compose.
    change (fst ∘ _) with (λ i, Z.of_nat (rule_cells mask i)).
    rewrite rule_cells_enumerate. f_equal. unfold mask.
    rewrite rule_cells_blocks by lia.
    replace (Z.of_nat n) with (prevCount + prevCount / interval) by lia.
    rewrite grown_count_blocks by lia. lia.
  - intros c i. rewrite Hlines, list_elem_of_fmap. split.
    + intros (j & [= -> ->] & [Hj Hin]%list_elem_of_filter).
      apply elem_of_seq in Hin. split; [lia|].
      unfold mask in Hj |- *.
      rewrite list_lookup_fmap, lookup_seq_lt in Hj by lia. simpl in Hj.
      rewrite is_expansion_mod in Hj by done. apply Z.eqb_neq in Hj.
      split; [done|]. rewrite rule_cells_blocks by lia. done.
    + intros (Hi & Hmod & ->). exists i. split.
      * unfold mask. rewrite rule_cells_blocks by lia. done.
      * apply list_elem_of_filter. split; [|apply elem_of_seq; lia].
        unfold mask. rewrite list_lookup_fmap, lookup_seq_lt by lia. simpl.
        rewrite is_expansion_mod by done. by apply Z.eqb_neq.
Qed.

Lemma radial_lines_join_parents_witness :
  let hole := replicate 6 Undefined in
  let mask := [false; false; true; false; false; true] in
  1 ≤ 4 ∧ 1 ≤ 2 ∧ buildRing (Int 4) (Int 2) = Ok (hole, mask)
  ∧ radial_lines mask (length hole) = [(0, 0%nat); (1, 1%nat); (2, 3%nat); (3, 4%nat)]
  ∧ (radial_lines mask (length hole)).*1 = seqZ 0 4.
Proof.
  intros hole mask.
  assert (Hp : 1 ≤ 4) by lia.
  assert (Hk : 1 ≤ 2) by lia.
  split; [exact Hp|]. split; [exact Hk|]. split; [reflexivity|]. split; [reflexivity|].
  exact (proj1 (radial_lines_join_parents 4 2 hole mask Hp Hk eq_refl)).
Defined.

(** ** The divisors *)

(** X20.  [getDivisors(n)] returns nothing for [n ≤ 0], where the loop does
    not run, and for [n ≥ 1] exactly the positive divisors of [n], each once
    and in ascending order, from 1 to [n]; the list is closed under
    [d ↦ n / d], the pairing by which the loop up to the square root finds
    the divisors above it. *)
Theorem getDivisors_divisors (n : Z) :
  (n ≤ 0 → getDivisors n = [])
  ∧ (1 ≤ n →
     (∀ d, d ∈ getDivisors n ↔ 1 ≤ d ∧ (d | n))
     ∧ StronglySorted Z.lt (getDivisors n)
     ∧ head (getDivisors n) = Some 1
     ∧ last (getDivisors n) = Some n
     ∧ ∀ d, d ∈ getDivisors n → n / d ∈ getDivisors n ∧ d * (n / d) = n).
Proof.
  split.
  - intros Hn. unfold getDivisors.
    assert (Z.sqrt n = 0) as ->.
    { destruct (decide (n = 0)) as [->|Hne]; [done|]. apply Z.sqrt_neg. lia. }
    done.
  - intros Hn.
    assert (Hin : ∀ d, d ∈ getDivisors n ↔ 1 ≤ d ∧ (d | n))
      by (intros d; by apply elem_of_getDivisors).
    assert (H1 : 1 ∈ getDivisors n) by (apply Hin; split; [lia|apply Z.divide_1_l]).
    assert (Hn' : n ∈ getDivisors n) by (apply Hin; split; [lia|apply Z.divide_refl]).
    pose proof (Sorted_getDivisors n) as Hsorted.
    split; [done|]. split; [|split; [|split]].
    + apply StronglySorted_strict; [done|by apply NoDup_getDivisors].
    + destruct (getDivisors n) as [|a l] eqn:E; [by apply elem_of_nil in H1|].
      simpl. f_equal.
      assert (Ha : a ∈ a :: l) by left. apply Hin in Ha as [Ha _].
      apply list_elem_of_lookup_1 in H1 as [i Hi].
      pose proof (StronglySorted_lookup_le (a :: l) 0 i a 1 Hsorted ltac:(lia) eq_refl Hi).
      lia.
    + destruct (last (getDivisors n)) as [d|] eqn:E.
      * f_equal.
        pose proof (StronglySorted_last_max _ d n Hsorted E Hn').
        apply last_Some_elem_of, Hin in E as [Hd Hdiv].
        pose proof (Z.divide_pos_le d n ltac:(lia) Hdiv). lia.
      * apply last_None in E. rewrite E in H1. by apply elem_of_nil in H1.
    + intros d [Hd Hdiv]%Hin.
      destruct (divide_quotient n d Hn Hd Hdiv) as (Heq & Hq & Hqdiv).
      split; [by apply Hin|lia].
Qed.

(** ** Rings that the run has not reached *)

Lemma buildRing_holes (prevCount expansionInterval : number) (cells : list value)
    (mask : list bool) :
  buildRing prevCount expansionInterval = Ok (cells, mask) →
  cells = replicate (length cells) Undefined.
Proof.
  rewrite buildRing_cases.
  destruct (add _ _) as [z| | |]; try done.
  destruct (allocatable (Int z)); [|done]. intros [= <- _].
  by rewrite length_replicate.
Qed.

(** X21.  During a run of the variable-interval sketch the rings past
    [currentRing] are still the holes that [initializeSimulation] made:
    [draw] has written nothing into them.  [updateColors], which paints
    every ring of [rings] whatever [currentRing] is, therefore paints each
    of these rings, cell after cell, in the colour of state 0. *)
Theorem Scheduled_rings_ahead_are_holes (s s0 s1 : Scheduled.state) (k r : nat)
    (ring : list value) :
  1 ≤ Scheduled.initialCellCount s →
  safe_schedule (Scheduled.expansionIntervals s) →
  Scheduled.initializeSimulation s = Ok s0 → Scheduled.frames k s0 = Ok s1 →
  Scheduled.currentRing s1 < Z.of_nat r → Scheduled.rings s1 !! r = Some ring →
  Scheduled.rings s0 !! r = Some ring
  ∧ ring = replicate (length ring) Undefined
  ∧ updateColors (Scheduled.rings s1) !! r = Some (replicate (length ring) false).
Proof.
  intros Hcount Hsafe Hinit Hframes Hr Hring.
  destruct (Scheduled_initializeSimulation_safe s Hcount Hsafe
              (Scheduled_initializeSimulation_Ok_fits s s0 Hinit))
    as (s0' & Hinit' & (Hpar & Hnum0 & _) & Hcur & _ & _ & _ & Htop & _).
  assert (s0' = s0) as -> by congruence.
  destruct (Scheduled_frames_generated k (Scheduled.rings s0) s0 s1)
    as [(_ & _ & Hrest & _) Hcur1];
    [done|done|lia|rewrite Hcur; apply generated_upto_start|done|].
  rewrite Hrest in Hring by lia. split; [done|].
  assert (Hholes : ring = replicate (length ring) Undefined).
  { destruct r as [|r]; [lia|]. destruct Htop as [_ Hsteps].
    destruct (lookup_lt_is_Some_2 (Scheduled.rings s0) r) as [prev Hprev].
    { apply lookup_lt_Some in Hring. lia. }
    destruct (Hsteps r prev Hprev) as (cells & mask & Hcells & _ & Hbuild).
    { by apply lookup_lt_Some in Hring. }
    assert (cells = ring) as -> by congruence. by eapply buildRing_holes. }
  split; [done|].
  unfold updateColors. rewrite list_lookup_fmap, Hrest, Hring by lia. simpl.
  f_equal. rewrite Hholes at 1. unfold painted_black. by rewrite fmap_replicate.
Qed.

Lemma Scheduled_rings_ahead_are_holes_witness :
  let s := Scheduled.Build_state 4 4 [Num (Int 2); Num (Int 3); Num (Int 4)]
             [bit 0; bit 1; bit 0; bit 1; bit 1; bit 0; bit 1; bit 0]
             [bit 1; bit 0; bit 0; bit 0] [] [] 0 in
  let after (m : result Scheduled.state) := match m with Ok x => x | Throw _ => s end in
  let s0 := after (Scheduled.initializeSimulation s) in
  let s1 := after (Scheduled.frames 1 s0) in
  let ring := replicate 8 Undefined in
  1 ≤ Scheduled.initialCellCount s
  ∧ safe_schedule (Scheduled.expansionIntervals s)
  ∧ Scheduled.initializeSimulation s = Ok s0 ∧ Scheduled.frames 1 s0 = Ok s1
  ∧ Scheduled.currentRing s1 < Z.of_nat 2 ∧ Scheduled.rings s1 !! 2%nat = Some ring
  ∧ Scheduled.rings s0 !! 2%nat = Some ring
  ∧ ring = replicate (length ring) Undefined
  ∧ updateColors (Scheduled.rings s1) !! 2%nat = Some (replicate (length ring) false).
Proof.
  intros s after s0 s1 ring.
  assert (Hcount : 1 ≤ Scheduled.initialCellCount s) by (simpl; lia).
  assert (Hsafe : safe_schedule (Scheduled.expansionIntervals s)).
  { apply Forall_cons_2; [right; right; exists 2; split; [reflexivity|lia]|].
    apply Forall_cons_2; [right; right; exists 3; split; [reflexivity|lia]|].
    apply Forall_cons_2; [right; right; exists 4; split; [reflexivity|lia]|].
    apply Forall_nil_2. }
  assert (H0 : Scheduled.initializeSimulation s = Ok s0) by reflexivity.
  assert (H1 : Scheduled.frames 1 s0 = Ok s1) by reflexivity.
  assert (Hr : Scheduled.currentRing s1 < Z.of_nat 2) by (vm_compute; reflexivity).
  assert (Hring : Scheduled.rings s1 !! 2%nat = Some ring) by reflexivity.
  split; [exact Hcount|]. split; [exact Hsafe|]. split; [exact H0|].
  split; [exact H1|]. split; [exact Hr|]. split; [exact Hring|].
  exact (Scheduled_rings_ahead_are_holes s s0 s1 1 2 ring Hcount Hsafe H0 H1 Hr Hring).
Defined.
